(** * mxnet.rnn.io: vocabulary encoding and the bucketing sentence iterator

    A shallow embedding of [python/mxnet/rnn/io.py]: the function
    [encode_sentences] and the class [BucketSentenceIter] with its methods
    [__init__], [reset] and [next], followed by the properties proved of
    them.

    Conventions of the embedding.
    - Python integers are unbounded: they are [Z]; positions in a list and
      row counts are [nat].
    - A [dict] of [str -> int] is a [gmap string Z].
    - An exception ends the call: fallible code returns a sum whose left
      side is the exception raised.
    - Objects that are mutated in place and can be reached from outside the
      call (the supplied vocabulary, the supplied [buckets] list) live in an
      explicit store that the call returns.
    - An array is the list of its cells or of its rows, with the number of
      columns kept apart so that an empty array still has its axes; [dtype]
      is a type [elt] with the conversion [astype] of an integer to it.
    - What [numpy] refuses is given by [Limits]: the integers that a cell of
      the element type cannot take ([OverflowError]) and the extent beyond
      which an axis is refused ([ValueError]). Memory is not bounded: an
      array that [numpy] accepts is allocated.
    - The two random generators are given by the draws they make; the
      shuffles are the exchange loops of [random] and [np.random]. *)

From stdpp Require Import base option list gmap strings fin_maps sorting.
From Stdlib Require Import ZArith Lia.

Open Scope Z_scope.

(** Exceptions the module can raise. *)
Inductive exn :=
| AssertionError (msg : string)
| KeyError (key : string)
| ValueError
| IndexError
| TypeError
| OverflowError.

(** * Part I: [encode_sentences] *)

Module Encoder.

(** The two variables the loops update: the dictionary object [vocab]
    (mutated in place) and the counter [idx]. *)
Record enc_state := { vocab : gmap string Z; idx : Z }.

(** State and exception monad of the loop bodies. The state at the moment
    an exception is raised is kept: it is what the caller's dictionary
    holds afterwards. *)
Definition M (A : Type) : Type := enc_state → (exn + A) * enc_state.

Definition ret {A} (a : A) : M A := λ s, (inr a, s).
Definition raise {A} (e : exn) : M A := λ s, (inl e, s).
Definition bind {A B} (m : M A) (k : A → M B) : M B :=
  λ s, match m s with
       | (inl e, s') => (inl e, s')
       | (inr a, s') => k a s'
       end.

Notation "x ←~ m ; k" := (bind m (λ x, k))
  (at level 20, m at level 100, k at level 200, right associativity,
   format "x  ←~  m ;  '/' k").
Notation "m ;;~ k" := (bind m (λ _, k))
  (at level 100, k at level 200, right associativity).

Definition get_vocab : M (gmap string Z) := λ s, (inr (vocab s), s).
Definition get_idx : M Z := λ s, (inr (idx s), s).
Definition set_idx (i : Z) : M unit :=
  λ s, (inr tt, {| vocab := vocab s; idx := i |}).
(** [vocab[word] = i] *)
Definition store (word : string) (i : Z) : M unit :=
  λ s, (inr tt, {| vocab := <[word := i]> (vocab s); idx := idx s |}).
(** [vocab[word]], a [KeyError] when the key is missing. *)
Definition load (word : string) : M Z :=
  λ s, match vocab s !! word with
       | Some c => (inr c, s)
       | None => (inl (KeyError word), s)
       end.
(** [assert c, msg] *)
Definition assert_ (c : bool) (msg : string) : M unit :=
  if c then ret tt else raise (AssertionError msg).
Definition when (c : bool) (m : M unit) : M unit := if c then m else ret tt.

(** [for x in l: body(x)], collecting what the body appends. *)
Fixpoint for_each {A B} (body : A → M B) (l : list A) : M (list B) :=
  match l with
  | [] => ret []
  | x :: l' => y ←~ body x; ys ←~ for_each body l'; ret (y :: ys)
  end.

(** Lines 49-56: the body of the inner loop, for one [word]. *)
Definition encode_word (new_vocab : bool) (invalid_label : Z) (word : string)
  : M Z :=
  v ←~ get_vocab;
  when (bool_decide (v !! word = None))
    (assert_ new_vocab ("Unknow token " +:+ word);;~
     i ←~ get_idx;
     when (bool_decide (i = invalid_label)) (set_idx (i + 1));;~
     i ←~ get_idx;
     store word i;;~
     set_idx (i + 1));;~
  load word.

(** Lines 47-57: the two nested loops. *)
Definition encode_loop (new_vocab : bool) (invalid_label : Z)
  : list (list string) → M (list (list Z)) :=
  for_each (for_each (encode_word new_vocab invalid_label)).

(** [encode_sentences(sentences, vocab, invalid_label, invalid_key,
    start_label)]. The first component is the exception raised or the pair
    returned; the second is the content of the dictionary object when the
    call ends (the caller's own dictionary when one was supplied). *)
Definition encode_sentences (sentences : list (list string))
    (vocab0 : option (gmap string Z))
    (invalid_label : Z) (invalid_key : string) (start_label : Z)
  : (exn + list (list Z) * gmap string Z) * gmap string Z :=
  let '(v, new_vocab) :=
    match vocab0 with
    | None => ({[ invalid_key := invalid_label ]}, true)
    | Some v0 => (v0, false)
    end in
  match encode_loop new_vocab invalid_label sentences
          {| vocab := v; idx := start_label |} with
  | (inl e, s) => (inl e, vocab s)
  | (inr res, s) => (inr (res, vocab s), vocab s)
  end.

(** Decoding through the inverse of a vocabulary: the key, if any, that the
    dictionary maps to [c]. *)
Definition decode (v : gmap string Z) (c : Z) : option string :=
  fst <$> head (filter (λ kv, kv.2 = c) (map_to_list v)).

End Encoder.

(** * Part II: [BucketSentenceIter] *)

Module BucketIter.

(** ** Library functions the class calls *)

(** [bisect.bisect_left(a, x)]: the binary search of the standard library,
    [lo = 0] and [hi = len(a)]. The loop halves [hi - lo], so [len(a)]
    rounds are enough; [fuel] counts them. *)
Fixpoint bisect_loop (fuel : nat) (a : list Z) (x : Z) (lo hi : nat) : nat :=
  match fuel with
  | O => lo
  | S fuel' =>
      if decide (lo < hi)%nat then
        let mid := ((lo + hi) / 2)%nat in
        match a !! mid with
        | Some am =>
            if decide (am < x) then bisect_loop fuel' a x (S mid) hi
            else bisect_loop fuel' a x lo mid
        | None => lo
        end
      else lo
  end.

Definition bisect_left (a : list Z) (x : Z) : nat :=
  bisect_loop (length a) a x 0 (length a).

(** [np.bincount(l)]: entry [i] counts the occurrences of [i], for [i] from
    0 to the largest element; the empty array for an empty input. *)
Definition bincount (l : list nat) : list nat :=
  match l with
  | [] => []
  | _ => (λ i, length (filter (λ y, y = i) l)) <$> seq 0 (S (max_list l))
  end.

(** [list.sort()] on integers. *)
Definition py_sort (l : list Z) : list Z := merge_sort Z.le l.

(** [max(l)], a [ValueError] on the empty list. *)
Definition py_max (l : list Z) : exn + Z :=
  match l with
  | [] => inl ValueError
  | x :: l' => inr (foldl Z.max x l')
  end.

(** [range(start, stop, step)] of Python 2. *)
Definition py_range (start stop step : Z) : exn + list Z :=
  if decide (step = 0) then inl ValueError
  else
    let n :=
      if decide (0 < step) then
        if decide (start < stop) then (stop - start - 1) / step + 1 else 0
      else
        if decide (stop < start) then (start - stop - 1) / (- step) + 1 else 0
    in inr ((λ k, start + Z.of_nat k * step) <$> seq 0 (Z.to_nat n)).

(** [l[j:k]] with Python's treatment of negative and overlong bounds. *)
Definition clamp_index (n : nat) (v : Z) : Z :=
  if decide (v < 0) then Z.max (v + Z.of_nat n) 0 else Z.min v (Z.of_nat n).

Definition py_slice {A} (l : list A) (j k : Z) : list A :=
  let a := clamp_index (length l) j in
  let b := clamp_index (length l) k in
  take (Z.to_nat (b - a)) (drop (Z.to_nat a) l).

(** A random generator is the sequence of the draws it will make (a draw
    past the end of the sequence is 0). *)
Abbreviation gen := (list nat) (only parsing).
Definition draw (g : gen) : nat := hd 0%nat g.
Definition gnext (g : gen) : gen := tail g.

(** [x[i], x[j] = x[j], x[i]] *)
Definition swap {A} (x : list A) (i j : nat) : list A :=
  match x !! i, x !! j with
  | Some a, Some b => <[j := a]> (<[i := b]> x)
  | _, _ => x
  end.

(** The loop of [random.shuffle] and of [np.random.shuffle]:
    [for i in reversed(range(1, len(x)))], with [j] drawn in [0..i]. *)
Fixpoint fisher_yates {A} (i : nat) (g : gen) (x : list A) : list A * gen :=
  match i with
  | O => (x, g)
  | S i' => fisher_yates i' (gnext g) (swap x i (draw g mod S i)%nat)
  end.

Definition shuffle {A} (g : gen) (x : list A) : list A * gen :=
  fisher_yates (length x - 1)%nat g x.

(** The store of the list objects shared with the caller; a location is a
    position in it. *)
Abbreviation heap := (list (list Z)) (only parsing).
Abbreviation loc := nat (only parsing).

Definition alloc (h : heap) (v : list Z) : loc * heap := (length h, h ++ [v]).

(** What the constructor prints. *)
Inductive printed := Discarded (ndiscard : Z).

(** What [numpy] accepts for the [dtype] in use. [storable z]: the Python
    integer [z] can be converted to a cell ([float(10**400)], or the
    conversion to a C integer of an integer beyond 64 bits, raises
    [OverflowError]). [max_dim]: the largest extent of a one-axis array of
    the element type; [np.full] refuses a larger one with [ValueError]
    ("Maximum allowed dimension exceeded", "array is too big"). *)
Class Limits := { storable : Z → bool; max_dim : Z }.

(** The limits of the concrete runs below: cells of 64 bits holding signed
    integers, and the index range of [numpy] for cells of 8 bytes. *)
Definition int64_limits : Limits :=
  {| storable z := bool_decide (- 2 ^ 63 ≤ z < 2 ^ 63);
     max_dim := 2 ^ 60 - 1 |}.

Section Dtype.

(** [dtype]: the element type of the arrays with the conversion of an
    integer to it. [uninit r c] is what an uninitialised cell holds. *)
Context {elt : Type} (astype : Z → elt) (uninit : nat → nat → elt).
Context {limits : Limits}.

(** The arrays of the class: one axis, or two axes with shape
    [(length rows, ncols)]. *)
Inductive ndarray :=
| Arr1 (cells : list elt)
| Arr2 (ncols : nat) (rows : list (list elt)).

(** [len(a)] *)
Definition alen (a : ndarray) : nat :=
  match a with Arr1 c => length c | Arr2 _ r => length r end.

(** [a.shape] *)
Definition shape (a : ndarray) : list nat :=
  match a with Arr1 c => [length c] | Arr2 w r => [length r; w] end.

(** [a[j:k]] *)
Definition aslice (a : ndarray) (j k : Z) : ndarray :=
  match a with
  | Arr1 c => Arr1 (py_slice c j k)
  | Arr2 w r => Arr2 w (py_slice r j k)
  end.

(** [np.asarray(rows, dtype)] of a list of one-axis arrays of one width. *)
Definition asarray (rows : list (list elt)) : ndarray :=
  match rows with
  | [] => Arr1 []
  | r :: _ => Arr2 (length r) rows
  end.

(** [np.random.shuffle(a)]: along the first axis. *)
Definition np_shuffle (g : gen) (a : ndarray) : ndarray * gen :=
  match a with
  | Arr1 c => let '(c', g') := shuffle g c in (Arr1 c', g')
  | Arr2 w r => let '(r', g') := shuffle g r in (Arr2 w r', g')
  end.

(** Line 98: [np.full((w,), invalid_label, dtype)]. The shape is checked
    first: a negative [w] and a [w] beyond [max_dim] are refused with
    [ValueError]. Then every cell receives the converted [invalid_label]:
    with one cell at least, a value that the element type cannot take
    raises [OverflowError]; with no cell, nothing is converted. *)
Definition np_full (w : Z) (invalid_label : Z) : exn + list elt :=
  if decide (w < 0) then inl ValueError
  else if decide (max_dim < w) then inl ValueError
  else if decide (0 < w ∧ storable invalid_label = false) then inl OverflowError
  else inr (replicate (Z.to_nat w) (astype invalid_label)).

(** Line 99: [buff[:len(s)] = s] for a Python list [s]. The target is the
    slice [buff[:len(s)]], of [min(len(s), len(buff))] cells. [numpy]
    (the releases for Python 2, in which the module is written) first
    compares the lengths: a list of another length than the target is
    refused with [ValueError], "cannot copy sequence with size ... to array
    axis with dimension ...", unless it has one element, which is broadcast
    over the target, here empty. Then the elements are converted and stored
    one after the other, and the first that the element type cannot take
    raises [OverflowError]. (Later releases convert the list before they
    compare the shapes; the outcome differs only for a list longer than the
    buffer, which the constructor never assigns: see [place_sorted].) *)
Definition assign_prefix (buff : list elt) (s : list Z) : exn + list elt :=
  if decide (length s ≤ length buff)%nat then
    if forallb storable s
    then inr ((astype <$> s) ++ drop (length s) buff)
    else inl OverflowError
  else if decide (length s = 1%nat) then inr buff
  else inl ValueError.

(** Lines 98-99: the padded buffer for the sentence [s] in a bucket of
    width [w]. *)
Definition padded (w : Z) (invalid_label : Z) (s : list Z) : exn + list elt :=
  match np_full w invalid_label with
  | inl e => inl e
  | inr buff => assign_prefix buff s
  end.

(** Lines 94-100: the body of the loop over the sentences. [rows] is
    [self.data] while it still holds Python lists. *)
Definition place (buckets : list Z) (invalid_label : Z)
    (st : list (list (list elt)) * Z) (s : list Z)
  : exn + list (list (list elt)) * Z :=
  let '(rows, ndiscard) := st in
  let buck := bisect_left buckets (Z.of_nat (length s)) in
  if decide (buck = length buckets) then inr (rows, ndiscard + 1)
  else
    match buckets !! buck with
    | None => inl IndexError
    | Some w =>
        match padded w invalid_label s with
        | inl e => inl e
        | inr buff => inr (alter (λ r, r ++ [buff]) buck rows, ndiscard)
        end
    end.

(** Lines 91-100. *)
Fixpoint place_all (buckets : list Z) (invalid_label : Z)
    (st : list (list (list elt)) * Z) (sentences : list (list Z))
  : exn + list (list (list elt)) * Z :=
  match sentences with
  | [] => inr st
  | s :: rest =>
      match place buckets invalid_label st s with
      | inl e => inl e
      | inr st' => place_all buckets invalid_label st' rest
      end
  end.

Definition fill_buckets (buckets : list Z) (invalid_label : Z)
    (sentences : list (list Z)) : exn + list (list (list elt)) * Z :=
  place_all buckets invalid_label (replicate (length buckets) [], 0) sentences.

(** Lines 118-120: the index table. *)
Fixpoint index_from (i : nat) (data : list ndarray) (batch_size : Z)
  : exn + list (nat * Z) :=
  match data with
  | [] => inr []
  | buck :: rest =>
      match py_range 0 (Z.of_nat (alen buck) - batch_size + 1) batch_size with
      | inl e => inl e
      | inr js =>
          match index_from (S i) rest batch_size with
          | inl e => inl e
          | inr tl => inr (((λ j, (i, j)) <$> js) ++ tl)
          end
      end
  end.

Definition build_index (data : list ndarray) (batch_size : Z)
  : exn + list (nat * Z) := index_from 0 data batch_size.

(** The attributes of an iterator. [buckets] is a reference: the list is
    the caller's when one was supplied. *)
Record iter := {
  data : list ndarray;
  idx : list (nat * Z);
  curr_idx : nat;
  batch_size : Z;
  buckets : loc;
  default_bucket_key : Z;
  provide_data : list (string * (Z * Z));
  provide_label : list (string * (Z * Z));
  data_name : string;
  label_name : string;
  invalid_label : Z
}.

(** A batch as [DataBatch] receives it. *)
Record batch := {
  b_data : ndarray;
  b_label : ndarray;
  bucket_key : Z;
  b_provide_data : list (string * list nat);
  b_provide_label : list (string * list nat)
}.

(** Lines 86-89: the bucket list the constructor works with, sorted in
    place. [arg] is the [buckets] argument: [None], or a reference to the
    caller's list. The result is the reference the constructor keeps, the
    content of that list and the new store. A reference to nothing cannot
    be passed by a Python caller; it is refused with [TypeError]. *)
Definition derive_buckets (sentences : list (list Z)) (batch_size : Z)
  : list Z :=
  (λ p, Z.of_nat p.1) <$>
    filter (λ p, batch_size ≤ Z.of_nat p.2)
      (imap (λ i j, (i, j)) (bincount (length <$> sentences))).

Definition bind_buckets (h : heap) (arg : option loc)
    (sentences : list (list Z)) (batch_size : Z)
  : exn + loc * list Z * heap :=
  let derived :=
    let '(l, h') := alloc h (derive_buckets sentences batch_size) in
    inr (l, py_sort (derive_buckets sentences batch_size),
         <[l := py_sort (derive_buckets sentences batch_size)]> h') in
  match arg with
  | None => derived
  | Some l =>
      match h !! l with
      | None => inl TypeError
      | Some [] => derived
      | Some (b :: bl) => inr (l, py_sort (b :: bl), <[l := py_sort (b :: bl)]> h)
      end
  end.

(** [BucketSentenceIter(sentences, batch_size, invalid_label, dtype,
    buckets, data_name, label_name)], run in the store [h]. The result is
    what was printed, the exception raised or the iterator built, and the
    store when the call ends. *)
Definition init (h : heap) (sentences : list (list Z)) (batch_size : Z)
    (invalid_label : Z) (arg : option loc) (data_name label_name : string)
  : list printed * (exn + iter) * heap :=
  match bind_buckets h arg sentences batch_size with
  | inl e => ([], inl e, h)
  | inr (l, bl, h1) =>
      match fill_buckets bl invalid_label sentences with
      | inl e => ([], inl e, h1)
      | inr (rows, ndiscard) =>
          let data := asarray <$> rows in
          let out := [Discarded ndiscard] in
          match py_max bl with
          | inl e => (out, inl e, h1)
          | inr key =>
              match build_index data batch_size with
              | inl e => (out, inl e, h1)
              | inr table =>
                  (out,
                   inr {| data := data;
                          idx := table;
                          curr_idx := 0;
                          batch_size := batch_size;
                          buckets := l;
                          default_bucket_key := key;
                          provide_data := [(data_name, (batch_size, key))];
                          provide_label := [(label_name, (batch_size, key))];
                          data_name := data_name;
                          label_name := label_name;
                          invalid_label := invalid_label |},
                   h1)
              end
          end
      end
  end.

(** Lines 126-127: [np.random.shuffle] on every bucket, one after the other
    on the same generator. *)
Fixpoint shuffle_all (g : gen) (arrays : list ndarray) : list ndarray * gen :=
  match arrays with
  | [] => ([], g)
  | a :: rest =>
      let '(a', g1) := np_shuffle g a in
      let '(rest', g2) := shuffle_all g1 rest in
      (a' :: rest', g2)
  end.

(** [reset()]. [g_py] is the generator of the module [random], [g_np] the
    one of [np.random]; both are returned as the call leaves them. *)
Definition reset (g_py g_np : gen) (it : iter) : iter * gen * gen :=
  let '(table, g_py') := shuffle g_py (idx it) in
  let '(arrays, g_np') := shuffle_all g_np (data it) in
  ({| data := arrays;
      idx := table;
      curr_idx := 0;
      batch_size := batch_size it;
      buckets := buckets it;
      default_bucket_key := default_bucket_key it;
      provide_data := provide_data it;
      provide_label := provide_label it;
      data_name := data_name it;
      label_name := label_name it;
      invalid_label := invalid_label it |}, g_py', g_np').

(** Lines 136-138: the label of a slice [d]. [label[:, :-1] = data[:, 1:]]
    overwrites all but the last cell of each row; [label[:, -1] = ...]
    needs a second axis that is not empty. *)
Definition shift_row (lrow drow : list elt) : list elt :=
  drop 1 drow ++ drop (length (drop 1 drow)) lrow.

Definition make_label (d : ndarray) (invalid_label : Z) : exn + ndarray :=
  match d with
  | Arr1 _ => inl IndexError
  | Arr2 w rows =>
      let label0 := imap (λ r _, uninit r <$> seq 0 w) rows in
      let label1 := zip_with shift_row label0 rows in
      if decide (w = 0%nat) then inl IndexError
      else inr (Arr2 w ((λ row, <[pred w := astype invalid_label]> row) <$> label1))
  end.

(** What a call of [next()] does: [StopIteration], another exception, or a
    batch. *)
Inductive outcome :=
| Stop
| Raised (e : exn)
| Emitted (b : batch).

Definition advance (it : iter) : iter :=
  {| data := data it;
     idx := idx it;
     curr_idx := S (curr_idx it);
     batch_size := batch_size it;
     buckets := buckets it;
     default_bucket_key := default_bucket_key it;
     provide_data := provide_data it;
     provide_label := provide_label it;
     data_name := data_name it;
     label_name := label_name it;
     invalid_label := invalid_label it |}.

(** [next()], in the store [h]. *)
Definition next (h : heap) (it : iter) : outcome * iter :=
  if decide (curr_idx it = length (idx it)) then (Stop, it)
  else
    match idx it !! curr_idx it with
    | None => (Raised IndexError, it)
    | Some (i, j) =>
        let it' := advance it in
        match data it !! i with
        | None => (Raised IndexError, it')
        | Some a =>
            let d := aslice a j (j + batch_size it) in
            match make_label d (invalid_label it) with
            | inl e => (Raised e, it')
            | inr label =>
                match h !! buckets it ≫= (.!! i) with
                | None => (Raised IndexError, it')
                | Some key =>
                    (Emitted {| b_data := d;
                                b_label := label;
                                bucket_key := key;
                                b_provide_data := [(data_name it, shape d)];
                                b_provide_label := [(label_name it, shape label)] |},
                     it')
                end
            end
        end
    end.

(** A caller's use of an iterator: calls of [reset] (each with the state of
    the two generators at that moment) and of [next]. *)
Inductive call :=
| CallReset (g_py g_np : gen)
| CallNext.

Definition step (h : heap) (it : iter) (c : call) : iter :=
  match c with
  | CallReset g_py g_np => (reset g_py g_np it).1.1
  | CallNext => (next h it).2
  end.

Definition run (h : heap) (it : iter) (calls : list call) : iter :=
  foldl (step h) it calls.

(** The outcomes of [n] calls of [next()] in a row. *)
Fixpoint next_n (n : nat) (h : heap) (it : iter) : list outcome :=
  match n with
  | O => []
  | S n' => let '(o, it') := next h it in o :: next_n n' h it'
  end.

End Dtype.

Arguments ndarray : clear implicits.
Arguments iter : clear implicits.
Arguments batch : clear implicits.
Arguments outcome : clear implicits.

End BucketIter.

(** * Part III: notions used in the statements *)

Module Notions.
Import Encoder.

(** [w] is the first token of [ws] that the dictionary [v] lacks. *)
Definition first_absent (v : gmap string Z) (ws : list string) (w : string)
  : Prop :=
  ∃ pre post, ws = pre ++ w :: post ∧
    Forall (λ x, is_Some (v !! x)) pre ∧ v !! w = None.

(** No two keys of [v] share an index. *)
Definition injective_vocab (v : gmap string Z) : Prop :=
  ∀ w1 w2 c, v !! w1 = Some c → v !! w2 = Some c → w1 = w2.

(** What the open-vocabulary loop maintains: the reserved entry is there,
    every other index differs from [invalid_label] and is below the
    counter, and the dictionary is injective. *)
Definition enc_inv (invalid_label : Z) (invalid_key : string)
    (s : enc_state) : Prop :=
  vocab s !! invalid_key = Some invalid_label ∧
  (∀ w c, vocab s !! w = Some c → w ≠ invalid_key →
          c ≠ invalid_label ∧ c < idx s) ∧
  injective_vocab (vocab s).

End Notions.

Module IterNotions.
Import BucketIter.

(** [len(s)] as the integer compared with the bucket widths. *)
Definition len {A} (s : list A) : Z := Z.of_nat (length s).

(** Bucket [b], of width [w], is the smallest bucket of [bl] that is at
    least [n] wide (the leftmost one among equals). *)
Definition smallest_fitting (bl : list Z) (n : Z) (b : nat) (w : Z) : Prop :=
  bl !! b = Some w ∧ n ≤ w ∧
  ∀ b' w', bl !! b' = Some w' → n ≤ w' → (b ≤ b')%nat ∧ w ≤ w'.

(** The position of the first bucket of [bl] that is at least [n] wide, if
    there is one: in an ascending list, the smallest such bucket. *)
Definition smallest_bucket (bl : list Z) (n : Z) : option nat :=
  fst <$> list_find (λ w, n ≤ w) bl.

(** [numpy] accepts the buffer of a bucket of width [w] for the sentence
    [s]: the width is within the largest extent, the padding value can be
    stored when the buffer has a cell, and so can every cell of [s]. *)
Definition within_limits {limits : Limits} (w invalid : Z) (s : list Z)
  : Prop :=
  w ≤ max_dim ∧ (0 < w → storable invalid = true) ∧
  Forall (λ c, storable c = true) s.

(** Every multiple of [bs] from 0 up to [hi] inclusive, ascending. *)
Definition multiples_upto (bs hi : Z) : list Z :=
  filter (λ j, j mod bs = 0) (Z.of_nat <$> seq 0 (Z.to_nat (hi + 1))).

(** The number of sentences of length [L]. *)
Definition count_len (sentences : list (list Z)) (L : Z) : Z :=
  len (filter (λ s, len s = L) sentences).

(** The distinct sentence lengths, ascending, that at least [bs] sentences
    have. *)
Definition frequent_lengths (sentences : list (list Z)) (bs : Z) : list Z :=
  filter (λ L, bs ≤ count_len sentences L)
    (merge_sort Z.le (remove_dups (len <$> sentences))).

(** The same, keeping the positive lengths only. *)
Definition positive_frequent_lengths (sentences : list (list Z)) (bs : Z)
  : list Z :=
  filter (λ L, 0 < L) (frequent_lengths sentences bs).

Section Arrays.
Context {elt : Type} (astype : Z → elt).

(** The sentence [s] right-padded with [invalid_label] to the width [w]. *)
Definition row_of (w : Z) (invalid_label : Z) (s : list Z) : list elt :=
  (astype <$> s) ++ replicate (Z.to_nat w - length s) (astype invalid_label).

(** The rows of bucket [b], of width [w]: the sentences that bisection
    sends to [b], padded, in the order of the input. *)
Definition bucket_rows (bl : list Z) (invalid_label : Z)
    (sentences : list (list Z)) (b : nat) (w : Z) : list (list elt) :=
  row_of w invalid_label <$>
    filter (λ s, bisect_left bl (len s) = b) sentences.

(** The index table as described: bucket after bucket, for each bucket the
    multiples of [bs] from 0 up to (row count - [bs]). *)
Definition index_spec (bs : Z) (data : list (ndarray elt)) : list (nat * Z) :=
  concat (imap (λ i a, (λ j, (i, j)) <$>
                        multiples_upto bs (Z.of_nat (alen a) - bs)) data).

(** The sum over the buckets of [floor(row count / bs)]. *)
Definition epoch_size (bs : Z) (data : list (ndarray elt)) : Z :=
  foldr Z.add 0 ((λ a, Z.of_nat (alen a) / bs) <$> data).

(** [a'] holds the rows of [a] in some order, with the same axes. *)
Definition row_permuted (a a' : ndarray elt) : Prop :=
  match a, a' with
  | Arr1 c, Arr1 c' => c ≡ₚ c'
  | Arr2 w r, Arr2 w' r' => w = w' ∧ r ≡ₚ r'
  | _, _ => False
  end.

(** A two-axis array is rectangular; a one-axis array, which the class only
    makes of an empty bucket, is empty. *)
Definition wf_array (a : ndarray elt) : Prop :=
  match a with
  | Arr1 c => c = []
  | Arr2 w r => Forall (λ row, length row = w) r
  end.

(** A bucket of width 0 holds fewer than [bs] rows. *)
Definition zero_width_small (bs : Z) (a : ndarray elt) : Prop :=
  match a with
  | Arr2 O r => Z.of_nat (length r) < bs
  | _ => True
  end.

(** The arrays of the iterator are well formed and its padding value is
    [invalid]. *)
Definition shaped (invalid : Z) (it : iter elt) : Prop :=
  Forall wf_array (data it) ∧ invalid_label it = invalid.

(** What holds of an iterator from its construction on, in the store [h]
    the constructor left, for a positive batch size [bs]: the arrays are
    well formed, there is one bucket width per array, every entry of the
    index table designates [bs] rows of an array, the table has as many
    entries as the buckets hold full batches, and the cursor is within the
    table. *)
Definition ready (h : heap) (bs invalid : Z) (it : iter elt) : Prop :=
  batch_size it = bs ∧ invalid_label it = invalid ∧ 0 < bs ∧
  Forall wf_array (data it) ∧
  (∃ bl, h !! buckets it = Some bl ∧ length bl = length (data it)) ∧
  (∀ i j, (i, j) ∈ idx it →
     ∃ a, data it !! i = Some a ∧ 0 ≤ j ∧ j + bs ≤ Z.of_nat (alen a)) ∧
  Z.of_nat (length (idx it)) = epoch_size bs (data it) ∧
  (curr_idx it ≤ length (idx it))%nat.

(** The outcome is a batch. *)
Definition is_emitted (o : outcome elt) : Prop :=
  match o with Emitted _ => True | _ => False end.

#[global] Instance is_emitted_dec (o : outcome elt) : Decision (is_emitted o).
Proof. destruct o; simpl; apply _. Defined.

(** The number of batches among the outcomes. *)
Definition successes (outs : list (outcome elt)) : nat :=
  length (filter is_emitted outs).

End Arrays.

End IterNotions.

Module MoreNotions.
Import Notions BucketIter IterNotions.

(** The tokens of [ws] that are not in [seen], each once, in the order of
    their first occurrence. *)
Fixpoint new_tokens (seen : gset string) (ws : list string) : list string :=
  match ws with
  | [] => []
  | w :: ws' =>
      if decide (w ∈ seen) then new_tokens seen ws'
      else w :: new_tokens ({[w]} ∪ seen) ws'
  end.

(** The value of the counter after [k] allocations, and the index that the
    allocation number [k] (from 0) receives: the integers from [start] on,
    without [invalid]. *)
Definition next_index (start invalid : Z) (k : nat) : Z :=
  if decide (start ≤ invalid < start + Z.of_nat k)
  then start + Z.of_nat k + 1 else start + Z.of_nat k.

Definition nth_index (start invalid : Z) (k : nat) : Z :=
  if decide (start ≤ invalid ≤ start + Z.of_nat k)
  then start + Z.of_nat k + 1 else start + Z.of_nat k.

(** What the open-vocabulary loop maintains about the allocation: [news]
    are the tokens added so far, in order; the dictionary holds the
    reserved entry and them, each with the index of its rank. *)
Definition alloc_inv (start invalid : Z) (key : string)
    (news : list string) (s : Encoder.enc_state) : Prop :=
  Encoder.vocab s !! key = Some invalid ∧
  dom (Encoder.vocab s) = {[key]} ∪ list_to_set news ∧
  NoDup news ∧ (key ∉ news) ∧
  (∀ k w, news !! k = Some w →
          Encoder.vocab s !! w = Some (nth_index start invalid k)) ∧
  Encoder.idx s = next_index start invalid (length news).

Section Arrays.
Context {elt : Type}.

(** The number of rows held by all the buckets. *)
Definition total_rows (data : list (ndarray elt)) : Z :=
  foldr Z.add 0 ((λ a, Z.of_nat (alen a)) <$> data).

(** Every two-axis array has as many columns as its bucket is wide. *)
Definition keyed (bl : list Z) (data : list (ndarray elt)) : Prop :=
  Forall2 (λ w a, match a with
                  | Arr2 n _ => Z.of_nat n = w
                  | Arr1 _ => True
                  end) bl data.

(** The batch [b] with another key. *)
Definition with_key (b : batch elt) (key : Z) : batch elt :=
  {| b_data := b_data b;
     b_label := b_label b;
     bucket_key := key;
     b_provide_data := b_provide_data b;
     b_provide_label := b_provide_label b |}.

(** Every row of every bucket is a sentence of the input, padded to the
    number of columns of its array. *)
Definition sourced (astype : Z → elt) (sentences : list (list Z))
    (invalid : Z) (data : list (ndarray elt)) : Prop :=
  Forall (λ a, match a with
               | Arr1 c => c = []
               | Arr2 n rows =>
                   Forall (λ row, ∃ s, s ∈ sentences ∧ len s ≤ Z.of_nat n ∧
                                       row = row_of astype (Z.of_nat n) invalid s)
                     rows
               end) data.

(** [it'] holds what [it] holds: the rows of every bucket and the entries
    of the index table, in some order, and the same other attributes but
    for the cursor. *)
Definition same_contents (it it' : iter elt) : Prop :=
  Forall2 row_permuted (data it) (data it') ∧
  idx it ≡ₚ idx it' ∧
  batch_size it' = batch_size it ∧
  buckets it' = buckets it ∧
  default_bucket_key it' = default_bucket_key it ∧
  provide_data it' = provide_data it ∧
  provide_label it' = provide_label it ∧
  data_name it' = data_name it ∧
  label_name it' = label_name it ∧
  invalid_label it' = invalid_label it.

End Arrays.

End MoreNotions.

(** * Part IV: properties of [encode_sentences] *)

Module EncoderFacts.
Import Encoder Notions.

Lemma encode_word_open invalid_label invalid_key w s :
  enc_inv invalid_label invalid_key s →
  ∃ c s', encode_word true invalid_label w s = (inr c, s') ∧
    enc_inv invalid_label invalid_key s' ∧
    vocab s ⊆ vocab s' ∧ vocab s' !! w = Some c.
Proof.
  intros (Hkey & Hother & Hinj).
  unfold encode_word, bind, get_vocab, when, load. simpl.
  destruct (vocab s !! w) as [c|] eqn:Hw.
  - rewrite bool_decide_eq_false_2 by congruence. simpl. rewrite Hw.
    exists c, s. split; [done|]. split; [done|]. split; [done|]. done.
  - rewrite bool_decide_eq_true_2 by done. simpl.
    set (i1 := if bool_decide (idx s = invalid_label) then idx s + 1 else idx s).
    assert (Hi1 : i1 ≠ invalid_label ∧ idx s ≤ i1).
    { unfold i1. case_bool_decide; lia. }
    assert (Hne : w ≠ invalid_key) by (intros ->; congruence).
    assert (Hrun : (if bool_decide (idx s = invalid_label)
                    then set_idx (idx s + 1) else ret tt) s
                   = (inr tt, {| vocab := vocab s; idx := i1 |})).
    { unfold i1. case_bool_decide; [done|]. by destruct s. }
    rewrite Hrun. simpl. rewrite lookup_insert_eq.
    clear Hrun. clearbody i1. destruct Hi1 as [Hi1 Hle].
    eexists _, _. split; [reflexivity|]. unfold enc_inv. simpl.
    split; [|split; [by apply insert_subseteq | by rewrite lookup_insert_eq]].
    split; [by rewrite lookup_insert_ne|]. split.
    + intros w' c'. rewrite lookup_insert.
      destruct (decide (w = w')) as [->|Hww].
      * intros [= Hc] _. lia.
      * intros Hw' Hk. destruct (Hother _ _ Hw' Hk). lia.
    + intros w1 w2 c'. rewrite !lookup_insert.
      destruct (decide (w = w1)) as [->|H1], (decide (w1 = w2)) as [->|H2];
        try done.
      * intros [= Hc] Hl.
        destruct (decide (w2 = invalid_key)) as [->|Hk]; [congruence|].
        destruct (Hother _ _ Hl Hk). lia.
      * destruct (decide (w = w2)) as [->|H3]; [|apply Hinj].
        intros Hl [= Hc].
        destruct (decide (w1 = invalid_key)) as [->|Hk]; [congruence|].
        destruct (Hother _ _ Hl Hk). lia.
Qed.

Lemma for_each_cons {A B} (body : A → M B) x l s :
  for_each body (x :: l) s =
    match body x s with
    | (inl e, s1) => (inl e, s1)
    | (inr y, s1) =>
        match for_each body l s1 with
        | (inl e, s2) => (inl e, s2)
        | (inr ys, s2) => (inr (y :: ys), s2)
        end
    end.
Proof.
  simpl. unfold bind. destruct (body x s) as [[e|y] s1]; [done|].
  by destruct (for_each body l s1) as [[e|ys] s2].
Qed.

(** A loop whose body always succeeds, keeps [I] and only adds entries:
    so does the loop, and what is known of each element when it is
    processed ([R], stable under additions) holds at the end. *)
Lemma for_each_open {A B} (body : A → M B) (I : enc_state → Prop)
    (R : A → B → gmap string Z → Prop) :
  (∀ a b v v', R a b v → v ⊆ v' → R a b v') →
  (∀ a s, I s → ∃ b s', body a s = (inr b, s') ∧ I s' ∧
                 vocab s ⊆ vocab s' ∧ R a b (vocab s')) →
  ∀ l s, I s → ∃ bs s', for_each body l s = (inr bs, s') ∧ I s' ∧
                 vocab s ⊆ vocab s' ∧ Forall2 (λ a b, R a b (vocab s')) l bs.
Proof.
  intros Hstable Hbody l. induction l as [|a l IH]; intros s Hs.
  - exists [], s. by repeat split.
  - destruct (Hbody a s Hs) as (b & s1 & Hb & Hs1 & Hsub1 & Hr).
    destruct (IH s1 Hs1) as (bs & s2 & Hl & Hs2 & Hsub2 & Hrs).
    exists (b :: bs), s2. rewrite for_each_cons, Hb, Hl.
    split; [done|]. split; [done|]. split; [by etrans|].
    constructor; [by eapply Hstable|done].
Qed.

Lemma encode_loop_open invalid_label invalid_key sentences s :
  enc_inv invalid_label invalid_key s →
  ∃ res s', encode_loop true invalid_label sentences s = (inr res, s') ∧
    enc_inv invalid_label invalid_key s' ∧ vocab s ⊆ vocab s' ∧
    Forall2 (Forall2 (λ w c, vocab s' !! w = Some c)) sentences res.
Proof.
  intros Hs. unfold encode_loop.
  apply (for_each_open _ (enc_inv invalid_label invalid_key)
           (λ ws cs v, Forall2 (λ w c, v !! w = Some c) ws cs)); [| |done].
  - intros ws cs v v' Hf Hsub. eapply Forall2_impl; [exact Hf|].
    intros w c Hw. exact (lookup_weaken _ _ _ _ Hw Hsub).
  - intros ws s0 Hs0.
    apply (for_each_open _ (enc_inv invalid_label invalid_key)
             (λ w c v, v !! w = Some c)); [| |done].
    + intros w c v v' Hw Hsub. exact (lookup_weaken _ _ _ _ Hw Hsub).
    + intros w s1 Hs1. by apply encode_word_open.
Qed.

Lemma enc_inv_initial invalid_label invalid_key start_label :
  enc_inv invalid_label invalid_key
    {| vocab := {[ invalid_key := invalid_label ]}; idx := start_label |}.
Proof.
  split; [|split]; simpl.
  - apply lookup_singleton_eq.
  - intros w c Hw Hne. apply lookup_singleton_Some in Hw as [-> _]. done.
  - intros w1 w2 c H1 H2.
    apply lookup_singleton_Some in H1 as [<- _].
    by apply lookup_singleton_Some in H2 as [<- _].
Qed.

(** With [vocab=None] the call returns, and the dictionary it returns
    satisfies the loop invariant and holds the code of every token. *)
Lemma encode_sentences_open sentences invalid_label invalid_key start_label :
  ∃ res v i,
    encode_sentences sentences None invalid_label invalid_key start_label
      = (inr (res, v), v) ∧
    enc_inv invalid_label invalid_key {| vocab := v; idx := i |} ∧
    Forall2 (Forall2 (λ w c, v !! w = Some c)) sentences res.
Proof.
  destruct (encode_loop_open invalid_label invalid_key sentences _
              (enc_inv_initial invalid_label invalid_key start_label))
    as (res & [v i] & Hrun & Hinv & _ & Hres).
  exists res, v, i. unfold encode_sentences. rewrite Hrun. done.
Qed.

Lemma decode_lookup v w c :
  injective_vocab v → v !! w = Some c → decode v c = Some w.
Proof.
  intros Hinj Hw. unfold decode.
  assert (Hin : (w, c) ∈ filter (λ kv : string * Z, kv.2 = c) (map_to_list v)).
  { apply list_elem_of_filter. split; [done|]. by apply elem_of_map_to_list. }
  destruct (filter _ (map_to_list v)) as [|[w' c'] l] eqn:Hf.
  - by apply not_elem_of_nil in Hin.
  - simpl. f_equal.
    assert (Hhd : (w', c') ∈ filter (λ kv : string * Z, kv.2 = c) (map_to_list v)).
    { rewrite Hf. left. }
    apply list_elem_of_filter in Hhd as [Hc Hv]. simpl in Hc. subst c'.
    apply elem_of_map_to_list in Hv. by eapply Hinj.
Qed.

Lemma encode_word_closed invalid_label w s :
  encode_word false invalid_label w s =
    match vocab s !! w with
    | Some c => (inr c, s)
    | None => (inl (AssertionError ("Unknow token " +:+ w)), s)
    end.
Proof.
  unfold encode_word, bind, get_vocab, when, load. simpl.
  destruct (vocab s !! w) as [c|] eqn:Hw.
  - rewrite bool_decide_eq_false_2 by congruence. simpl. by rewrite Hw.
  - by rewrite bool_decide_eq_true_2.
Qed.

Lemma first_absent_app_l v ws rest w :
  first_absent v ws w → first_absent v (ws ++ rest) w.
Proof.
  intros (pre & post & -> & Hpre & Hw).
  exists pre, (post ++ rest). by rewrite <- app_assoc.
Qed.

Lemma first_absent_app_r v ws rest w :
  Forall (λ x, is_Some (v !! x)) ws →
  first_absent v rest w → first_absent v (ws ++ rest) w.
Proof.
  intros Hws (pre & post & -> & Hpre & Hw).
  exists (ws ++ pre), post. rewrite <- app_assoc.
  split; [done|]. split; [by apply Forall_app|done].
Qed.

(** The inner loop on a supplied dictionary: it changes nothing, and either
    codes every token or stops at the first one that is missing. *)
Lemma encode_sentence_closed invalid_label ws s :
  (Forall (λ w, is_Some (vocab s !! w)) ws ∧
   ∃ cs, for_each (encode_word false invalid_label) ws s = (inr cs, s) ∧
         Forall2 (λ w c, vocab s !! w = Some c) ws cs) ∨
  (∃ w, first_absent (vocab s) ws w ∧
        for_each (encode_word false invalid_label) ws s
          = (inl (AssertionError ("Unknow token " +:+ w)), s)).
Proof.
  induction ws as [|w ws IH].
  - left. split; [constructor|]. exists []. by split; [|constructor].
  - rewrite for_each_cons, encode_word_closed.
    destruct (vocab s !! w) as [c|] eqn:Hw.
    + destruct IH as [(Hall & cs & Hrun & Hcs)|(w' & Hfirst & Hrun)].
      * left. split; [constructor; eauto|].
        exists (c :: cs). rewrite Hrun. split; [done|].
        by constructor.
      * right. exists w'. split.
        -- apply (first_absent_app_r _ [w]); [|done]. constructor; eauto.
        -- by rewrite Hrun.
    + right. exists w. split; [|done]. by exists [], ws.
Qed.

Lemma encode_loop_closed invalid_label sentences s :
  (Forall (λ w, is_Some (vocab s !! w)) (concat sentences) ∧
   ∃ res, encode_loop false invalid_label sentences s = (inr res, s) ∧
          Forall2 (Forall2 (λ w c, vocab s !! w = Some c)) sentences res) ∨
  (∃ w, first_absent (vocab s) (concat sentences) w ∧
        encode_loop false invalid_label sentences s
          = (inl (AssertionError ("Unknow token " +:+ w)), s)).
Proof.
  unfold encode_loop. induction sentences as [|ws sentences IH].
  - left. split; [constructor|]. exists []. by split; [|constructor].
  - rewrite for_each_cons.
    destruct (encode_sentence_closed invalid_label ws s)
      as [(Hall & cs & Hrun & Hcs)|(w & Hfirst & Hrun)]; rewrite Hrun.
    + destruct IH as [(Hall' & res & Hrun' & Hres)|(w' & Hfirst' & Hrun')].
      * left. split; [by apply Forall_app|].
        exists (cs :: res). rewrite Hrun'. split; [done|].
        by constructor.
      * right. exists w'. split; [by apply first_absent_app_r|].
        by rewrite Hrun'.
    + right. exists w. split; [by apply first_absent_app_l|done].
Qed.

Lemma first_absent_not_all v ws w :
  first_absent v ws w → Forall (λ x, is_Some (v !! x)) ws → False.
Proof.
  intros (pre & post & -> & _ & Hw) Hall.
  apply Forall_app in Hall as [_ Hall]. apply Forall_cons in Hall as [[c Hc] _].
  congruence.
Qed.

(** C5. With [vocab=None], whatever [start_label] and [invalid_label] are,
    the call returns a dictionary in which [invalid_key] maps to
    [invalid_label] and no other key does; hence a position of the result
    holds [invalid_label] only where the input holds [invalid_key]. *)
Theorem encode_reserves_invalid_label
    sentences invalid_label invalid_key start_label :
  ∃ res v,
    encode_sentences sentences None invalid_label invalid_key start_label
      = (inr (res, v), v) ∧
    v !! invalid_key = Some invalid_label ∧
    (∀ w, v !! w = Some invalid_label → w = invalid_key) ∧
    Forall2 (Forall2 (λ w c, v !! w = Some c ∧
                             (c = invalid_label → w = invalid_key)))
      sentences res.
Proof.
  destruct (encode_sentences_open sentences invalid_label invalid_key
              start_label) as (res & v & i & Hrun & (Hkey & Hother & _) & Hres).
  simpl in *.
  assert (Honly : ∀ w, v !! w = Some invalid_label → w = invalid_key).
  { intros w Hw. destruct (decide (w = invalid_key)) as [|Hne]; [done|].
    by destruct (Hother _ _ Hw Hne). }
  exists res, v. repeat split; try done.
  eapply Forall2_impl; [exact Hres|]. intros ws cs Hws.
  eapply Forall2_impl; [exact Hws|]. intros w c Hw. simpl in Hw.
  split; [done|]. intros ->. by apply Honly.
Qed.

(** C7. With a supplied dictionary [v0]: if some token is missing from it,
    the call raises the assertion error whose message names the first
    missing token and the dictionary still is [v0]; if none is missing, the
    call returns the codes read from [v0], and [v0] itself. *)
Theorem encode_closed_vocabulary
    sentences v0 invalid_label invalid_key start_label :
  ((∃ w, w ∈ concat sentences ∧ v0 !! w = None) →
   ∃ w, first_absent v0 (concat sentences) w ∧
     encode_sentences sentences (Some v0) invalid_label invalid_key start_label
       = (inl (AssertionError ("Unknow token " +:+ w)), v0)) ∧
  ((∀ w, w ∈ concat sentences → is_Some (v0 !! w)) →
   ∃ res,
     encode_sentences sentences (Some v0) invalid_label invalid_key start_label
       = (inr (res, v0), v0) ∧
     Forall2 (Forall2 (λ w c, v0 !! w = Some c)) sentences res).
Proof.
  unfold encode_sentences.
  destruct (encode_loop_closed invalid_label sentences
              {| vocab := v0; idx := start_label |})
    as [(Hall & res & Hrun & Hres)|(w & Hfirst & Hrun)];
    rewrite Hrun; simpl in *.
  - split.
    + intros (w & Hin & Hw). rewrite Forall_forall in Hall.
      destruct (Hall w Hin) as [c Hc]. congruence.
    + intros _. by exists res.
  - split.
    + intros _. by exists w.
    + intros Hall. exfalso. eapply first_absent_not_all; [exact Hfirst|].
      by apply Forall_forall.
Qed.

(** C8. With [vocab=None] the call returns a dictionary that is injective,
    and decoding every code of the result through its inverse gives back
    the sentences, token for token. *)
Theorem encode_decode_roundtrip
    (sentences : list (list string)) invalid_label invalid_key start_label :
  ∃ res v,
    encode_sentences sentences None invalid_label invalid_key start_label
      = (inr (res, v), v) ∧
    injective_vocab v ∧
    (λ cs : list Z, decode v <$> cs) <$> res
      = (λ ws : list string, Some <$> ws) <$> sentences.
Proof.
  destruct (encode_sentences_open sentences invalid_label invalid_key
              start_label) as (res & v & i & Hrun & (_ & _ & Hinj) & Hres).
  simpl in *. exists res, v. split; [done|]. split; [done|].
  clear Hrun. induction Hres as [|ws cs sentences res Hws _ IH]; [done|].
  simpl. f_equal; [|exact IH].
  induction Hws as [|w c ws cs Hw _ IHw]; [done|].
  simpl. f_equal; [|exact IHw]. by apply decode_lookup.
Qed.

Lemma encode_closed_vocabulary_witness :
  (∃ w, first_absent {[ "a" := 5 ]} (concat [["a"; "b"]; ["c"]]) w ∧
     encode_sentences [["a"; "b"]; ["c"]] (Some {[ "a" := 5 ]}) (-1) "eos" 0
       = (inl (AssertionError ("Unknow token " +:+ w)), {[ "a" := 5 ]})) ∧
  (∃ res,
     encode_sentences [["a"; "a"]; []] (Some {[ "a" := 5 ]}) (-1) "eos" 0
       = (inr (res, {[ "a" := 5 ]}), {[ "a" := 5 ]}) ∧
     Forall2 (Forall2 (λ w c, ({[ "a" := 5 ]} : gmap string Z) !! w = Some c))
       [["a"; "a"]; []] res).
Proof.
  split.
  - apply (proj1 (encode_closed_vocabulary [["a"; "b"]; ["c"]] {[ "a" := 5 ]}
                    (-1) "eos" 0)).
    exists "b". split; [|vm_compute; reflexivity].
    simpl. right. left.
  - apply (proj2 (encode_closed_vocabulary [["a"; "a"]; []] {[ "a" := 5 ]}
                    (-1) "eos" 0)).
    intros w Hw. simpl in Hw.
    assert (w = "a") as ->.
    { inversion Hw as [|? ? ? Hw']; subst; [done|].
      inversion Hw' as [|? ? ? Hw'']; subst; [done|]. inversion Hw''. }
    exists 5. vm_compute. reflexivity.
Defined.

End EncoderFacts.

(** * Part V: properties of [BucketSentenceIter] *)

Module IterFacts.
Import BucketIter IterNotions.

(** ** Sorted lists and [bisect_left] *)

Lemma sorted_lookup_le (a : list Z) i j wi wj :
  StronglySorted Z.le a → (i ≤ j)%nat →
  a !! i = Some wi → a !! j = Some wj → wi ≤ wj.
Proof.
  intros Hs. revert i j. induction Hs as [|x a Hs IH Hx]; intros i j Hij Hi Hj.
  - done.
  - destruct i as [|i], j as [|j]; simpl in *.
    + injection Hi as <-. injection Hj as <-. lia.
    + injection Hi as <-. rewrite Forall_forall in Hx. apply Hx.
      by eapply list_elem_of_lookup_2.
    + lia.
    + eapply IH; [|done..]. lia.
Qed.

Lemma py_sort_sorted l : StronglySorted Z.le (py_sort l).
Proof. apply (StronglySorted_merge_sort Z.le). Qed.

Lemma py_sort_perm l : py_sort l ≡ₚ l.
Proof. apply merge_sort_Permutation. Qed.

Lemma py_sort_id l : StronglySorted Z.le l → py_sort l = l.
Proof.
  intros Hl. apply (StronglySorted_unique Z.le); [apply py_sort_sorted|done|].
  apply py_sort_perm.
Qed.

Lemma bisect_loop_S fuel (a : list Z) x lo hi :
  bisect_loop (S fuel) a x lo hi =
    if decide (lo < hi)%nat then
      match a !! ((lo + hi) / 2)%nat with
      | Some am =>
          if decide (am < x) then bisect_loop fuel a x (S ((lo + hi) / 2)) hi
          else bisect_loop fuel a x lo ((lo + hi) / 2)
      | None => lo
      end
    else lo.
Proof. reflexivity. Qed.

(** The loop of [bisect_left] keeps: everything left of [lo] is below [x],
    everything from [hi] on is at least [x]. *)
Lemma bisect_loop_spec (a : list Z) x fuel lo hi :
  StronglySorted Z.le a →
  (lo ≤ hi ≤ length a)%nat → (hi - lo ≤ fuel)%nat →
  (∀ i w, a !! i = Some w → (i < lo)%nat → w < x) →
  (∀ i w, a !! i = Some w → (hi ≤ i)%nat → x ≤ w) →
  let r := bisect_loop fuel a x lo hi in
  (r ≤ length a)%nat ∧
  (∀ i w, a !! i = Some w → (i < r)%nat → w < x) ∧
  (∀ i w, a !! i = Some w → (r ≤ i)%nat → x ≤ w).
Proof.
  intros Hs. revert lo hi.
  induction fuel as [|fuel IH]; intros lo hi Hb Hf Hlo Hhi;
    [simpl|rewrite bisect_loop_S].
  - assert (lo = hi) as -> by lia. split; [lia|]. split; assumption.
  - destruct (decide (lo < hi)%nat) as [Hlt|Hge].
    + assert (Hmid : (lo ≤ (lo + hi) / 2 < hi)%nat).
      { split; [apply Nat.div_le_lower_bound; lia|].
        apply Nat.Div0.div_lt_upper_bound; lia. }
      destruct (a !! ((lo + hi) / 2)%nat) as [am|] eqn:Ham.
      * destruct (decide (am < x)) as [Hc|Hc].
        -- apply IH; [lia|lia| |done].
           intros i w Hi Hlt'.
           assert (w ≤ am); [|lia].
           eapply (sorted_lookup_le a i ((lo + hi) / 2)%nat); [done|lia|done..].
        -- apply IH; [lia|lia|done|].
           intros i w Hi Hle.
           assert (am ≤ w); [|lia].
           eapply (sorted_lookup_le a ((lo + hi) / 2)%nat i); [done|lia|done..].
      * apply lookup_ge_None in Ham. lia.
    + assert (lo = hi) as -> by lia. split; [lia|]. split; assumption.
Qed.

Lemma bisect_left_spec (a : list Z) x :
  StronglySorted Z.le a →
  (bisect_left a x ≤ length a)%nat ∧
  (∀ i w, a !! i = Some w → (i < bisect_left a x)%nat → w < x) ∧
  (∀ i w, a !! i = Some w → (bisect_left a x ≤ i)%nat → x ≤ w).
Proof.
  intros Hs. unfold bisect_left. apply bisect_loop_spec; [done|lia|lia| |].
  - intros i w _ Hi. lia.
  - intros i w Hi Hle. apply lookup_lt_Some in Hi. lia.
Qed.

Lemma bisect_left_fits (bl : list Z) n :
  StronglySorted Z.le bl →
  (bisect_left bl n < length bl)%nat →
  ∃ w, smallest_fitting bl n (bisect_left bl n) w.
Proof.
  intros Hs Hlt. destruct (bisect_left_spec bl n Hs) as (_ & Hbelow & Habove).
  destruct (lookup_lt_is_Some_2 bl _ Hlt) as [w Hw].
  exists w. split; [done|]. split; [by eapply Habove|].
  intros b' w' Hb' Hn.
  assert (bisect_left bl n ≤ b')%nat.
  { destruct (decide (bisect_left bl n ≤ b')%nat) as [|Hgt]; [done|].
    assert (w' < n); [|lia]. eapply Hbelow; [done|lia]. }
  split; [done|]. by eapply sorted_lookup_le.
Qed.

Lemma bisect_left_overflow (bl : list Z) n :
  StronglySorted Z.le bl →
  bisect_left bl n = length bl ↔ Forall (λ w, w < n) bl.
Proof.
  intros Hs. destruct (bisect_left_spec bl n Hs) as (Hle & Hbelow & Habove).
  split.
  - intros Heq. apply Forall_lookup. intros i w Hi.
    eapply Hbelow; [done|]. apply lookup_lt_Some in Hi. lia.
  - intros Hall.
    destruct (decide (bisect_left bl n = length bl)) as [|Hne]; [done|].
    destruct (lookup_lt_is_Some_2 bl (bisect_left bl n)) as [w Hw]; [lia|].
    assert (n ≤ w) by (by eapply Habove).
    rewrite Forall_lookup in Hall. specialize (Hall _ _ Hw). lia.
Qed.

Section Bucketing.
Context {elt : Type} (astype : Z → elt) (uninit : nat → nat → elt).
Context {limits : Limits}.

Lemma forallb_storable (s : list Z) :
  forallb storable s = true ↔ Forall (λ c, storable c = true) s.
Proof.
  induction s as [|c s IH]; [by split; [constructor|]|].
  cbn [forallb]. rewrite andb_true_iff, Forall_cons, IH. done.
Qed.

(** Lines 98-99 for a sentence that fits the bucket: the padded row when
    [numpy] accepts the buffer and the cells, and [ValueError] or
    [OverflowError] otherwise. *)
Lemma padded_cases w invalid_label (s : list Z) :
  len s ≤ w →
  (within_limits w invalid_label s ∧
   padded astype w invalid_label s = inr (row_of astype w invalid_label s)) ∨
  (¬ within_limits w invalid_label s ∧
   (padded astype w invalid_label s = inl ValueError ∨
    padded astype w invalid_label s = inl OverflowError)).
Proof.
  unfold len, padded, np_full, assign_prefix, row_of, within_limits.
  intros Hle. rewrite decide_False by lia.
  destruct (decide (max_dim < w)) as [Hbig|Hdim].
  { right. split; [intros (? & _); lia|by left]. }
  destruct (decide (0 < w ∧ storable invalid_label = false)) as [[Hp Hst]|Hn].
  { right. split; [|by right]. intros (_ & Hi & _). rewrite Hi in Hst; done. }
  cbv iota beta. rewrite length_replicate, decide_True by lia.
  destruct (forallb storable s) eqn:Hf.
  - left. split; [|by rewrite drop_replicate].
    split; [lia|]. split; [|by apply forallb_storable].
    intros Hp. destruct (storable invalid_label); [done|]. by destruct Hn.
  - right. split; [|by right]. intros (_ & _ & Hs).
    apply forallb_storable in Hs. congruence.
Qed.

Lemma padded_fits w invalid_label (s : list Z) :
  len s ≤ w → within_limits w invalid_label s →
  padded astype w invalid_label s = inr (row_of astype w invalid_label s).
Proof.
  intros Hle Hok.
  by destruct (padded_cases w invalid_label s Hle) as [[_ ?]|[? _]].
Qed.

Lemma length_row_of w invalid_label (s : list Z) :
  len s ≤ w → length (row_of astype w invalid_label s) = Z.to_nat w.
Proof.
  unfold len, row_of. intros Hle.
  rewrite length_app, length_fmap, length_replicate. lia.
Qed.

(** One round of the bucketing loop on a sorted bucket list: the sentence
    is counted as discarded, or it has a bucket that is wide enough, and
    then its padded row is appended to the bucket, unless [numpy] refuses
    the buffer or a cell. *)
Lemma place_sorted bl invalid_label rows nd (s : list Z) :
  StronglySorted Z.le bl →
  let b := bisect_left bl (len s) in
  (b = length bl ∧
   place astype bl invalid_label (rows, nd) s = inr (rows, nd + 1)) ∨
  (∃ w, bl !! b = Some w ∧ len s ≤ w ∧
     ((within_limits w invalid_label s ∧
       place astype bl invalid_label (rows, nd) s
         = inr (alter (λ r, r ++ [row_of astype w invalid_label s]) b rows, nd)) ∨
      (¬ within_limits w invalid_label s ∧
       (place astype bl invalid_label (rows, nd) s = inl ValueError ∨
        place astype bl invalid_label (rows, nd) s = inl OverflowError)))).
Proof.
  intros Hs b. unfold place. fold (len s). fold b.
  destruct (decide (b = length bl)) as [Hb|Hb]; [by left|right].
  destruct (bisect_left_spec bl (len s) Hs) as (Hle & _ & _). fold b in Hle.
  destruct (bisect_left_fits bl (len s) Hs) as (w & Hw & Hfit & _);
    [fold b; lia|]. fold b in Hw.
  exists w. rewrite Hw. split; [done|]. split; [done|].
  destruct (padded_cases w invalid_label s Hfit) as [[Hok ->]|[Hno [->| ->]]];
    [by left|right..]; (split; [done|]); [by left|by right].
Qed.

Lemma place_all_cons bl invalid_label st (s : list Z) rest :
  place_all astype bl invalid_label st (s :: rest) =
    match place astype bl invalid_label st s with
    | inl e => inl e
    | inr st' => place_all astype bl invalid_label st' rest
    end.
Proof. reflexivity. Qed.

(** The bucketing loop on a sorted bucket list ends without an exception
    exactly when [numpy] accepts the buffer of every sentence that has a
    bucket; otherwise it raises [ValueError] or [OverflowError]. *)
Lemma place_all_outcome bl invalid_label sentences rows nd :
  StronglySorted Z.le bl →
  (Forall (λ s, ∀ w, bl !! bisect_left bl (len s) = Some w →
                     within_limits w invalid_label s) sentences ∧
   ∃ st, place_all astype bl invalid_label (rows, nd) sentences = inr st) ∨
  (¬ Forall (λ s, ∀ w, bl !! bisect_left bl (len s) = Some w →
                       within_limits w invalid_label s) sentences ∧
   (place_all astype bl invalid_label (rows, nd) sentences = inl ValueError ∨
    place_all astype bl invalid_label (rows, nd) sentences = inl OverflowError)).
Proof.
  intros Hs. revert rows nd.
  induction sentences as [|s sentences IH]; intros rows nd.
  - left. split; [constructor|]. by eexists.
  - rewrite place_all_cons.
    destruct (place_sorted bl invalid_label rows nd s Hs)
      as [(Hb & ->)|(w & Hw & Hfit & [[Hok ->]|[Hno Herr]])].
    + destruct (IH rows (nd + 1)) as [[Hall Hrun]|[Hno Herr]].
      * left. split; [|done]. constructor; [|done].
        intros w Hw. apply lookup_lt_Some in Hw. lia.
      * right. split; [|done]. intros Hall. apply Hno.
        by apply Forall_cons in Hall as [_ ?].
    + destruct (IH (alter (λ r, r ++ [row_of astype w invalid_label s])
                     (bisect_left bl (len s)) rows) nd)
        as [[Hall Hrun]|[Hno Herr]].
      * left. split; [|done]. constructor; [|done].
        intros w' Hw'. rewrite Hw in Hw'. by injection Hw' as <-.
      * right. split; [|done]. intros Hall. apply Hno.
        by apply Forall_cons in Hall as [_ ?].
    + right. split; [|by destruct Herr as [-> | ->]; [left|right]].
      intros Hall. apply Forall_cons in Hall as [Hhead _]. by apply Hno, Hhead.
Qed.

(** The bucketing loop, when it ends without an exception: bucket [b] has
    gained the padded sentences that bisection sends to it, in order, and
    the counter has gained the number of sentences that bisection sends
    past the last bucket. *)
Lemma place_all_sorted bl invalid_label sentences rows nd rows' nd' :
  StronglySorted Z.le bl →
  place_all astype bl invalid_label (rows, nd) sentences = inr (rows', nd') →
  nd' = nd + len (filter (λ s, bisect_left bl (len s) = length bl) sentences) ∧
  length rows' = length rows ∧
  ∀ b r w, rows !! b = Some r → bl !! b = Some w →
    rows' !! b
      = Some (r ++ bucket_rows astype bl invalid_label sentences b w).
Proof.
  intros Hs. revert rows nd.
  induction sentences as [|s sentences IH]; intros rows nd.
  - simpl. intros [= <- <-]. unfold len. simpl. rewrite Z.add_0_r.
    split; [done|]. split; [done|]. intros b r w Hr _.
    unfold bucket_rows. simpl. by rewrite app_nil_r.
  - rewrite place_all_cons, filter_cons.
    destruct (place_sorted bl invalid_label rows nd s Hs)
      as [(Hb & ->)|(w & Hw & Hfit & [[Hok ->]|[Hno [-> | ->]]])];
      [| |done..]; intros Hrun.
    + destruct (IH rows (nd + 1) Hrun) as (Hnd & Hlen & Hrows).
      rewrite decide_True by done.
      split; [rewrite Hnd; unfold len; simpl; lia|]. split; [done|].
      intros b r w Hr Hw. rewrite (Hrows b r w Hr Hw). do 2 f_equal.
      unfold bucket_rows. rewrite filter_cons, decide_False; [done|].
      apply lookup_lt_Some in Hw. lia.
    + destruct (IH _ _ Hrun) as (Hnd & Hlen & Hrows).
      rewrite decide_False by (apply lookup_lt_Some in Hw; lia).
      split; [done|]. split; [by rewrite Hlen, length_alter|].
      intros b r w' Hr Hw'. unfold bucket_rows. rewrite filter_cons.
      destruct (decide (bisect_left bl (len s) = b)) as [<-|Hne].
      * rewrite (Hrows _ (r ++ [row_of astype w invalid_label s]) w').
        -- rewrite Hw in Hw'. injection Hw' as <-.
           by rewrite <- app_assoc.
        -- by rewrite list_lookup_alter_eq, Hr.
        -- done.
      * rewrite (Hrows b r w'); [done| |done].
        by rewrite list_lookup_alter_ne.
Qed.

Lemma fill_buckets_sorted bl invalid_label sentences rows nd :
  StronglySorted Z.le bl →
  fill_buckets astype bl invalid_label sentences = inr (rows, nd) →
  nd = len (filter (λ s, bisect_left bl (len s) = length bl) sentences) ∧
  length rows = length bl ∧
  ∀ b w, bl !! b = Some w →
    rows !! b = Some (bucket_rows astype bl invalid_label sentences b w).
Proof.
  intros Hs Hrun. unfold fill_buckets in Hrun.
  destruct (place_all_sorted bl invalid_label sentences _ _ _ _ Hs Hrun)
    as (Hnd & Hlen & Hrows).
  rewrite Z.add_0_l in Hnd.
  split; [done|]. split; [by rewrite Hlen, length_replicate|].
  intros b w Hw. rewrite (Hrows b [] w); [done| |done].
  apply lookup_replicate_2. by apply lookup_lt_Some in Hw.
Qed.

Lemma fill_buckets_outcome bl invalid_label sentences :
  StronglySorted Z.le bl →
  (Forall (λ s, ∀ w, bl !! bisect_left bl (len s) = Some w →
                     within_limits w invalid_label s) sentences ∧
   ∃ st, fill_buckets astype bl invalid_label sentences = inr st) ∨
  (¬ Forall (λ s, ∀ w, bl !! bisect_left bl (len s) = Some w →
                       within_limits w invalid_label s) sentences ∧
   (fill_buckets astype bl invalid_label sentences = inl ValueError ∨
    fill_buckets astype bl invalid_label sentences = inl OverflowError)).
Proof. intros Hs. by apply place_all_outcome. Qed.

(** Without a bucket every sentence is discarded and [numpy] is not
    called. *)
Lemma fill_buckets_nil invalid_label sentences :
  fill_buckets astype [] invalid_label sentences = inr ([], len sentences).
Proof.
  destruct (fill_buckets_outcome [] invalid_label sentences (SSorted_nil _))
    as [[_ [[rows nd] Hrun]]|[Hno _]].
  - rewrite Hrun.
    destruct (fill_buckets_sorted _ _ _ _ _ (SSorted_nil _) Hrun)
      as (-> & Hlen & _).
    destruct rows; [|done].
    assert (Hall : filter (λ s : list Z, bisect_left [] (len s) = length (@nil Z))
                     sentences = sentences); [|by rewrite Hall].
    clear. induction sentences as [|s ss IH]; [done|].
    rewrite filter_cons, decide_True by reflexivity. by rewrite IH.
  - destruct Hno. apply Forall_forall. intros s _ w Hw. done.
Qed.

End Bucketing.

(** ** Strictly ascending lists *)

Lemma sorted_lt_NoDup (l : list Z) : StronglySorted Z.lt l → NoDup l.
Proof.
  induction 1 as [|x l _ IH Hx]; constructor; [|done].
  intros Hin. rewrite Forall_forall in Hx. specialize (Hx _ Hin). lia.
Qed.

Lemma sorted_lt_ext (l1 l2 : list Z) :
  StronglySorted Z.lt l1 → StronglySorted Z.lt l2 →
  (∀ x, x ∈ l1 ↔ x ∈ l2) → l1 = l2.
Proof.
  intros H1 H2 Hext.
  apply (StronglySorted_unique_strong Z.lt); [intros; lia|done..|].
  apply NoDup_Permutation; auto using sorted_lt_NoDup.
Qed.

Lemma sorted_lt_filter (P : Z → Prop) `{∀ x, Decision (P x)} (l : list Z) :
  StronglySorted Z.lt l → StronglySorted Z.lt (filter P l).
Proof.
  induction 1 as [|x l _ IH Hx]; [constructor|].
  rewrite filter_cons. destruct (decide (P x)); [|done].
  constructor; [done|]. rewrite Forall_forall in *. intros y Hy.
  apply list_elem_of_filter in Hy as [_ Hy]. by apply Hx.
Qed.

Lemma sorted_lt_fmap_seq (f : nat → Z) a n :
  (∀ i j, (i < j)%nat → f i < f j) →
  StronglySorted Z.lt (f <$> seq a n).
Proof.
  intros Hf. revert a. induction n as [|n IH]; intros a; simpl.
  - constructor.
  - constructor; [apply IH|].
    apply Forall_fmap, Forall_forall. intros k Hk.
    apply elem_of_seq in Hk. simpl. apply Hf. lia.
Qed.

(** ** [range] with a positive step, from 0 *)

Lemma multiples_upto_range bs n :
  0 < bs → 0 ≤ n →
  (λ k, 0 + Z.of_nat k * bs) <$> seq 0 (Z.to_nat (n / bs))
    = multiples_upto bs (n - bs).
Proof.
  intros Hbs Hn. unfold multiples_upto. apply sorted_lt_ext.
  - apply sorted_lt_fmap_seq. intros i j Hij. nia.
  - apply sorted_lt_filter, sorted_lt_fmap_seq. intros i j Hij. lia.
  - intros j. rewrite list_elem_of_fmap, list_elem_of_filter, list_elem_of_fmap.
    split.
    + intros (k & -> & Hk). apply elem_of_seq in Hk.
      assert (Z.of_nat k < n / bs) by lia.
      assert (Z.of_nat k * bs + bs ≤ n).
      { assert (bs * (n / bs) ≤ n) by (apply Z.mul_div_le; lia). nia. }
      split.
      * rewrite Z.add_0_l. apply Z.mod_mul. lia.
      * exists (Z.to_nat (Z.of_nat k * bs)). split; [nia|].
        apply elem_of_seq. nia.
    + intros (Hmod & i & -> & Hi). apply elem_of_seq in Hi.
      apply Z.mod_divide in Hmod as [q Hq]; [|lia].
      assert (0 ≤ q) by nia.
      exists (Z.to_nat q). split; [lia|]. apply elem_of_seq.
      assert (q + 1 ≤ n / bs); [|lia].
      apply Z.div_le_lower_bound; [lia|nia].
Qed.

Lemma py_range_batches bs (n : nat) :
  0 < bs →
  py_range 0 (Z.of_nat n - bs + 1) bs
    = inr (multiples_upto bs (Z.of_nat n - bs)).
Proof.
  intros Hbs. rewrite <- multiples_upto_range by lia.
  unfold py_range. rewrite decide_False, decide_True by lia.
  do 3 f_equal.
  destruct (decide (0 < Z.of_nat n - bs + 1)) as [Hlt|Hge].
  - replace (Z.of_nat n - bs + 1 - 0 - 1) with (Z.of_nat n + (-1) * bs) by lia.
    rewrite Z.div_add by lia. lia.
  - rewrite Z.div_small by lia. done.
Qed.

Lemma length_multiples_upto bs (n : nat) :
  0 < bs →
  Z.of_nat (length (multiples_upto bs (Z.of_nat n - bs))) = Z.of_nat n / bs.
Proof.
  intros Hbs. rewrite <- multiples_upto_range by lia.
  rewrite length_fmap, length_seq.
  assert (0 ≤ Z.of_nat n / bs) by (apply Z.div_pos; lia). lia.
Qed.

Lemma elem_of_multiples_upto bs hi j :
  0 < bs → j ∈ multiples_upto bs hi ↔ 0 ≤ j ≤ hi ∧ j mod bs = 0.
Proof.
  intros Hbs. unfold multiples_upto.
  rewrite list_elem_of_filter, list_elem_of_fmap. split.
  - intros (Hmod & i & -> & Hi). apply elem_of_seq in Hi. lia.
  - intros ([Hj Hhi] & Hmod). split; [done|].
    exists (Z.to_nat j). split; [lia|]. apply elem_of_seq. lia.
Qed.

Lemma elem_of_concat {A} (x : A) (ls : list (list A)) :
  x ∈ concat ls ↔ ∃ l, l ∈ ls ∧ x ∈ l.
Proof.
  induction ls as [|l ls IH]; simpl.
  - split; [by intros ?%not_elem_of_nil|by intros (l & ?%not_elem_of_nil & _)].
  - rewrite elem_of_app, IH. split.
    + intros [Hx|(l' & Hl' & Hx)]; [exists l|exists l']; split; auto;
        [left|by right].
    + intros (l' & Hl' & Hx). apply elem_of_cons in Hl' as [->|Hl'];
        [by left|right; eauto].
Qed.

Section IndexTable.
Context {elt : Type}.
Implicit Types (data : list (ndarray elt)) (a : ndarray elt).

Lemma index_from_spec i data bs :
  0 < bs →
  index_from i data bs
    = inr (concat (imap (λ k a, (λ j, ((i + k)%nat, j)) <$>
                     multiples_upto bs (Z.of_nat (alen a) - bs)) data)).
Proof.
  intros Hbs. revert i. induction data as [|a data IH]; intros i; [done|].
  cbn [index_from]. rewrite py_range_batches, IH by done.
  rewrite imap_cons. cbn [concat]. rewrite Nat.add_0_r.
  do 3 f_equal. apply imap_ext. intros k b _. simpl.
  apply list_fmap_ext. intros _ j _. f_equal. lia.
Qed.

Lemma build_index_spec data bs :
  0 < bs → build_index data bs = inr (index_spec bs data).
Proof. intros Hbs. unfold build_index. by rewrite index_from_spec. Qed.

Lemma length_index_offset (f : nat → nat) bs data :
  0 < bs →
  Z.of_nat (length (concat (imap (λ k a, (λ j, (f k, j)) <$>
                     multiples_upto bs (Z.of_nat (alen a) - bs)) data)))
    = epoch_size bs data.
Proof.
  intros Hbs. revert f. induction data as [|a data IH]; intros f; [done|].
  rewrite imap_cons. cbn [concat]. rewrite length_app, length_fmap.
  unfold epoch_size. rewrite fmap_cons. cbn [foldr].
  rewrite Nat2Z.inj_add, length_multiples_upto by done. f_equal.
  apply (IH (f ∘ S)).
Qed.

Lemma length_index_spec bs data :
  0 < bs → Z.of_nat (length (index_spec bs data)) = epoch_size bs data.
Proof. apply (length_index_offset id). Qed.

Lemma elem_of_index_spec bs data i j :
  0 < bs →
  (i, j) ∈ index_spec bs data →
  ∃ a, data !! i = Some a ∧ 0 ≤ j ∧ j + bs ≤ Z.of_nat (alen a).
Proof.
  intros Hbs Hin. unfold index_spec in Hin.
  apply elem_of_concat in Hin as (l & Hl & Hin).
  apply elem_of_lookup_imap in Hl as (k & a & -> & Ha).
  apply list_elem_of_fmap in Hin as (j' & [= -> ->] & Hj).
  apply elem_of_multiples_upto in Hj; [|done].
  exists a. split; [done|]. lia.
Qed.

End IndexTable.

(** ** The shuffles *)

Section Shuffle.
Context {A : Type}.
Implicit Types (x y : list A) (g : gen).

Lemma insert_head_perm x j (a b : A) :
  x !! j = Some b → b :: <[j := a]> x ≡ₚ a :: x.
Proof.
  revert j. induction x as [|c x IH]; intros [|j] Hj; simplify_eq/=.
  - apply perm_swap.
  - rewrite perm_swap, (IH j Hj). apply perm_swap.
Qed.

Lemma swap_perm x i j : swap x i j ≡ₚ x.
Proof.
  unfold swap.
  destruct (x !! i) as [a|] eqn:Hi; [|done].
  destruct (x !! j) as [b|] eqn:Hj; [|done].
  revert i j Hi Hj. induction x as [|c x IH]; intros [|i] [|j] Hi Hj;
    simplify_eq/=.
  - done.
  - by apply insert_head_perm.
  - by apply insert_head_perm.
  - f_equiv. by apply IH.
Qed.

Lemma swap_length x i j : length (swap x i j) = length x.
Proof. apply Permutation_length, swap_perm. Qed.

Lemma swap_app_l x tl i j :
  (i < length x)%nat → (j < length x)%nat →
  swap (x ++ tl) i j = swap x i j ++ tl.
Proof.
  intros Hi Hj. unfold swap. rewrite !lookup_app_l by done.
  destruct (lookup_lt_is_Some_2 x i Hi) as [a ->].
  destruct (lookup_lt_is_Some_2 x j Hj) as [b ->].
  rewrite insert_app_l by done.
  rewrite insert_app_l by (by rewrite length_insert). done.
Qed.

Lemma swap_lookup_l x i j b :
  (i < length x)%nat → x !! j = Some b → swap x i j !! i = Some b.
Proof.
  intros Hi Hj. unfold swap.
  destruct (lookup_lt_is_Some_2 x i Hi) as [a Ha]. rewrite Ha, Hj.
  destruct (decide (i = j)) as [->|Hne].
  - rewrite list_lookup_insert_eq by (by rewrite length_insert). congruence.
  - rewrite list_lookup_insert_ne by done.
    by rewrite list_lookup_insert_eq.
Qed.

Lemma fisher_yates_S i g x :
  fisher_yates (S i) g x
    = fisher_yates i (gnext g) (swap x (S i) (draw g mod S (S i))%nat).
Proof. reflexivity. Qed.

Lemma fisher_yates_perm i g x : (fisher_yates i g x).1 ≡ₚ x.
Proof.
  revert g x. induction i as [|i IH]; intros g x; [done|].
  rewrite fisher_yates_S, IH. apply swap_perm.
Qed.

Lemma shuffle_perm g x : (shuffle g x).1 ≡ₚ x.
Proof. apply fisher_yates_perm. Qed.

Lemma snoc_of_last x n c :
  length x = S n → x !! n = Some c → x = take n x ++ [c].
Proof.
  intros Hlen Hc. rewrite <- (take_drop_middle x n c Hc) at 1.
  f_equal. rewrite drop_ge by lia. done.
Qed.

(** Every order of the cells is reached by some draws, whatever follows
    the cells handled and whatever draws come after. *)
Lemma fisher_yates_reach i x y :
  length x = S i → x ≡ₚ y →
  ∃ draws, length draws = i ∧
    ∀ g tl, fisher_yates i (draws ++ g) (x ++ tl) = (y ++ tl, g).
Proof.
  revert x y. induction i as [|i IH]; intros x y Hlen Hperm.
  - exists []. split; [done|]. intros g tl. simpl.
    destruct x as [|a [|??]]; simplify_eq/=.
    apply Permutation_singleton_l in Hperm. by subst.
  - assert (Hleny : length y = S (S i)) by (by rewrite <- Hperm).
    destruct (lookup_lt_is_Some_2 y (S i)) as [c Hc]; [lia|].
    pose proof (snoc_of_last y (S i) c Hleny Hc) as Hy.
    assert (Hin : c ∈ x).
    { rewrite Hperm. by eapply list_elem_of_lookup_2. }
    apply list_elem_of_lookup in Hin as [j Hj].
    pose proof (lookup_lt_Some _ _ _ Hj) as Hjlt.
    pose proof (swap_lookup_l x (S i) j c ltac:(lia) Hj) as Hlast.
    pose proof (snoc_of_last (swap x (S i) j) (S i) c
                  ltac:(by rewrite swap_length) Hlast) as Hx1.
    destruct (IH (take (S i) (swap x (S i) j)) (take (S i) y)) as (draws & Hd & Hrun).
    { rewrite length_take, swap_length. lia. }
    { apply (Permutation_app_inv_r [c]). rewrite <- Hx1, <- Hy.
      by rewrite swap_perm. }
    exists (j :: draws). split; [simpl; lia|]. intros g tl.
    rewrite fisher_yates_S.
    change (draw ((j :: draws) ++ g)) with j.
    change (gnext ((j :: draws) ++ g)) with (draws ++ g).
    rewrite (Nat.mod_small j) by lia.
    rewrite swap_app_l by lia. rewrite Hx1, <- app_assoc.
    rewrite Hrun. by rewrite Hy at 2; rewrite <- app_assoc.
Qed.

Lemma shuffle_reach x y :
  x ≡ₚ y → ∃ draws, ∀ g, shuffle (draws ++ g) x = (y, g).
Proof.
  intros Hperm. unfold shuffle. destruct x as [|a x].
  - apply Permutation_nil in Hperm as ->. by exists [].
  - destruct (fisher_yates_reach (length x) (a :: x) y) as (draws & _ & Hrun);
      [done..|].
    exists draws. intros g. specialize (Hrun g []).
    rewrite !app_nil_r in Hrun. simpl. by rewrite Nat.sub_0_r.
Qed.

End Shuffle.

Section Reset.
Context {elt : Type} (astype : Z → elt) (uninit : nat → nat → elt).
Context {limits : Limits}.
Implicit Types (a : ndarray elt) (data : list (ndarray elt)) (it : iter elt).

Lemma np_shuffle_permuted g a : row_permuted a (np_shuffle g a).1.
Proof.
  destruct a as [c|w r]; simpl.
  - pose proof (shuffle_perm g c) as Hp.
    destruct (shuffle g c) as [c' g']. simpl in *. by symmetry.
  - pose proof (shuffle_perm g r) as Hp.
    destruct (shuffle g r) as [r' g']. simpl in *. split; [done|by symmetry].
Qed.

Lemma np_shuffle_reach a a' :
  row_permuted a a' → ∃ draws, ∀ g, np_shuffle (draws ++ g) a = (a', g).
Proof.
  destruct a as [c|w r], a' as [c'|w' r']; simpl; try done.
  - intros Hp. destruct (shuffle_reach c c' Hp) as [draws Hrun].
    exists draws. intros g. by rewrite Hrun.
  - intros [<- Hp]. destruct (shuffle_reach r r' Hp) as [draws Hrun].
    exists draws. intros g. by rewrite Hrun.
Qed.

Lemma shuffle_all_permuted g data :
  Forall2 row_permuted data (shuffle_all g data).1.
Proof.
  revert g. induction data as [|a data IH]; intros g; simpl; [constructor|].
  pose proof (np_shuffle_permuted g a) as Ha.
  destruct (np_shuffle g a) as [a' g1]. specialize (IH g1).
  destruct (shuffle_all g1 data) as [data' g2]. simpl in *. by constructor.
Qed.

Lemma shuffle_all_reach data data' :
  Forall2 row_permuted data data' →
  ∃ draws, ∀ g, shuffle_all (draws ++ g) data = (data', g).
Proof.
  induction 1 as [|a a' data data' Ha _ (draws2 & Hrun2)].
  - by exists [].
  - destruct (np_shuffle_reach a a' Ha) as (draws1 & Hrun1).
    exists (draws1 ++ draws2). intros g. simpl.
    by rewrite <- app_assoc, Hrun1, Hrun2.
Qed.

Lemma reset_permutes g_py g_np it :
  let it' := (reset g_py g_np it).1.1 in
  curr_idx it' = 0%nat ∧
  idx it ≡ₚ idx it' ∧
  Forall2 row_permuted (data it) (data it') ∧
  batch_size it' = batch_size it ∧
  buckets it' = buckets it ∧
  default_bucket_key it' = default_bucket_key it ∧
  provide_data it' = provide_data it ∧
  provide_label it' = provide_label it ∧
  data_name it' = data_name it ∧
  label_name it' = label_name it ∧
  invalid_label it' = invalid_label it.
Proof.
  unfold reset.
  pose proof (shuffle_perm g_py (idx it)) as Hidx.
  pose proof (shuffle_all_permuted g_np (data it)) as Hdata.
  destruct (shuffle g_py (idx it)) as [table g_py'].
  destruct (shuffle_all g_np (data it)) as [arrays g_np'].
  simpl in *. by repeat split.
Qed.

Lemma reset_reach it table arrays :
  idx it ≡ₚ table → Forall2 row_permuted (data it) arrays →
  ∃ g_py g_np,
    (reset g_py g_np it).1.1 =
      {| data := arrays;
         idx := table;
         curr_idx := 0;
         batch_size := batch_size it;
         buckets := buckets it;
         default_bucket_key := default_bucket_key it;
         provide_data := provide_data it;
         provide_label := provide_label it;
         data_name := data_name it;
         label_name := label_name it;
         invalid_label := invalid_label it |}.
Proof.
  intros Hidx Hdata.
  destruct (shuffle_reach (idx it) table Hidx) as [d_py Hpy].
  destruct (shuffle_all_reach (data it) arrays Hdata) as [d_np Hnp].
  exists (d_py ++ []), (d_np ++ []). unfold reset.
  by rewrite Hpy, Hnp.
Qed.

(** C9. [reset()] puts the cursor at 0, leaves a permutation of the index
    table and, in every bucket, a permutation of its rows with the axes
    unchanged, and changes no other attribute. The two shuffles are
    independent: the new table is a function of the draws of [random]
    alone, the new rows of those of [np.random] alone, and every
    permutation of the table combined with every choice of one row order
    per bucket is the outcome of [reset()] for some draws of the two
    generators. *)
Theorem reset_spec it :
  (∀ g_py g_np,
     let it' := (reset g_py g_np it).1.1 in
     curr_idx it' = 0%nat ∧
     idx it ≡ₚ idx it' ∧
     Forall2 row_permuted (data it) (data it') ∧
     batch_size it' = batch_size it ∧
     buckets it' = buckets it ∧
     default_bucket_key it' = default_bucket_key it ∧
     provide_data it' = provide_data it ∧
     provide_label it' = provide_label it ∧
     data_name it' = data_name it ∧
     label_name it' = label_name it ∧
     invalid_label it' = invalid_label it ∧
     idx it' = (shuffle g_py (idx it)).1 ∧
     data it' = (shuffle_all g_np (data it)).1) ∧
  (∀ table arrays,
     idx it ≡ₚ table → Forall2 row_permuted (data it) arrays →
     ∃ g_py g_np,
       (reset g_py g_np it).1.1 =
         {| data := arrays;
            idx := table;
            curr_idx := 0;
            batch_size := batch_size it;
            buckets := buckets it;
            default_bucket_key := default_bucket_key it;
            provide_data := provide_data it;
            provide_label := provide_label it;
            data_name := data_name it;
            label_name := label_name it;
            invalid_label := invalid_label it |}).
Proof.
  split.
  - intros g_py g_np it'.
    destruct (reset_permutes g_py g_np it)
      as (? & ? & ? & ? & ? & ? & ? & ? & ? & ? & ?).
    repeat split; try done; unfold it', reset;
      destruct (shuffle g_py (idx it)), (shuffle_all g_np (data it)); done.
  - apply reset_reach.
Qed.

End Reset.

Lemma reset_spec_witness :
  let it : iter Z :=
    {| data := [Arr2 2 [[1; 2]; [3; -1]]; Arr2 5 [[7; 7; 7; -1; -1]]];
       idx := [(0%nat, 0); (0%nat, 1); (1%nat, 0)];
       curr_idx := 2;
       batch_size := 1;
       buckets := 0%nat;
       default_bucket_key := 5;
       provide_data := [("data", (1, 5))];
       provide_label := [("softmax_label", (1, 5))];
       data_name := "data";
       label_name := "softmax_label";
       invalid_label := -1 |} in
  ∃ g_py g_np,
    (reset g_py g_np it).1.1 =
      {| data := [Arr2 2 [[3; -1]; [1; 2]]; Arr2 5 [[7; 7; 7; -1; -1]]];
         idx := [(1%nat, 0); (0%nat, 0); (0%nat, 1)];
         curr_idx := 0;
         batch_size := 1;
         buckets := 0%nat;
         default_bucket_key := 5;
         provide_data := [("data", (1, 5))];
         provide_label := [("softmax_label", (1, 5))];
         data_name := "data";
         label_name := "softmax_label";
         invalid_label := -1 |}.
Proof.
  intros it.
  apply (proj2 (reset_spec it)
           [(1%nat, 0); (0%nat, 0); (0%nat, 1)]
           [Arr2 2 [[3; -1]; [1; 2]]; Arr2 5 [[7; 7; 7; -1; -1]]]).
  - simpl. etrans; [apply perm_skip, perm_swap|apply perm_swap].
  - constructor; [split; [reflexivity|apply perm_swap]|].
    constructor; [split; reflexivity|constructor].
Defined.

(** ** The constructor *)

Lemma py_max_spec (bl : list Z) key :
  py_max bl = inr key → key ∈ bl ∧ Forall (λ w, w ≤ key) bl.
Proof.
  destruct bl as [|x bl]; [done|]. simpl. intros [= <-].
  revert x. induction bl as [|y bl IH]; intros x; simpl.
  - split; [left|by constructor].
  - destruct (IH (x `max` y)) as [Hin Hall].
    apply Forall_cons in Hall as [Hxy Hall]. split.
    + apply elem_of_cons in Hin as [Heq|Hin]; [|by do 2 right].
      rewrite Heq. destruct (Z.max_spec x y) as [[_ ->]|[_ ->]];
        [right; left|left].
    + constructor; [lia|]. constructor; [lia|done].
Qed.

Lemma py_max_nonempty (bl : list Z) :
  bl ≠ [] → ∃ key, py_max bl = inr key.
Proof. destruct bl; [done|]. intros _. by eexists. Qed.

Lemma bind_buckets_inr h arg sentences bs l bl h1 :
  bind_buckets h arg sentences bs = inr (l, bl, h1) →
  StronglySorted Z.le bl ∧ h1 !! l = Some bl.
Proof.
  assert (Hderived :
    (let '(l, h') := alloc h (derive_buckets sentences bs) in
     inr (l, py_sort (derive_buckets sentences bs),
          <[l := py_sort (derive_buckets sentences bs)]> h')
       : exn + loc * list Z * heap) = inr (l, bl, h1) →
    StronglySorted Z.le bl ∧ h1 !! l = Some bl).
  { unfold alloc. intros [= <- <- <-]. split; [apply py_sort_sorted|].
    apply list_lookup_insert_eq. rewrite length_app. simpl. lia. }
  unfold bind_buckets. destruct arg as [l0|]; [|done].
  destruct (h !! l0) as [[|b bl0]|] eqn:Hl0; [done| |done].
  intros [= <- <- <-]. split; [apply py_sort_sorted|].
  apply list_lookup_insert_eq. by eapply lookup_lt_Some.
Qed.

Section Constructor.
Context {elt : Type} (astype : Z → elt) (uninit : nat → nat → elt).
Context {limits : Limits}.
Implicit Types (a : ndarray elt) (data : list (ndarray elt)) (it : iter elt).

(** What a successful construction leaves. *)
Lemma init_inr h sentences bs inv arg dn ln out it h1 :
  init astype h sentences bs inv arg dn ln = (out, inr it, h1) →
  ∃ bl, bind_buckets h arg sentences bs = inr (buckets it, bl, h1) ∧
    StronglySorted Z.le bl ∧ h1 !! buckets it = Some bl ∧
    out = [Discarded (len (filter (λ s, bisect_left bl (len s) = length bl)
                             sentences))] ∧
    data it = imap (λ b w, asarray (bucket_rows astype bl inv sentences b w)) bl ∧
    py_max bl = inr (default_bucket_key it) ∧
    build_index (data it) bs = inr (idx it) ∧
    curr_idx it = 0%nat ∧ batch_size it = bs ∧ invalid_label it = inv ∧
    data_name it = dn ∧ label_name it = ln ∧
    provide_data it = [(dn, (bs, default_bucket_key it))] ∧
    provide_label it = [(ln, (bs, default_bucket_key it))].
Proof.
  unfold init.
  destruct (bind_buckets h arg sentences bs) as [e|[[l bl] h']] eqn:Hbind;
    [done|].
  destruct (bind_buckets_inr _ _ _ _ _ _ _ Hbind) as [Hs Hl].
  destruct (fill_buckets astype bl inv sentences) as [e|[rows nd]] eqn:Hfill;
    [done|].
  destruct (fill_buckets_sorted astype bl inv sentences rows nd Hs Hfill)
    as (-> & Hlen & Hrows).
  destruct (py_max bl) as [e|key] eqn:Hmax; [done|].
  destruct (build_index (asarray <$> rows) bs) as [e|table] eqn:Hidx; [done|].
  intros [= <- <- <-]. simpl. exists bl.
  assert (Hdata : asarray <$> rows
    = imap (λ b w, asarray (bucket_rows astype bl inv sentences b w)) bl).
  { apply list_eq. intros b. rewrite list_lookup_fmap, list_lookup_imap.
    destruct (bl !! b) as [w|] eqn:Hb.
    - by rewrite (Hrows b w Hb).
    - apply lookup_ge_None in Hb. rewrite lookup_ge_None_2 by lia. done. }
  rewrite <- Hdata. by repeat split.
Qed.

Lemma init_succeeds h sentences bs inv arg dn ln l bl h1 :
  bind_buckets h arg sentences bs = inr (l, bl, h1) → bl ≠ [] → 0 < bs →
  Forall (λ s, ∀ w, bl !! bisect_left bl (len s) = Some w →
                   within_limits w inv s) sentences →
  ∃ out it, init astype h sentences bs inv arg dn ln = (out, inr it, h1).
Proof.
  intros Hbind Hne Hbs Hok. unfold init. rewrite Hbind.
  destruct (bind_buckets_inr _ _ _ _ _ _ _ Hbind) as [Hs Hl].
  destruct (fill_buckets_outcome astype bl inv sentences Hs)
    as [[_ [[rows nd] ->]]|[Hno _]]; [|done].
  destruct (py_max_nonempty bl Hne) as [key ->].
  rewrite build_index_spec by done. by eexists _, _.
Qed.

(** An empty bucket list makes the constructor raise, after the warning. *)
Lemma init_no_bucket h sentences bs inv arg dn ln l h1 :
  bind_buckets h arg sentences bs = inr (l, [], h1) →
  init astype h sentences bs inv arg dn ln
    = ([Discarded (len sentences)], inl ValueError, h1).
Proof.
  intros Hbind. unfold init. rewrite Hbind.
  by rewrite fill_buckets_nil.
Qed.

(** The rows of a bucket all have its width. *)
Lemma bucket_rows_width bl inv sentences b w :
  StronglySorted Z.le bl → bl !! b = Some w →
  Forall (λ row, length row = Z.to_nat w)
    (bucket_rows astype bl inv sentences b w).
Proof.
  intros Hs Hb. unfold bucket_rows. apply Forall_fmap, Forall_forall.
  intros s Hin. apply list_elem_of_filter in Hin as [Hsb _]. simpl.
  apply length_row_of.
  destruct (bisect_left_spec bl (len s) Hs) as (_ & _ & Habove).
  eapply Habove; [done|lia].
Qed.

Lemma asarray_wf rows n :
  Forall (λ row, length row = n) rows → wf_array (elt:=elt) (asarray rows).
Proof.
  destruct rows as [|r rows]; [done|]. simpl. intros Hall.
  pose proof (Forall_inv Hall) as Hr. simpl in Hr. rewrite Hr. done.
Qed.

Lemma init_ready h sentences bs inv arg dn ln out it h1 :
  init astype h sentences bs inv arg dn ln = (out, inr it, h1) → 0 < bs →
  ready h1 bs inv it.
Proof.
  intros Hinit Hbs.
  destruct (init_inr _ _ _ _ _ _ _ _ _ _ Hinit)
    as (bl & _ & Hs & Hl & _ & Hdata & _ & Hidx & Hcur & Hb & Hi & _).
  rewrite build_index_spec in Hidx by done. injection Hidx as Hidx.
  split; [done|]. split; [done|]. split; [done|]. split; [|split; [|split; [|split]]].
  - rewrite Hdata. apply Forall_lookup. intros b a Ha.
    apply list_lookup_imap_Some in Ha as (w & Hw & ->).
    eapply asarray_wf, bucket_rows_width; done.
  - exists bl. split; [done|]. by rewrite Hdata, length_imap.
  - intros i j Hin. rewrite <- Hidx in Hin.
    by apply elem_of_index_spec in Hin.
  - rewrite <- Hidx. by apply length_index_spec.
  - rewrite Hcur. lia.
Qed.

End Constructor.

Section Invariants.
Context {elt : Type} (astype : Z → elt) (uninit : nat → nat → elt).
Context {limits : Limits}.
Implicit Types (a : ndarray elt) (data : list (ndarray elt)) (it : iter elt).

(** ** What a shuffle of the rows keeps *)

Lemma row_permuted_alen a a' : row_permuted a a' → alen a' = alen a.
Proof.
  destruct a, a'; simpl; try done.
  - intros Hp. by rewrite Hp.
  - intros [_ Hp]. by rewrite Hp.
Qed.

Lemma row_permuted_wf a a' : row_permuted a a' → wf_array a → wf_array a'.
Proof.
  destruct a, a'; simpl; try done.
  - intros Hp ->. by apply Permutation_nil.
  - intros [<- Hp] Hall. by rewrite <- Hp.
Qed.

Lemma row_permuted_zero_width bs a a' :
  row_permuted a a' → zero_width_small bs a → zero_width_small bs a'.
Proof.
  destruct a as [|w r], a' as [|w' r']; simpl; try done.
  intros [<- Hp]. destruct w; [|done]. by rewrite Hp.
Qed.

Lemma epoch_size_permuted bs data data' :
  Forall2 row_permuted data data' → epoch_size bs data' = epoch_size bs data.
Proof.
  unfold epoch_size. induction 1 as [|a a' data data' Ha _ IH]; [done|].
  rewrite !fmap_cons. cbn [foldr]. by rewrite IH, (row_permuted_alen a a').
Qed.

Lemma reset_shaped inv g_py g_np it :
  shaped inv it → shaped inv (reset g_py g_np it).1.1.
Proof.
  intros [Hwf Hinv].
  destruct (reset_permutes g_py g_np it)
    as (_ & _ & Hdata & _ & _ & _ & _ & _ & _ & _ & Hi).
  split; [|congruence].
  apply Forall_lookup. intros i a' Ha'.
  destruct (Forall2_lookup_r _ _ _ _ _ Hdata Ha') as (a & Ha & Hp).
  eapply row_permuted_wf; [done|]. by eapply Forall_lookup_1.
Qed.

Lemma reset_ready h bs inv g_py g_np it :
  ready h bs inv it → ready h bs inv (reset g_py g_np it).1.1.
Proof.
  intros (Hb & Hi & Hbs & Hwf & (bl & Hl & Hlen) & Hidx & Hsz & Hcur).
  destruct (reset_shaped inv g_py g_np it) as [Hwf' Hi']; [done|].
  destruct (reset_permutes g_py g_np it)
    as (Hc' & Hpi & Hdata & Hb' & Hl' & _).
  split; [congruence|]. split; [done|]. split; [done|]. split; [done|].
  split; [|split; [|split]].
  - exists bl. rewrite Hl'. split; [done|].
    by rewrite <- (Forall2_length _ _ _ Hdata).
  - intros i j Hin. rewrite <- Hpi in Hin.
    destruct (Hidx i j Hin) as (a & Ha & Hj).
    destruct (Forall2_lookup_l _ _ _ _ _ Hdata Ha) as (a' & Ha' & Hp).
    exists a'. by rewrite (row_permuted_alen a a').
  - by rewrite <- Hpi, (epoch_size_permuted bs _ _ Hdata).
  - rewrite Hc'. lia.
Qed.

(** ** [next()] *)

Lemma next_stop h it :
  curr_idx it = length (idx it) → next astype uninit h it = (Stop, it).
Proof. intros Heq. unfold next. by rewrite decide_True. Qed.

(** A call that does not stop consumes one entry of the table. *)
Lemma next_consumes h it :
  (curr_idx it < length (idx it))%nat →
  (next astype uninit h it).2 = advance it ∧
  (next astype uninit h it).1 ≠ Stop.
Proof.
  intros Hlt. unfold next. rewrite decide_False by lia.
  destruct (lookup_lt_is_Some_2 (idx it) _ Hlt) as [[i j] ->].
  destruct (data it !! i) as [a|]; [|done].
  destruct (make_label _ _ _ _) as [e|label]; [done|].
  by destruct (h !! buckets it ≫= _).
Qed.

Lemma next_state h it :
  (next astype uninit h it).2 = it ∨ (next astype uninit h it).2 = advance it.
Proof.
  unfold next. destruct (decide _); [by left|].
  destruct (idx it !! curr_idx it) as [[i j]|]; [|by left].
  destruct (data it !! i) as [a|]; [|by right].
  destruct (make_label _ _ _ _) as [e|label]; [by right|].
  destruct (h !! buckets it ≫= _); by right.
Qed.

Lemma next_shaped inv h it :
  shaped inv it → shaped inv (next astype uninit h it).2.
Proof. intros Hs. by destruct (next_state h it) as [->| ->]. Qed.

Lemma next_ready h bs inv it :
  ready h bs inv it → ready h bs inv (next astype uninit h it).2.
Proof.
  intros Hr. pose proof Hr as (? & ? & ? & ? & ? & ? & ? & Hcur).
  destruct (decide (curr_idx it = length (idx it))) as [Heq|Hne].
  - by rewrite next_stop.
  - destruct (next_consumes h it) as [-> _]; [lia|].
    repeat split; try done. simpl. lia.
Qed.

Lemma run_shaped inv h it calls :
  shaped inv it → shaped inv (run astype uninit h it calls).
Proof.
  unfold run. revert it. induction calls as [|c calls IH]; intros it Hs;
    [done|].
  simpl. apply IH. destruct c; [by apply reset_shaped|by apply next_shaped].
Qed.

Lemma run_ready h bs inv it calls :
  ready h bs inv it → ready h bs inv (run astype uninit h it calls).
Proof.
  unfold run. revert it. induction calls as [|c calls IH]; intros it Hr;
    [done|].
  simpl. apply IH. destruct c; [by apply reset_ready|by apply next_ready].
Qed.

Lemma row_permuted_refl a : row_permuted a a.
Proof. destruct a; simpl; done. Qed.

Lemma row_permuted_trans a1 a2 a3 :
  row_permuted a1 a2 → row_permuted a2 a3 → row_permuted a1 a3.
Proof.
  destruct a1, a2, a3; simpl; try done.
  - intros H12 H23. by etrans.
  - intros [-> H12] [-> H23]. split; [done|by etrans].
Qed.

Lemma step_data h it c :
  Forall2 row_permuted (data it) (data (step astype uninit h it c)).
Proof.
  destruct c as [g_py g_np|]; simpl.
  - by destruct (reset_permutes g_py g_np it) as (_ & _ & ? & _).
  - assert (data (next astype uninit h it).2 = data it) as ->
      by (by destruct (next_state h it) as [->| ->]).
    apply Forall_Forall2_diag, Forall_forall. intros a _.
    apply row_permuted_refl.
Qed.

(** Whatever the calls, every bucket keeps its rows and its axes. *)
Lemma run_data h it calls :
  Forall2 row_permuted (data it) (data (run astype uninit h it calls)).
Proof.
  unfold run. revert it. induction calls as [|c calls IH]; intros it.
  - apply Forall_Forall2_diag, Forall_forall. intros a _.
    apply row_permuted_refl.
  - simpl. eapply Forall2_trans;
      [apply row_permuted_trans|apply step_data|apply IH].
Qed.

End Invariants.

Lemma Forall_py_slice {A} (P : A → Prop) (l : list A) j k :
  Forall P l → Forall P (py_slice l j k).
Proof. intros Hl. unfold py_slice. by apply Forall_take, Forall_drop. Qed.

Section Next.
Context {elt : Type} (astype : Z → elt) (uninit : nat → nat → elt).
Context {limits : Limits}.
Implicit Types (a : ndarray elt) (data : list (ndarray elt)) (it : iter elt).

(** ** The label of a slice *)

Lemma shift_rows_closed (f : nat → list elt) w v (rows : list (list elt)) :
  w ≠ 0%nat → (∀ r, length (f r) = w) →
  Forall (λ row, length row = w) rows →
  (λ row, <[pred w := v]> row) <$> zip_with shift_row (imap (λ r _, f r) rows) rows
    = (λ drow, drop 1 drow ++ [v]) <$> rows.
Proof.
  intros Hw Hf. revert f Hf.
  induction rows as [|drow rows IH]; intros f Hf Hall; [done|].
  apply Forall_cons in Hall as [Hd Hall].
  rewrite imap_cons. cbn [zip_with]. rewrite !fmap_cons. f_equal.
  - unfold shift_row.
    assert (Hl : length (drop 1 drow) = pred w) by (rewrite length_drop; lia).
    rewrite Hl.
    assert (Hlast : length (drop (pred w) (f O)) = 1%nat)
      by (rewrite length_drop, Hf; lia).
    destruct (drop (pred w) (f O)) as [|x [|??]]; simplify_eq/=.
    rewrite insert_app_r_alt by lia. rewrite Hl, Nat.sub_diag. done.
  - apply (IH (f ∘ S)); [intros r; apply Hf|done].
Qed.

Lemma make_label_closed w rows inv :
  w ≠ 0%nat → Forall (λ row, length row = w) rows →
  make_label astype uninit (Arr2 w rows) inv
    = inr (Arr2 w ((λ drow, drop 1 drow ++ [astype inv]) <$> rows)).
Proof.
  intros Hw Hall. unfold make_label. rewrite decide_False by done.
  do 2 f_equal. apply (shift_rows_closed (λ r, uninit r <$> seq 0 w));
    [done| |done].
  intros r. by rewrite length_fmap, length_seq.
Qed.

Lemma make_label_inr d inv label :
  wf_array d → make_label astype uninit d inv = inr label →
  ∃ w rows, w ≠ 0%nat ∧ d = Arr2 w rows ∧
    label = Arr2 w ((λ drow, drop 1 drow ++ [astype inv]) <$> rows).
Proof.
  destruct d as [c|w rows]; [done|]. intros Hall. simpl in Hall.
  destruct (decide (w = 0%nat)) as [->|Hw].
  - unfold make_label. by rewrite decide_True.
  - rewrite make_label_closed by done. intros [= <-]. by exists w, rows.
Qed.

Lemma aslice_wf a j k : wf_array a → wf_array (aslice a j k).
Proof.
  destruct a as [c|w rows]; simpl.
  - intros ->. unfold py_slice. by rewrite drop_nil, take_nil.
  - apply Forall_py_slice.
Qed.

(** A batch comes from an entry of the table; its data is a slice of a
    two-axis array, its label the rows of the slice without their first
    cell and with the padding value appended. *)
Lemma next_emitted inv h it b it' :
  shaped inv it → next astype uninit h it = (Emitted b, it') →
  ∃ w rows, w ≠ 0%nat ∧ Forall (λ row, length row = w) rows ∧
    b_data b = Arr2 w rows ∧
    b_label b = Arr2 w ((λ drow, drop 1 drow ++ [astype inv]) <$> rows).
Proof.
  intros [Hwf Hinv]. unfold next. destruct (decide _); [done|].
  destruct (idx it !! curr_idx it) as [[i j]|]; [|done].
  destruct (data it !! i) as [a|] eqn:Ha; [|done].
  pose proof (aslice_wf a j (j + batch_size it)
                (Forall_lookup_1 _ _ _ _ Hwf Ha)) as Hd.
  destruct (make_label _ _ _ _) as [e|label] eqn:Hlab; [done|].
  destruct (make_label_inr _ _ _ Hd Hlab) as (w & rows & Hw & Hda & ->).
  destruct (h !! buckets it ≫= _); [|done].
  intros [= <- <-]. simpl. exists w, rows. rewrite Hda in Hd |- *.
  rewrite Hinv. done.
Qed.

(** With a table entry that designates rows of a bucket that is wide
    enough, the call emits a batch. *)
Lemma next_emits h bs inv it :
  ready h bs inv it → Forall (zero_width_small bs) (data it) →
  (curr_idx it < length (idx it))%nat →
  is_emitted (next astype uninit h it).1.
Proof.
  intros (Hb & Hi & Hbs & Hwf & (bl & Hl & Hlen) & Hidx & Hsz & Hcur) Hz Hlt.
  unfold next. rewrite decide_False by lia.
  destruct (lookup_lt_is_Some_2 (idx it) _ Hlt) as [[i j] Hij]. rewrite Hij.
  destruct (Hidx i j) as (a & Ha & Hj0 & Hj);
    [by eapply list_elem_of_lookup_2|].
  rewrite Ha.
  pose proof (Forall_lookup_1 _ _ _ _ Hwf Ha) as Hwa.
  pose proof (Forall_lookup_1 _ _ _ _ Hz Ha) as Hza.
  destruct a as [c|w rows]; simpl in Hwa, Hza, Hj.
  { subst c. simpl in Hj. lia. }
  assert (Hw : w ≠ 0%nat) by (destruct w; [lia|done]).
  cbn [aslice]. rewrite make_label_closed; [|done|by apply Forall_py_slice].
  rewrite Hl. simpl.
  destruct (lookup_lt_is_Some_2 bl i) as [key ->]; [|done].
  rewrite Hlen. by eapply lookup_lt_Some.
Qed.

(** From any point within an epoch, the calls of [next()] that remain
    before the stop are as many as the table entries not yet consumed. *)
Lemma next_n_remaining h bs inv it k :
  ready h bs inv it → (curr_idx it + k = length (idx it))%nat →
  ∃ outs, next_n astype uninit (S k) h it = outs ++ [Stop] ∧
    length outs = k ∧ Forall (λ o, o ≠ Stop) outs ∧
    (Forall (zero_width_small bs) (data it) → Forall is_emitted outs).
Proof.
  revert it. induction k as [|k IH]; intros it Hr Hk.
  - exists []. simpl. rewrite next_stop by lia. by repeat split.
  - destruct (next_consumes astype uninit h it) as [Hst Hns]; [lia|].
    pose proof (next_ready astype uninit h bs inv it Hr) as Hr'.
    rewrite Hst in Hr'.
    destruct (IH (advance it) Hr') as (outs & Hrun & Hlen & Hne & Hem);
      [simpl; lia|].
    exists ((next astype uninit h it).1 :: outs).
    change (next_n astype uninit (S (S k)) h it)
      with (let '(o, it') := next astype uninit h it in
            o :: next_n astype uninit (S k) h it').
    destruct (next astype uninit h it) as [o it1] eqn:Hnext.
    simpl in Hst, Hns. subst it1. rewrite Hrun. cbn [fst].
    split; [done|]. split; [simpl; by rewrite Hlen|]. split; [by constructor|].
    intros Hz. constructor; [|by apply Hem].
    pose proof (next_emits h bs inv it Hr Hz ltac:(lia)) as He.
    by rewrite Hnext in He.
Qed.

End Next.

Section Batches.
Context {elt : Type} (astype : Z → elt) (uninit : nat → nat → elt).
Context {limits : Limits}.
Implicit Types (a : ndarray elt) (data : list (ndarray elt)) (it : iter elt).

Lemma init_shaped h sentences bs inv arg dn ln out it h1 :
  init astype h sentences bs inv arg dn ln = (out, inr it, h1) →
  shaped inv it.
Proof.
  intros Hinit.
  destruct (init_inr _ _ _ _ _ _ _ _ _ _ _ Hinit)
    as (bl & _ & Hs & _ & _ & Hdata & _ & _ & _ & _ & Hi & _).
  split; [|done].
  rewrite Hdata. apply Forall_lookup. intros b a Ha.
  apply list_lookup_imap_Some in Ha as (w & Hw & ->).
  eapply asarray_wf, bucket_rows_width; done.
Qed.

(** C2. Whatever calls of [reset()] and [next()] came before, a batch that
    [next()] emits has a label of the shape of its data, and in every row
    the label holds at position [k] what the data holds at position
    [k + 1], and the constructor's [invalid_label] (converted to the
    element type) at its last position. *)
Theorem next_label_shifted
    h sentences bs inv arg dn ln out it0 h1 calls b it' :
  init astype h sentences bs inv arg dn ln = (out, inr it0, h1) →
  next astype uninit h1 (run astype uninit h1 it0 calls) = (Emitted b, it') →
  ∃ w drows lrows,
    b_data b = Arr2 w drows ∧ b_label b = Arr2 w lrows ∧
    shape (b_label b) = shape (b_data b) ∧
    Forall2 (λ drow lrow,
               length drow = w ∧ length lrow = w ∧
               (∀ k, (k + 1 < w)%nat → lrow !! k = drow !! (k + 1)%nat) ∧
               lrow !! (w - 1)%nat = Some (astype inv))
      drows lrows.
Proof.
  intros Hinit Hnext.
  pose proof (run_shaped astype uninit inv h1 it0 calls
                (init_shaped _ _ _ _ _ _ _ _ _ _ Hinit)) as Hs.
  destruct (next_emitted astype uninit inv h1 _ b it' Hs Hnext)
    as (w & rows & Hw & Hall & Hd & Hl).
  exists w, rows, ((λ drow, drop 1 drow ++ [astype inv]) <$> rows).
  split; [done|]. split; [done|]. rewrite Hd, Hl. simpl.
  split; [by rewrite length_fmap|].
  apply Forall2_fmap_r, Forall_Forall2_diag.
  eapply Forall_impl; [exact Hall|]. intros drow Hlen. simpl in Hlen.
  cbv beta.
  assert (Hdrop : length (drop 1 drow) = (w - 1)%nat)
    by (rewrite length_drop; lia).
  split; [done|]. split; [rewrite length_app, Hdrop; simpl; lia|]. split.
  - intros k Hk. rewrite lookup_app_l by lia. rewrite lookup_drop.
    f_equal. lia.
  - rewrite lookup_app_r by lia. by rewrite Hdrop, Nat.sub_diag.
Qed.

(** On an ascending list [bisect_left] finds the first bucket that is wide
    enough, and the length of the list when there is none. *)
Lemma smallest_bucket_sorted (bl : list Z) n :
  StronglySorted Z.le bl →
  smallest_bucket bl n =
    if decide (bisect_left bl n = length bl) then None
    else Some (bisect_left bl n).
Proof.
  intros Hs. destruct (bisect_left_spec bl n Hs) as (Hle & Hbelow & Habove).
  unfold smallest_bucket. destruct (decide _) as [Heq|Hne].
  - replace (list_find (λ w, n ≤ w) bl) with (@None (nat * Z)); [done|].
    symmetry. apply list_find_None, Forall_lookup. intros i w Hi.
    assert (w < n); [|lia].
    eapply Hbelow; [done|]. apply lookup_lt_Some in Hi. lia.
  - destruct (lookup_lt_is_Some_2 bl (bisect_left bl n)) as [w Hw]; [lia|].
    replace (list_find (λ w, n ≤ w) bl) with (Some (bisect_left bl n, w));
      [done|].
    symmetry. apply list_find_Some. split; [done|].
    split; [by eapply Habove|].
    intros j y Hj Hlt. assert (y < n); [|lia]. by eapply Hbelow.
Qed.

Lemma smallest_bucket_bisect (bl : list Z) n b :
  StronglySorted Z.le bl → (b < length bl)%nat →
  bisect_left bl n = b ↔ smallest_bucket bl n = Some b.
Proof.
  intros Hs Hb. rewrite (smallest_bucket_sorted bl n Hs).
  destruct (decide _) as [Heq|Hne].
  - split; [lia|done].
  - split; [by intros ->|by intros [= ->]].
Qed.

(** C3. After a successful construction with sorted bucket list [bl], whose
    largest width is [default_bucket_key]: there is one array per bucket,
    and the array of bucket [b], of width [w], holds in input order exactly
    the sentences whose smallest bucket is [b], each right-padded to [w]
    with [invalid_label] (the rows of a two-axis array of [w] columns; the
    empty one-axis array when no sentence goes to [b]). A sentence no
    longer than the largest width has a smallest bucket, and no bucket that
    is wide enough for it comes earlier or is narrower; a longer sentence
    has none, so that it is in no array, and the count printed is the
    number of the longer sentences. *)
Theorem init_bucket_assignment h sentences bs inv arg dn ln out it h1 :
  init astype h sentences bs inv arg dn ln = (out, inr it, h1) →
  ∃ bl,
    h1 !! buckets it = Some bl ∧ StronglySorted Z.le bl ∧
    default_bucket_key it ∈ bl ∧ Forall (λ w, w ≤ default_bucket_key it) bl ∧
    length (data it) = length bl ∧
    (∀ b w, bl !! b = Some w →
       data it !! b =
         Some match row_of astype w inv <$>
                      filter (λ s, smallest_bucket bl (len s) = Some b)
                        sentences with
              | [] => Arr1 []
              | (_ :: _) as rows => Arr2 (Z.to_nat w) rows
              end) ∧
    (∀ s, s ∈ sentences → len s ≤ default_bucket_key it →
       ∃ b w, smallest_bucket bl (len s) = Some b ∧
              smallest_fitting bl (len s) b w) ∧
    (∀ s, s ∈ sentences → default_bucket_key it < len s →
       smallest_bucket bl (len s) = None) ∧
    out = [Discarded (len (filter (λ s, default_bucket_key it < len s)
                             sentences))].
Proof.
  intros Hinit.
  destruct (init_inr _ _ _ _ _ _ _ _ _ _ _ Hinit)
    as (bl & _ & Hs & Hl & Hout & Hdata & Hmax & _).
  destruct (py_max_spec bl _ Hmax) as [Hin Hall].
  assert (Hover : ∀ n, bisect_left bl n = length bl ↔ default_bucket_key it < n).
  { intros n. rewrite (bisect_left_overflow bl n Hs). split.
    - intros Hlt. rewrite Forall_forall in Hlt. by apply Hlt.
    - intros Hlt. eapply Forall_impl; [exact Hall|]. simpl. lia. }
  exists bl. split; [done|]. split; [done|]. split; [done|]. split; [done|].
  split; [by rewrite Hdata, length_imap|]. split; [|split; [|split]].
  - intros b w Hw. rewrite Hdata, list_lookup_imap, Hw. simpl. f_equal.
    pose proof (bucket_rows_width astype bl inv sentences b w Hs Hw) as Hwid.
    unfold bucket_rows in *.
    rewrite (list_filter_iff (λ s, bisect_left bl (len s) = b)
               (λ s, smallest_bucket bl (len s) = Some b)) in *
      by (intros s; apply smallest_bucket_bisect;
          [done|by eapply lookup_lt_Some]).
    destruct (row_of astype w inv <$> _) as [|r rows]; [done|].
    apply Forall_inv in Hwid. simpl in *. by rewrite Hwid.
  - intros s _ Hle. rewrite (smallest_bucket_sorted bl (len s) Hs).
    destruct (decide _) as [Heq|Hne]; [apply Hover in Heq; lia|].
    destruct (bisect_left_spec bl (len s) Hs) as (Hb & _ & _).
    destruct (bisect_left_fits bl (len s) Hs) as [w Hw]; [lia|].
    by exists (bisect_left bl (len s)), w.
  - intros s _ Hlt. rewrite (smallest_bucket_sorted bl (len s) Hs).
    rewrite decide_True; [done|]. by apply Hover.
  - rewrite Hout. do 3 f_equal. apply list_filter_iff. intros s. apply Hover.
Qed.

End Batches.

Lemma next_label_shifted_witness :
  let b : batch Z :=
    {| b_data := Arr2 2 [[1; 2]];
       b_label := Arr2 2 [[2; -1]];
       bucket_key := 2;
       b_provide_data := [("data", [1%nat; 2%nat])];
       b_provide_label := [("softmax_label", [1%nat; 2%nat])] |} in
  ∃ w drows lrows,
    b_data b = Arr2 w drows ∧ b_label b = Arr2 w lrows ∧
    shape (b_label b) = shape (b_data b) ∧
    Forall2 (λ drow lrow,
               length drow = w ∧ length lrow = w ∧
               (∀ k, (k + 1 < w)%nat → lrow !! k = drow !! (k + 1)%nat) ∧
               lrow !! (w - 1)%nat = Some (-1))
      drows lrows.
Proof.
  intros b.
  eapply (next_label_shifted (limits := int64_limits) id (λ _ _, 0) [] [[1; 2];
      [3]; [1; 3; 2; 1]] 1 (-1)
            None "data" "softmax_label" _ _ _ [CallNext] b).
  - reflexivity.
  - reflexivity.
Defined.

Lemma init_bucket_assignment_witness :
  ∃ out it h1,
    init (limits := int64_limits) id [[5; 2]] [[1; 2]; [3]; [7; 7; 7]; [1; 2;
        3; 4; 5; 6]] 1 (-1)
      (Some 0%nat) "data" "softmax_label" = (out, inr it, h1) ∧
    ∃ bl,
      h1 !! buckets it = Some bl ∧ StronglySorted Z.le bl ∧
      default_bucket_key it ∈ bl ∧ Forall (λ w, w ≤ default_bucket_key it) bl ∧
      length (data it) = length bl ∧
      (∀ b w, bl !! b = Some w →
         data it !! b =
           Some match row_of id w (-1) <$>
                        filter (λ s, smallest_bucket bl (len s) = Some b)
                          [[1; 2]; [3]; [7; 7; 7]; [1; 2; 3; 4; 5; 6]] with
                | [] => Arr1 []
                | (_ :: _) as rows => Arr2 (Z.to_nat w) rows
                end) ∧
      (∀ s, s ∈ [[1; 2]; [3]; [7; 7; 7]; [1; 2; 3; 4; 5; 6]] →
         len s ≤ default_bucket_key it →
         ∃ b w, smallest_bucket bl (len s) = Some b ∧
                smallest_fitting bl (len s) b w) ∧
      (∀ s, s ∈ [[1; 2]; [3]; [7; 7; 7]; [1; 2; 3; 4; 5; 6]] →
         default_bucket_key it < len s →
         smallest_bucket bl (len s) = None) ∧
      out = [Discarded (len (filter (λ s, default_bucket_key it < len s)
                               [[1; 2]; [3]; [7; 7; 7]; [1; 2; 3; 4; 5; 6]]))].
Proof.
  eexists _, _, _. split; [reflexivity|].
  eapply (init_bucket_assignment (limits := int64_limits) id [[5; 2]]
            [[1; 2]; [3]; [7; 7; 7]; [1; 2; 3; 4; 5; 6]] 1 (-1) (Some 0%nat)
            "data" "softmax_label").
  reflexivity.
Defined.

Section Epochs.
Context {elt : Type} (astype : Z → elt) (uninit : nat → nat → elt).
Context {limits : Limits}.
Implicit Types (a : ndarray elt) (data : list (ndarray elt)) (it : iter elt).

(** C4, as amended. For a positive [batch_size], a successful construction
    leaves the index table described: bucket after bucket, for each the
    multiples of [batch_size] from 0 up to (row count - [batch_size]), in
    ascending order. From the construction, and from any later [reset()],
    the calls of [next()] before the one that stops are as many as the sum
    over the buckets of [floor(row count / batch_size)]; all of them emit a
    batch when no bucket of width 0 holds [batch_size] rows or more. *)
Theorem epoch_size_spec h sentences bs inv arg dn ln out it0 h1 :
  0 < bs →
  init astype h sentences bs inv arg dn ln = (out, inr it0, h1) →
  idx it0 = index_spec bs (data it0) ∧
  ∀ it,
    (it = it0 ∨
     ∃ calls g_py g_np,
       it = (reset g_py g_np (run astype uninit h1 it0 calls)).1.1) →
    ∃ outs,
      next_n astype uninit (S (Z.to_nat (epoch_size bs (data it0)))) h1 it
        = outs ++ [Stop] ∧
      Z.of_nat (length outs) = epoch_size bs (data it0) ∧
      Forall (λ o, o ≠ Stop) outs ∧
      (Forall (zero_width_small bs) (data it0) → Forall is_emitted outs).
Proof.
  intros Hbs Hinit.
  pose proof (init_ready _ _ _ _ _ _ _ _ _ _ _ Hinit Hbs) as Hr0.
  destruct (init_inr _ _ _ _ _ _ _ _ _ _ _ Hinit)
    as (bl & _ & _ & _ & _ & _ & _ & Hidx & Hcur0 & _).
  rewrite build_index_spec in Hidx by done. injection Hidx as Hidx.
  split; [done|]. intros it Hit.
  assert (Hfacts : ready h1 bs inv it ∧ curr_idx it = 0%nat ∧
                   Forall2 row_permuted (data it0) (data it)).
  { destruct Hit as [->|(calls & g_py & g_np & ->)].
    - split; [done|]. split; [done|]. apply (run_data astype uninit h1 it0 []).
    - pose proof (run_ready astype uninit h1 bs inv it0 calls Hr0) as Hr.
      split; [by apply reset_ready|].
      destruct (reset_permutes g_py g_np (run astype uninit h1 it0 calls))
        as (Hc & _ & Hd & _).
      split; [done|].
      pose proof (run_data astype uninit h1 it0 (calls ++ [CallReset g_py g_np]))
        as Hrd.
      unfold run in Hrd. rewrite foldl_app in Hrd. exact Hrd. }
  destruct Hfacts as (Hr & Hcur & Hdata).
  pose proof Hr as (_ & _ & _ & _ & _ & _ & Hsz & _).
  rewrite (epoch_size_permuted bs _ _ Hdata) in Hsz.
  destruct (next_n_remaining astype uninit h1 bs inv it (length (idx it)) Hr)
    as (outs & Hrun & Hlen & Hne & Hem); [lia|].
  exists outs. rewrite <- Hsz, Nat2Z.id. split; [done|].
  split; [by rewrite Hlen|]. split; [done|].
  intros Hz. apply Hem.
  apply Forall_lookup. intros i a' Ha'.
  destruct (Forall2_lookup_r _ _ _ _ _ Hdata Ha') as (a & Ha & Hp).
  eapply row_permuted_zero_width; [done|]. by eapply Forall_lookup_1.
Qed.

(** C1. The code at the inputs of the claim: without a [buckets] argument,
    when no length is frequent enough and the derived bucket list is empty,
    the constructor discards every sentence, prints the count, and then
    raises [ValueError] ([max] of an empty list): no iterator is built. *)
Theorem init_empty_derivation_raises h sentences bs inv dn ln :
  derive_buckets sentences bs = [] →
  init astype h sentences bs inv None dn ln
    = ([Discarded (len sentences)], inl ValueError, h ++ [[]]).
Proof.
  intros Hd. apply (init_no_bucket astype h sentences bs inv None dn ln (length h)).
  unfold bind_buckets, alloc. rewrite Hd.
  change (py_sort []) with (@nil Z).
  rewrite insert_app_r_alt by done. by rewrite Nat.sub_diag.
Qed.

(** C10. A supplied list that is not empty is sorted where it is: when the
    call ends, with or without an exception, the caller's list holds its
    former elements in ascending order, and the iterator built refers to
    that same list. A supplied empty list is left as it is, and the call
    does what it does without a [buckets] argument. *)
Theorem init_sorts_callers_list h sentences bs inv l dn ln :
  (∀ b bl, h !! l = Some (b :: bl) →
     ∃ out r,
       init astype h sentences bs inv (Some l) dn ln
         = (out, r, <[l := py_sort (b :: bl)]> h) ∧
       StronglySorted Z.le (py_sort (b :: bl)) ∧
       py_sort (b :: bl) ≡ₚ b :: bl ∧
       (∀ it, r = inr it → buckets it = l)) ∧
  (h !! l = Some [] →
     init astype h sentences bs inv (Some l) dn ln
       = init astype h sentences bs inv None dn ln ∧
     (init astype h sentences bs inv None dn ln).2 !! l = Some []).
Proof.
  split.
  - intros b bl Hl.
    assert (Hbind : bind_buckets h (Some l) sentences bs
              = inr (l, py_sort (b :: bl), <[l := py_sort (b :: bl)]> h)).
    { unfold bind_buckets. by rewrite Hl. }
    destruct (init astype h sentences bs inv (Some l) dn ln)
      as [[out r] h1] eqn:Hinit.
    exists out, r. split; [|split; [apply py_sort_sorted|split; [apply py_sort_perm|]]].
    + f_equal. revert Hinit. unfold init. rewrite Hbind.
      destruct (fill_buckets _ _ _ _) as [?|[??]]; [by intros [= ]|].
      destruct (py_max _); [by intros [= ]|].
      destruct (build_index _ _); by intros [= ].
    + intros it ->.
      destruct (init_inr _ _ _ _ _ _ _ _ _ _ _ Hinit) as (bl' & Hb & _).
      rewrite Hbind in Hb. by injection Hb as <-.
  - intros Hl. split.
    + unfold init, bind_buckets. by rewrite Hl.
    + unfold init, bind_buckets, alloc.
      assert (Hkeep : <[length h := py_sort (derive_buckets sentences bs)]>
                        (h ++ [derive_buckets sentences bs]) !! l = Some []).
      { apply lookup_lt_Some in Hl as Hlt.
        rewrite list_lookup_insert_ne by lia. by rewrite lookup_app_l. }
      destruct (fill_buckets _ _ _ _) as [?|[??]]; [done|].
      destruct (py_max _); [done|].
      by destruct (build_index _ _).
Qed.

End Epochs.

(** ** The derived bucket list *)

Lemma lookup_bincount (l : list nat) i c :
  bincount l !! i = Some c ↔
    (∃ n, n ∈ l ∧ (i ≤ n)%nat) ∧ c = length (filter (λ y, y = i) l).
Proof.
  unfold bincount. destruct l as [|x l].
  - split; [done|]. by intros [(n & ?%not_elem_of_nil & _) _].
  - rewrite list_lookup_fmap, fmap_Some. split.
    + intros (k & Hk & ->). apply lookup_seq in Hk as [-> Hlt].
      split; [|done]. exists (max_list (x :: l)). split; [|lia].
      apply max_list_elem_of. done.
    + intros [(n & Hn & Hle) ->]. exists i. split; [|done].
      apply lookup_seq. split; [done|].
      pose proof (max_list_elem_of_le n (x :: l) Hn). lia.
Qed.

Lemma enumerate_filter_sorted (P : nat → Prop) `{∀ c, Decision (P c)}
    (l : list nat) k :
  StronglySorted Z.lt
    ((λ p : nat * nat, Z.of_nat p.1) <$>
       filter (λ p, P p.2) (imap (λ i j, ((k + i)%nat, j)) l)).
Proof.
  revert k. induction l as [|c l IH]; intros k; [constructor|].
  rewrite imap_cons.
  assert (Htail : StronglySorted Z.lt
            ((λ p : nat * nat, Z.of_nat p.1) <$>
               filter (λ p, P p.2) (imap ((λ i j, ((k + i)%nat, j)) ∘ S) l))).
  { erewrite imap_ext; [apply (IH (S k))|]. intros i j _. simpl. f_equal. lia. }
  rewrite filter_cons. destruct (decide _); [|done].
  rewrite fmap_cons. constructor; [done|].
  apply Forall_fmap, Forall_forall. intros [i j] Hin. simpl.
  apply list_elem_of_filter in Hin as [_ Hin].
  apply elem_of_lookup_imap in Hin as (i' & j' & [= -> ->] & _). lia.
Qed.

Lemma elem_of_derive_buckets sentences bs L :
  L ∈ derive_buckets sentences bs ↔
    (∃ s, s ∈ sentences ∧ 0 ≤ L ≤ len s) ∧ bs ≤ count_len sentences L.
Proof.
  unfold derive_buckets. rewrite list_elem_of_fmap.
  assert (Hcount : ∀ i : nat,
    Z.of_nat (length (filter (λ y, y = i) (length <$> sentences)))
      = count_len sentences (Z.of_nat i)).
  { intros i. unfold count_len, len. f_equal.
    induction sentences as [|s ss IH]; [done|].
    rewrite fmap_cons, !filter_cons.
    destruct (decide (length s = i)) as [Heq|Hne].
    - rewrite decide_True by lia. simpl. by rewrite IH.
    - rewrite decide_False by lia. done. }
  split.
  - intros ([i c] & -> & Hin). apply list_elem_of_filter in Hin as [Hc Hin].
    apply elem_of_lookup_imap in Hin as (i' & c' & [= -> ->] & Hl).
    apply lookup_bincount in Hl as [(n & Hn & Hle) ->]. simpl in *.
    apply list_elem_of_fmap in Hn as (s & -> & Hs).
    split; [exists s; unfold len; split; [done|lia]|]. by rewrite <- Hcount.
  - intros [(s & Hs & HL) Hc].
    exists (Z.to_nat L, length (filter (λ y, y = Z.to_nat L) (length <$> sentences))).
    simpl. split; [lia|]. apply list_elem_of_filter. simpl. split.
    + rewrite Hcount. by rewrite Z2Nat.id by lia.
    + apply elem_of_lookup_imap. eexists _, _. split; [done|].
      apply lookup_bincount. split; [|done]. exists (length s).
      split; [by apply list_elem_of_fmap_2|]. unfold len in HL. lia.
Qed.

Lemma derive_buckets_sorted sentences bs :
  StronglySorted Z.lt (derive_buckets sentences bs).
Proof.
  unfold derive_buckets.
  exact (enumerate_filter_sorted (λ c, bs ≤ Z.of_nat c)
           (bincount (length <$> sentences)) 0).
Qed.

Lemma sorted_lt_le (l : list Z) : StronglySorted Z.lt l → StronglySorted Z.le l.
Proof.
  induction 1 as [|x l _ IH Hx]; constructor; [done|].
  eapply Forall_impl; [exact Hx|]. simpl. lia.
Qed.

Lemma sorted_le_NoDup_lt (l : list Z) :
  StronglySorted Z.le l → NoDup l → StronglySorted Z.lt l.
Proof.
  induction 1 as [|x l _ IH Hx]; intros Hnd; [constructor|].
  apply NoDup_cons in Hnd as [Hx' Hnd]. constructor; [by apply IH|].
  apply Forall_forall. intros y Hy. rewrite Forall_forall in Hx.
  specialize (Hx y Hy). assert (x ≠ y) by (by intros ->). lia.
Qed.

Lemma count_len_positive sentences L :
  0 < count_len sentences L ↔ ∃ s, s ∈ sentences ∧ len s = L.
Proof.
  unfold count_len. split.
  - intros Hpos.
    destruct (filter (λ s, len s = L) sentences) as [|s l] eqn:Hf;
      [unfold len in Hpos; simpl in Hpos; lia|].
    assert (Hin : s ∈ filter (λ s, len s = L) sentences) by (rewrite Hf; left).
    apply list_elem_of_filter in Hin as [? ?]. by exists s.
  - intros (s & Hs & HL).
    assert (Hin : s ∈ filter (λ s, len s = L) sentences)
      by (by apply list_elem_of_filter).
    destruct (filter (λ s, len s = L) sentences); [by apply not_elem_of_nil in Hin|].
    unfold len. simpl. lia.
Qed.

(** C6, as amended. Without a [buckets] argument the bucket list is the
    strictly ascending list of the lengths, zero included, between 0 and
    the length of some sentence that at least [batch_size] sentences have;
    sorting leaves it as it is. For a positive [batch_size] it is the
    ascending list of the distinct sentence lengths that at least
    [batch_size] sentences have. *)
Theorem derive_buckets_spec sentences bs :
  StronglySorted Z.lt (derive_buckets sentences bs) ∧
  (∀ L, L ∈ derive_buckets sentences bs ↔
     (∃ s, s ∈ sentences ∧ 0 ≤ L ≤ len s) ∧ bs ≤ count_len sentences L) ∧
  py_sort (derive_buckets sentences bs) = derive_buckets sentences bs ∧
  (0 < bs → derive_buckets sentences bs = frequent_lengths sentences bs).
Proof.
  split; [apply derive_buckets_sorted|].
  split; [apply elem_of_derive_buckets|].
  split; [apply py_sort_id, sorted_lt_le, derive_buckets_sorted|].
  intros Hbs. apply sorted_lt_ext; [apply derive_buckets_sorted| |].
  - unfold frequent_lengths. apply sorted_lt_filter, sorted_le_NoDup_lt.
    + apply (StronglySorted_merge_sort Z.le).
    + rewrite merge_sort_Permutation. apply NoDup_remove_dups.
  - intros L. rewrite elem_of_derive_buckets. unfold frequent_lengths.
    rewrite list_elem_of_filter, merge_sort_Permutation, elem_of_remove_dups,
      list_elem_of_fmap.
    split.
    + intros [_ Hc]. split; [done|].
      destruct (proj1 (count_len_positive sentences L)) as (s & Hs & HL); [lia|].
      by exists s.
    + intros [Hc (s & -> & Hs)]. split; [|done].
      exists s. unfold len. split; [done|lia].
Qed.

Lemma derive_buckets_counterexample :
  derive_buckets [[]] 1 = [0] ∧
  derive_buckets [[]] 1 ≠ positive_frequent_lengths [[]] 1.
Proof. split; [reflexivity|]. vm_compute. discriminate. Qed.

Lemma derive_buckets_spec_witness :
  derive_buckets [[1; 2]; [3]; [4; 5]; []] 1
    = frequent_lengths [[1; 2]; [3]; [4; 5]; []] 1.
Proof.
  apply (proj2 (proj2 (proj2
           (derive_buckets_spec [[1; 2]; [3]; [4; 5]; []] 1)))).
  lia.
Defined.

(** ** Concrete runs *)

(** The sentences [[ [] ]] with [batch_size = 1]: the table has one entry,
    the sum of the quotients is 1, and the only call of [next()] before the
    stop raises [IndexError]: no call emits a batch. *)
Lemma epoch_size_counterexample :
  ∃ out it0 h1,
    init (limits := int64_limits) id [] [[]] 1 (-1) None "data" "softmax_label"
        = (out, inr it0, h1) ∧
    idx it0 = [(0%nat, 0)] ∧
    epoch_size 1 (data it0) = 1 ∧
    next_n id (λ _ _, 0) 2 h1 it0 = [Raised IndexError; Stop] ∧
    Z.of_nat (successes (next_n id (λ _ _, 0) 2 h1 it0))
      ≠ epoch_size 1 (data it0).
Proof. eexists _, _, _. split; [reflexivity|]. by vm_compute. Qed.

Lemma epoch_size_spec_witness :
  ∃ out it0 h1,
    init (limits := int64_limits) id [] [[1; 2]; [3]; [1; 3; 2; 1]; [4]] 1 (-1)
        None "data" "softmax_label"
      = (out, inr it0, h1) ∧
    idx it0 = index_spec 1 (data it0) ∧
    ∀ it,
      (it = it0 ∨
       ∃ calls g_py g_np,
         it = (reset g_py g_np (run id (λ _ _, 0) h1 it0 calls)).1.1) →
      ∃ outs,
        next_n id (λ _ _, 0) (S (Z.to_nat (epoch_size 1 (data it0)))) h1 it
          = outs ++ [Stop] ∧
        Z.of_nat (length outs) = epoch_size 1 (data it0) ∧
        Forall (λ o, o ≠ Stop) outs ∧
        (Forall (zero_width_small 1) (data it0) → Forall is_emitted outs).
Proof.
  eexists _, _, _. split; [reflexivity|].
  eapply (epoch_size_spec (limits := int64_limits) id (λ _ _, 0) [] [[1; 2];
      [3]; [1; 3; 2; 1]; [4]] 1
           (-1) None "data" "softmax_label"); [lia|reflexivity].
Defined.

Lemma init_empty_derivation_raises_witness :
  init (limits := int64_limits) id [] [[1; 2]; [3]] 2 (-1) None "data"
      "softmax_label"
    = ([Discarded 2], inl ValueError, [[]]).
Proof.
  apply (init_empty_derivation_raises (limits := int64_limits) id [] [[1; 2];
      [3]] 2 (-1)
           "data" "softmax_label").
  reflexivity.
Defined.

Lemma init_sorts_callers_list_witness :
  (∃ out r,
     init (limits := int64_limits) id [[7]; [5; 2; 9]] [[1; 2]; [3]] 1 (-1)
         (Some 1%nat) "data" "softmax_label"
       = (out, r, [[7]; [2; 5; 9]]) ∧
     StronglySorted Z.le (py_sort [5; 2; 9]) ∧
     py_sort [5; 2; 9] ≡ₚ [5; 2; 9] ∧
     (∀ it : iter Z, r = inr it → buckets it = 1%nat)) ∧
  (init (limits := int64_limits) id [[7]; []] [[1; 2]; [3]] 1 (-1) (Some 1%nat)
      "data" "softmax_label"
     = init (limits := int64_limits) id [[7]; []] [[1; 2]; [3]] 1 (-1) None
         "data" "softmax_label" ∧
   (init (limits := int64_limits) id [[7]; []] [[1; 2]; [3]] 1 (-1) None "data"
       "softmax_label").2
     !! 1%nat = Some []).
Proof.
  split.
  - apply (proj1 (init_sorts_callers_list id [[7]; [5; 2; 9]] [[1; 2]; [3]] 1
                    (-1) 1%nat "data" "softmax_label") 5 [2; 9]).
    reflexivity.
  - apply (proj2 (init_sorts_callers_list id [[7]; []] [[1; 2]; [3]] 1
                    (-1) 1%nat "data" "softmax_label")).
    reflexivity.
Defined.

End IterFacts.

(** * Part VI: further properties of [encode_sentences] *)

Module EncoderMore.
Import Encoder Notions MoreNotions EncoderFacts.

#[local] Set Warnings "-clear-no-such-hyp".

(** ** The loops, sentence after sentence and token after token *)

Lemma for_each_app {A B} (body : A → M B) l1 l2 s :
  for_each body (l1 ++ l2) s =
    match for_each body l1 s with
    | (inl e, s1) => (inl e, s1)
    | (inr r1, s1) =>
        match for_each body l2 s1 with
        | (inl e, s2) => (inl e, s2)
        | (inr r2, s2) => (inr (r1 ++ r2), s2)
        end
    end.
Proof.
  revert s. induction l1 as [|x l1 IH]; intros s.
  - simpl. unfold ret. by destruct (for_each body l2 s) as [[e|r2] s2].
  - rewrite <- app_comm_cons, !for_each_cons.
    destruct (body x s) as [[e|y] s1]; [done|]. rewrite IH.
    destruct (for_each body l1 s1) as [[e|r1] s2]; [done|].
    by destruct (for_each body l2 s2) as [[e|r2] s3].
Qed.

(** The nested loops do to the state what one loop over all the tokens
    does. *)
Lemma for_each_concat {A B} (body : A → M B) (ls : list (list A)) s :
  match for_each (for_each body) ls s with
  | (inl e, s') => for_each body (concat ls) s = (inl e, s')
  | (inr rs, s') => for_each body (concat ls) s = (inr (concat rs), s')
  end.
Proof.
  revert s. induction ls as [|l ls IH]; intros s; [done|].
  rewrite for_each_cons. cbn [concat]. rewrite for_each_app.
  destruct (for_each body l s) as [[e|r] s1]; [done|].
  specialize (IH s1).
  destruct (for_each (for_each body) ls s1) as [[e|rs] s2]; by rewrite IH.
Qed.

(** ** First occurrences *)

Lemma new_tokens_fresh seen ws w : w ∈ new_tokens seen ws → w ∉ seen.
Proof.
  revert seen. induction ws as [|x ws IH]; intros seen; simpl.
  - by intros ?%not_elem_of_nil.
  - destruct (decide (x ∈ seen)); [apply IH|].
    intros [->|Hin]%elem_of_cons; [done|].
    apply IH in Hin. set_solver.
Qed.

Lemma new_tokens_NoDup seen ws : NoDup (new_tokens seen ws).
Proof.
  revert seen. induction ws as [|x ws IH]; intros seen; simpl.
  - constructor.
  - destruct (decide (x ∈ seen)); [apply IH|].
    constructor; [|apply IH].
    intros Hin%new_tokens_fresh. set_solver.
Qed.

Lemma new_tokens_set seen ws :
  list_to_set (new_tokens seen ws) ∪ seen = list_to_set ws ∪ seen.
Proof.
  revert seen. induction ws as [|x ws IH]; intros seen; simpl; [done|].
  destruct (decide (x ∈ seen)).
  - rewrite IH. set_solver.
  - cbn [list_to_set foldr]. specialize (IH ({[x]} ∪ seen)).
    rewrite !(comm_L (∪) {[x]} (list_to_set _)), <- !(assoc_L (∪)).
    exact IH.
Qed.

Lemma new_tokens_app seen l1 l2 :
  new_tokens seen (l1 ++ l2) =
    new_tokens seen l1 ++
    new_tokens (list_to_set (new_tokens seen l1) ∪ seen) l2.
Proof.
  revert seen. induction l1 as [|x l1 IH]; intros seen; simpl.
  - f_equal. set_solver.
  - destruct (decide (x ∈ seen)); [apply IH|].
    simpl. f_equal. rewrite IH. do 2 f_equal. set_solver.
Qed.

(** ** The allocation of the indices *)

Lemma nth_index_next start invalid k :
  nth_index start invalid k =
    (if decide (next_index start invalid k = invalid)
     then next_index start invalid k + 1 else next_index start invalid k) ∧
  next_index start invalid (S k) = nth_index start invalid k + 1.
Proof.
  unfold nth_index, next_index. repeat case_decide; lia.
Qed.

Lemma nth_index_inj start invalid k1 k2 :
  nth_index start invalid k1 = nth_index start invalid k2 → k1 = k2.
Proof. unfold nth_index. repeat case_decide; lia. Qed.

Lemma alloc_inv_initial start invalid key :
  alloc_inv start invalid key []
    {| vocab := {[ key := invalid ]}; idx := start |}.
Proof.
  unfold alloc_inv. simpl. split; [apply lookup_singleton_eq|].
  split; [rewrite dom_singleton_L; set_solver|].
  split; [constructor|]. split; [apply not_elem_of_nil|].
  split; [done|]. unfold next_index. case_decide; simpl in *; lia.
Qed.

Lemma encode_word_alloc start invalid key news w s :
  alloc_inv start invalid key news s →
  ∃ c s', encode_word true invalid w s = (inr c, s') ∧
    alloc_inv start invalid key (news ++ new_tokens (dom (vocab s)) [w]) s'.
Proof.
  intros (Hkey & Hdom & Hnd & Hk & Hnews & Hidx).
  unfold encode_word, bind, get_vocab, when, load. simpl.
  destruct (vocab s !! w) as [c|] eqn:Hw.
  - rewrite bool_decide_eq_false_2 by congruence. simpl. rewrite Hw.
    exists c, s. split; [done|].
    rewrite decide_True by (apply elem_of_dom; eauto).
    rewrite app_nil_r. by repeat split.
  - rewrite bool_decide_eq_true_2 by done. simpl.
    destruct (nth_index_next start invalid (length news)) as [Hnth Hnext].
    rewrite <- Hidx in Hnth.
    assert (Hrun : (if bool_decide (idx s = invalid)
                    then set_idx (idx s + 1) else ret tt) s
                   = (inr tt, {| vocab := vocab s;
                                 idx := nth_index start invalid (length news) |})).
    { rewrite Hnth. case_bool_decide.
      - rewrite decide_True by done. done.
      - rewrite decide_False by done. by destruct s. }
    rewrite Hrun. simpl. rewrite lookup_insert_eq.
    assert (Hfresh : w ∉ dom (vocab s)) by (by apply not_elem_of_dom).
    rewrite decide_False by done.
    eexists _, _. split; [reflexivity|]. unfold alloc_inv. simpl.
    assert (Hwk : w ≠ key) by (intros ->; congruence).
    assert (Hwn : w ∉ news) by (rewrite Hdom in Hfresh; set_solver).
    split; [by rewrite lookup_insert_ne|].
    split; [rewrite dom_insert_L, Hdom, list_to_set_app_L; set_solver|].
    split; [apply NoDup_app; repeat split; [done| |apply NoDup_singleton];
            intros x Hx ->%list_elem_of_singleton; done|].
    split; [rewrite elem_of_app, list_elem_of_singleton; naive_solver|].
    split.
    + intros k w' Hk'. apply lookup_app_Some in Hk' as [Hk'|[Hge Hk']].
      * rewrite lookup_insert_ne; [by apply Hnews|].
        intros <-. apply Hwn. by eapply list_elem_of_lookup_2.
      * apply list_lookup_singleton_Some in Hk' as [Hk0 <-].
        rewrite lookup_insert_eq. do 2 f_equal. lia.
    + rewrite length_app. simpl. rewrite Nat.add_1_r. by rewrite Hnext.
Qed.

Lemma encode_tokens_alloc start invalid key ws news s :
  alloc_inv start invalid key news s →
  ∃ cs s', for_each (encode_word true invalid) ws s = (inr cs, s') ∧
    alloc_inv start invalid key (news ++ new_tokens (dom (vocab s)) ws) s'.
Proof.
  revert news s. induction ws as [|w ws IH]; intros news s Hs.
  - exists [], s. simpl. by rewrite app_nil_r.
  - destruct (encode_word_alloc start invalid key news w s Hs)
      as (c & s1 & Hrun & Hs1).
    destruct (IH _ s1 Hs1) as (cs & s2 & Hrun2 & Hs2).
    exists (c :: cs), s2. rewrite for_each_cons, Hrun, Hrun2.
    split; [done|].
    change (w :: ws) with ([w] ++ ws). rewrite new_tokens_app, app_assoc.
    assert (dom (vocab s1)
            = list_to_set (new_tokens (dom (vocab s)) [w]) ∪ dom (vocab s))
      as <-; [|done].
    destruct Hs as (_ & Hd & _), Hs1 as (_ & Hd1 & _).
    rewrite Hd1, list_to_set_app_L, Hd. set_solver.
Qed.

Lemma encode_sentences_alloc sentences invalid key start :
  ∃ res v i,
    encode_sentences sentences None invalid key start = (inr (res, v), v) ∧
    Forall2 (Forall2 (λ w c, v !! w = Some c)) sentences res ∧
    injective_vocab v ∧
    alloc_inv start invalid key (new_tokens {[key]} (concat sentences))
      {| vocab := v; idx := i |}.
Proof.
  pose proof (enc_inv_initial invalid key start) as H0.
  destruct (encode_loop_open invalid key sentences _ H0)
    as (res & [v i] & Hrun & (_ & _ & Hinj) & _ & Hres).
  pose proof (for_each_concat (encode_word true invalid) sentences
                {| vocab := {[ key := invalid ]}; idx := start |}) as Hflat.
  unfold encode_loop in Hrun. rewrite Hrun in Hflat.
  destruct (encode_tokens_alloc start invalid key (concat sentences) [] _
              (alloc_inv_initial start invalid key)) as (cs & s' & Hrun' & Hs').
  rewrite Hflat in Hrun'. injection Hrun' as _ <-.
  simpl in Hs'. rewrite dom_singleton_L in Hs'.
  exists res, v, i. unfold encode_sentences, encode_loop. rewrite Hrun.
  done.
Qed.

(** X1. With [vocab=None] the tokens receive their indices in the order of
    their first occurrence in the stream of all the sentences: the token of
    rank [k] among the new ones (those other than [invalid_key]) receives
    [start_label + k], or one more from the rank at which [invalid_label]
    would have been reached; the dictionary has one entry per new token
    besides the reserved one. *)
Theorem encode_allocates_in_order sentences invalid key start :
  ∃ res v,
    encode_sentences sentences None invalid key start = (inr (res, v), v) ∧
    (∀ k w, new_tokens {[key]} (concat sentences) !! k = Some w →
            v !! w = Some (nth_index start invalid k)) ∧
    size v = S (length (new_tokens {[key]} (concat sentences))).
Proof.
  destruct (encode_sentences_alloc sentences invalid key start)
    as (res & v & i & Hrun & _ & _ & (_ & Hdom & Hnd & Hk & Hnews & _)).
  simpl in *. exists res, v. split; [done|]. split; [done|].
  rewrite <- size_dom, Hdom, size_union, size_singleton, size_list_to_set
    by (done || set_solver).
  done.
Qed.

(** X2. With [vocab=None] the keys of the returned dictionary are
    [invalid_key] and the tokens that occur in the sentences, nothing
    else. *)
Theorem encode_vocabulary_keys sentences invalid key start :
  ∃ res v,
    encode_sentences sentences None invalid key start = (inr (res, v), v) ∧
    dom v = {[key]} ∪ list_to_set (concat sentences).
Proof.
  destruct (encode_sentences_alloc sentences invalid key start)
    as (res & v & i & Hrun & _ & _ & (_ & Hdom & _)).
  simpl in *. exists res, v. split; [done|].
  rewrite Hdom, (comm_L (∪) {[key]}), new_tokens_set. apply (comm_L (∪)).
Qed.

(** X3. With [vocab=None], two positions of the result, in one sentence or
    in two, hold the same code exactly when the input holds the same token
    at these positions. *)
Theorem encode_same_code_same_token sentences invalid key start :
  ∃ res v,
    encode_sentences sentences None invalid key start = (inr (res, v), v) ∧
    ∀ i j i' j' ws ws' cs cs' (w w' : string) (c c' : Z),
      sentences !! i = Some ws → ws !! j = Some w →
      sentences !! i' = Some ws' → ws' !! j' = Some w' →
      res !! i = Some cs → cs !! j = Some c →
      res !! i' = Some cs' → cs' !! j' = Some c' →
      c = c' ↔ w = w'.
Proof.
  destruct (encode_sentences_alloc sentences invalid key start)
    as (res & v & i0 & Hrun & Hres & Hinj & _).
  exists res, v. split; [done|].
  intros i j i' j' ws ws' cs cs' w w' c c' Hws Hw Hws' Hw' Hcs Hc Hcs' Hc'.
  pose proof (Forall2_lookup_lr _ _ _ _ _ _ Hres Hws Hcs) as H1.
  pose proof (Forall2_lookup_lr _ _ _ _ _ _ Hres Hws' Hcs') as H2.
  pose proof (Forall2_lookup_lr _ _ _ _ _ _ H1 Hw Hc) as Hwc.
  pose proof (Forall2_lookup_lr _ _ _ _ _ _ H2 Hw' Hc') as Hwc'.
  simpl in *. split.
  - intros <-. by eapply Hinj.
  - intros <-. congruence.
Qed.

Lemma lookups_unique (v : gmap string Z) (sentences : list (list string))
    res res' :
  Forall2 (Forall2 (λ w c, v !! w = Some c)) sentences res →
  Forall2 (Forall2 (λ w c, v !! w = Some c)) sentences res' →
  res = res'.
Proof.
  intros H. revert res'. induction H as [|ws cs sentences res Hws _ IH];
    intros res' H'; inversion H' as [|? cs' ? res'' Hws' Hrest]; subst;
    [done|].
  f_equal; [|by apply IH]. clear -Hws Hws'.
  revert cs' Hws'. induction Hws as [|w c ws cs Hw _ IH]; intros cs' Hws';
    inversion Hws' as [|? c' ? cs'' Hw' Hrest]; subst; [done|].
  f_equal; [congruence|by apply IH].
Qed.

(** X4. The dictionary returned with [vocab=None] can be reused: encoding
    the same sentences again with it supplied gives the same codes and
    leaves it as it is, whatever the other arguments then are. *)
Theorem encode_reuse sentences invalid key start res v :
  encode_sentences sentences None invalid key start = (inr (res, v), v) →
  ∀ invalid' key' start',
    encode_sentences sentences (Some v) invalid' key' start'
      = (inr (res, v), v).
Proof.
  intros Hrun invalid' key' start'.
  destruct (encode_sentences_alloc sentences invalid key start)
    as (res0 & v0 & i & Hrun0 & Hres & _).
  rewrite Hrun in Hrun0. injection Hrun0 as <- <-.
  unfold encode_sentences.
  destruct (encode_loop_closed invalid' sentences
              {| vocab := v; idx := start' |})
    as [(_ & res' & Hrun' & Hres')|(w & Hfirst & _)]; simpl in *.
  - rewrite Hrun'. simpl. by rewrite (lookups_unique v sentences res res').
  - exfalso. destruct Hfirst as (pre & post & Hsplit & _ & Hw).
    assert (Hin : w ∈ concat sentences)
      by (rewrite Hsplit, elem_of_app; right; left).
    clear -Hres Hin Hw. induction Hres as [|ws cs ss rs Hws _ IH]; simpl in Hin.
    + by apply not_elem_of_nil in Hin.
    + apply elem_of_app in Hin as [Hin|Hin]; [|by apply IH].
      apply list_elem_of_lookup in Hin as [j Hj].
      destruct (Forall2_lookup_l _ _ _ _ _ Hws Hj) as (c & _ & Hc).
      simpl in Hc. congruence.
Qed.

(** X5. Encoding is stable under extension of the input: with [vocab=None],
    the codes of the first sentences are the same whether or not more
    sentences follow, and the dictionary of the longer input extends the
    dictionary of the shorter one. *)
Theorem encode_prefix_stable s1 s2 invalid key start :
  ∃ res1 v1 res2 v,
    encode_sentences s1 None invalid key start = (inr (res1, v1), v1) ∧
    encode_sentences (s1 ++ s2) None invalid key start
      = (inr (res1 ++ res2, v), v) ∧
    v1 ⊆ v ∧ length res2 = length s2.
Proof.
  pose proof (enc_inv_initial invalid key start) as H0.
  destruct (encode_loop_open invalid key s1 _ H0)
    as (res1 & [v1 i1] & Hrun1 & Hinv1 & _ & _).
  destruct (encode_loop_open invalid key s2 _ Hinv1)
    as (res2 & [v i] & Hrun2 & _ & Hsub & Hres2).
  exists res1, v1, res2, v. unfold encode_sentences, encode_loop in *.
  rewrite for_each_app, Hrun1, Hrun2. simpl.
  split; [done|]. split; [done|]. split; [done|].
  symmetry. by eapply Forall2_length.
Qed.

Lemma first_absent_unique v ws w w' :
  first_absent v ws w → first_absent v ws w' → w = w'.
Proof.
  intros (pre & post & -> & Hpre & Hw) (pre' & post' & Heq & Hpre' & Hw').
  revert pre' Heq Hpre'. induction pre as [|x pre IH]; intros pre' Heq Hpre'.
  - destruct pre' as [|x' pre']; simplify_eq/=; [done|].
    apply Forall_cons in Hpre' as [[c Hc] _]. congruence.
  - destruct pre' as [|x' pre']; simplify_eq/=.
    + apply Forall_cons in Hpre as [[c Hc] _]. congruence.
    + apply Forall_cons in Hpre as [_ Hpre].
      apply Forall_cons in Hpre' as [_ Hpre']. by eapply IH.
Qed.

(** X6. With a supplied dictionary the arguments [invalid_label],
    [invalid_key] and [start_label] have no effect: the reserved entry is
    neither added nor checked. *)
Theorem encode_closed_ignores_reserved
    sentences v0 invalid key start invalid' key' start' :
  encode_sentences sentences (Some v0) invalid key start
    = encode_sentences sentences (Some v0) invalid' key' start'.
Proof.
  unfold encode_sentences.
  destruct (encode_loop_closed invalid sentences
              {| vocab := v0; idx := start |})
    as [(Hall & res & Hrun & Hres)|(w & Hfirst & Hrun)];
  destruct (encode_loop_closed invalid' sentences
              {| vocab := v0; idx := start' |})
    as [(Hall' & res' & Hrun' & Hres')|(w' & Hfirst' & Hrun')];
  rewrite Hrun, Hrun'; simpl in *.
  - by rewrite (lookups_unique v0 sentences res res').
  - exfalso. by eapply first_absent_not_all.
  - exfalso. by eapply first_absent_not_all.
  - by rewrite (first_absent_unique _ _ _ _ Hfirst Hfirst').
Qed.

Lemma encode_reuse_witness :
  encode_sentences [["a"; "b"]; ["c"]; ["a"; "c"; "b"; "a"]]
    (Some (<["c" := 3]> (<["b" := 2]> (<["a" := 0]> {[ "eos" := 1 ]}))))
    (-1) "pad" 7
  = (inr ([[0; 2]; [3]; [0; 3; 2; 0]],
          <["c" := 3]> (<["b" := 2]> (<["a" := 0]> {[ "eos" := 1 ]}))),
     <["c" := 3]> (<["b" := 2]> (<["a" := 0]> {[ "eos" := 1 ]}))).
Proof.
  apply (encode_reuse [["a"; "b"]; ["c"]; ["a"; "c"; "b"; "a"]] 1 "eos" 0).
  reflexivity.
Defined.

End EncoderMore.

(** * Part VII: further properties of [BucketSentenceIter] *)

Module IterMore.
Import BucketIter IterNotions MoreNotions IterFacts.

(** ** The index table for other batch sizes *)

Lemma py_range_negative_step (n : nat) bs :
  bs < 0 → py_range 0 (Z.of_nat n - bs + 1) bs = inr [].
Proof.
  intros Hbs. unfold py_range.
  rewrite decide_False, decide_False, decide_False by lia. done.
Qed.

Section Outcome.
Context {elt : Type} (astype : Z → elt) (uninit : nat → nat → elt).
Context {limits : Limits}.
Implicit Types (a : ndarray elt) (data : list (ndarray elt)) (it : iter elt).

Lemma index_from_negative i data bs :
  bs < 0 → index_from i data bs = inr [].
Proof.
  intros Hbs. revert i. induction data as [|a data IH]; intros i; [done|].
  cbn [index_from]. by rewrite py_range_negative_step, IH.
Qed.

Lemma index_from_zero i a data :
  index_from i (a :: data) 0 = inl ValueError.
Proof. reflexivity. Qed.

(** The constructor after the bucket list is bound. When [numpy] accepts
    every buffer the warning is printed, and the constructor raises exactly
    when the list is empty or the batch size is 0, and then [ValueError];
    otherwise the bucketing loop raises and nothing is printed. *)
Lemma init_after_bind h sentences bs inv arg dn ln l bl h1 :
  bind_buckets h arg sentences bs = inr (l, bl, h1) →
  ∃ out r, init astype h sentences bs inv arg dn ln = (out, r, h1) ∧
    ((Forall (λ s, ∀ w, bl !! bisect_left bl (len s) = Some w →
                       within_limits w inv s) sentences ∧
      (∃ nd, out = [Discarded nd]) ∧
      (bl = [] ∨ bs = 0 → r = inl ValueError) ∧
      (bl ≠ [] → bs ≠ 0 → ∃ it, r = inr it)) ∨
     (¬ Forall (λ s, ∀ w, bl !! bisect_left bl (len s) = Some w →
                         within_limits w inv s) sentences ∧
      out = [] ∧ (r = inl ValueError ∨ r = inl OverflowError))).
Proof.
  intros Hbind. unfold init. rewrite Hbind.
  destruct (bind_buckets_inr _ _ _ _ _ _ _ Hbind) as [Hs Hl].
  destruct (fill_buckets_outcome astype bl inv sentences Hs)
    as [[Hok [[rows nd] Hfill]]|[Hno [-> | ->]]].
  2: { eexists _, _. split; [reflexivity|]. right. by auto. }
  2: { eexists _, _. split; [reflexivity|]. right. by auto. }
  rewrite Hfill.
  destruct (fill_buckets_sorted astype bl inv sentences rows nd Hs Hfill)
    as (_ & Hlen & _).
  destruct bl as [|w bl].
  { eexists _, _. split; [reflexivity|]. left. split; [done|].
    split; [by eexists|]. split; [done|]. by intros []. }
  destruct rows as [|r rows]; [done|].
  cbn [py_max]. rewrite fmap_cons. unfold build_index.
  destruct (decide (bs = 0)) as [->|Hne].
  - rewrite index_from_zero. eexists _, _. split; [reflexivity|]. left.
    split; [done|]. split; [by eexists|]. split; [done|]. by intros _ [].
  - destruct (decide (0 < bs)).
    + rewrite index_from_spec by done. eexists _, _. split; [reflexivity|].
      left. split; [done|]. split; [by eexists|].
      split; [intros [|]; done|]. intros _ _. by eexists.
    + rewrite index_from_negative by lia. eexists _, _.
      split; [reflexivity|]. left. split; [done|]. split; [by eexists|].
      split; [intros [|]; done|]. intros _ _. by eexists.
Qed.

Lemma bind_buckets_total h arg sentences bs :
  (arg = None ∨ ∃ l bl, arg = Some l ∧ h !! l = Some bl) →
  ∃ l bl h1, bind_buckets h arg sentences bs = inr (l, bl, h1).
Proof.
  unfold bind_buckets, alloc. intros [->|(l & bl & -> & Hl)].
  - by eexists _, _, _.
  - rewrite Hl. destruct bl; by eexists _, _, _.
Qed.

(** [numpy] accepts every buffer when all the widths are within the largest
    extent and the padding value and all the cells can be stored. *)
Lemma within_limits_all (bl : list Z) inv (sentences : list (list Z)) :
  Forall (λ w, w ≤ max_dim) bl → storable inv = true →
  Forall (Forall (λ c, storable c = true)) sentences →
  Forall (λ s, ∀ w, bl !! bisect_left bl (len s) = Some w →
                   within_limits w inv s) sentences.
Proof.
  intros Hdim Hinv Hcells. eapply Forall_impl; [exact Hcells|].
  intros s Hs w Hw. split; [|done].
  rewrite Forall_forall in Hdim. apply Hdim. by eapply list_elem_of_lookup_2.
Qed.

(** X7. A batch size of 0 never builds an iterator: whatever the sentences
    and the buckets, the constructor raises. The exception is [ValueError]
    or [OverflowError]; once the warning is printed it is [ValueError]
    (from [max] of an empty bucket list, or else from [range] with a step
    of 0), and before that it comes from [numpy] in the bucketing loop. *)
Theorem init_batch_size_zero h sentences inv arg dn ln :
  (arg = None ∨ ∃ l bl, arg = Some l ∧ h !! l = Some bl) →
  ∃ out e h1,
    init astype h sentences 0 inv arg dn ln = (out, inl e, h1) ∧
    (e = ValueError ∨ e = OverflowError) ∧
    (out ≠ [] → e = ValueError).
Proof.
  intros Harg.
  destruct (bind_buckets_total h arg sentences 0 Harg) as (l & bl & h1 & Hb).
  destruct (init_after_bind h sentences 0 inv arg dn ln l bl h1 Hb)
    as (out & r & Hinit & [(_ & _ & Herr & _)|(_ & -> & [-> | ->])]).
  - exists out, ValueError, h1. rewrite Hinit, Herr by (by right).
    split; [done|]. split; [by left|done].
  - exists [], ValueError, h1. split; [done|]. split; [by left|done].
  - exists [], OverflowError, h1. split; [done|]. split; [by right|done].
Qed.

(** X8. With a supplied bucket list that is not empty and a batch size
    other than 0, the constructor builds an iterator as soon as [numpy]
    accepts the arrays (no width beyond the largest extent, a padding value
    and cells that the element type can take), whatever else the widths
    are, negative, zero or repeated, and however long the sentences
    are. *)
Theorem init_supplied_succeeds h sentences bs inv l b bl dn ln :
  h !! l = Some (b :: bl) → bs ≠ 0 →
  Forall (λ w, w ≤ max_dim) (b :: bl) → storable inv = true →
  Forall (Forall (λ c, storable c = true)) sentences →
  ∃ out it,
    init astype h sentences bs inv (Some l) dn ln
      = (out, inr it, <[l := py_sort (b :: bl)]> h).
Proof.
  intros Hl Hbs Hdim Hinv Hcells.
  assert (Hbind : bind_buckets h (Some l) sentences bs
            = inr (l, py_sort (b :: bl), <[l := py_sort (b :: bl)]> h)).
  { unfold bind_buckets. by rewrite Hl. }
  destruct (init_after_bind h sentences bs inv (Some l) dn ln _ _ _ Hbind)
    as (out & r & Hinit & [(_ & _ & _ & Hok)|(Hno & _)]).
  - destruct Hok as [it ->]; [|done|by exists out, it].
    intros Hnil. pose proof (py_sort_perm (b :: bl)) as Hp.
    rewrite Hnil in Hp. by apply Permutation_nil in Hp.
  - destruct Hno. apply within_limits_all; [|done..].
    by rewrite py_sort_perm.
Qed.

End Outcome.

Lemma shuffle_nil {A} g : shuffle g (@nil A) = ([], g).
Proof. reflexivity. Qed.

Lemma sum_length_alter {A} (rows : list (list A)) b x :
  (b < length rows)%nat →
  sum_list (length <$> alter (λ r, r ++ [x]) b rows)
    = S (sum_list (length <$> rows)).
Proof.
  revert b. induction rows as [|r rows IH]; intros b Hb; simpl in Hb; [lia|].
  destruct b as [|b].
  - simpl. rewrite length_app. simpl. lia.
  - change (alter (λ r, r ++ [x]) (S b) (r :: rows))
      with (r :: alter (λ r, r ++ [x]) b rows).
    rewrite !fmap_cons. unfold sum_list in *. cbn [sum_list_with].
    rewrite IH by lia. lia.
Qed.

Lemma length_filter_le {A} (P Q : A → Prop) `{∀ x, Decision (P x)}
    `{∀ x, Decision (Q x)} (l : list A) :
  (∀ x, P x → Q x) → (length (filter P l) ≤ length (filter Q l))%nat.
Proof.
  intros HPQ. induction l as [|x l IH]; [done|].
  rewrite !filter_cons. destruct (decide (P x)) as [HP|HP].
  - rewrite decide_True by auto. simpl. lia.
  - destruct (decide (Q x)); simpl; lia.
Qed.

Lemma sorted_lookup_lt (a : list Z) i j wi wj :
  StronglySorted Z.lt a → (i < j)%nat →
  a !! i = Some wi → a !! j = Some wj → wi < wj.
Proof.
  intros Hs. revert i j. induction Hs as [|x a _ IH Hx]; intros i j Hij Hi Hj;
    [done|].
  destruct i as [|i], j as [|j]; simplify_eq/=; try lia.
  - rewrite Forall_forall in Hx. apply Hx. by eapply list_elem_of_lookup_2.
  - eapply IH; [|done..]. lia.
Qed.

(** On a strictly ascending list a width that occurs is found where it
    is. *)
Lemma bisect_left_exact (bl : list Z) b w :
  StronglySorted Z.lt bl → bl !! b = Some w → bisect_left bl w = b.
Proof.
  intros Hs Hb.
  destruct (bisect_left_spec bl w (sorted_lt_le bl Hs)) as (Hle & Hbelow & Habove).
  destruct (lt_eq_lt_dec (bisect_left bl w) b) as [[Hlt|Heq]|Hgt]; [|done|].
  - destruct (lookup_lt_is_Some_2 bl (bisect_left bl w)) as [w' Hw'];
      [apply lookup_lt_Some in Hb; lia|].
    assert (w ≤ w') by (by eapply Habove).
    assert (w' < w); [|lia]. by eapply sorted_lookup_lt.
  - assert (w < w); [|lia]. by eapply Hbelow.
Qed.

Section Storage.
Context {elt : Type} (astype : Z → elt) (uninit : nat → nat → elt).
Context {limits : Limits}.
Implicit Types (a : ndarray elt) (data : list (ndarray elt)) (it : iter elt).

(** ** No sentence is lost *)

Lemma place_all_count bl invalid_label sentences rows nd rows' nd' :
  StronglySorted Z.le bl → length rows = length bl →
  place_all astype bl invalid_label (rows, nd) sentences = inr (rows', nd') →
  Z.of_nat (sum_list (length <$> rows')) + nd'
    = Z.of_nat (sum_list (length <$> rows)) + nd + len sentences ∧ nd ≤ nd'.
Proof.
  intros Hs. revert rows nd. unfold len.
  induction sentences as [|s sentences IH]; intros rows nd Hlen.
  - simpl. intros [= <- <-]. lia.
  - rewrite place_all_cons.
    destruct (place_sorted astype bl invalid_label rows nd s Hs)
      as [(Hb & ->)|(w & Hw & Hfit & [[_ ->]|[_ [-> | ->]]])];
      [| |done..]; intros Hrun.
    + destruct (IH rows (nd + 1) Hlen Hrun). simpl. lia.
    + apply IH in Hrun as [Hrun ?]; [|by rewrite length_alter].
      rewrite sum_length_alter in Hrun
        by (apply lookup_lt_Some in Hw; lia). simpl. lia.
Qed.

Lemma total_rows_asarray (rows : list (list (list elt))) :
  total_rows (asarray <$> rows) = Z.of_nat (sum_list (length <$> rows)).
Proof.
  unfold total_rows. induction rows as [|r rows IH]; [done|].
  rewrite !fmap_cons. cbn [foldr sum_list sum_list_with]. rewrite IH.
  destruct r; simpl; lia.
Qed.

(** X9. No sentence is lost or stored twice: after a successful
    construction the rows of all the buckets and the discarded sentences
    (the count printed) add up to the number of sentences. *)
Theorem init_conserves_sentences h sentences bs inv arg dn ln out it h1 :
  init astype h sentences bs inv arg dn ln = (out, inr it, h1) →
  ∃ nd, out = [Discarded nd] ∧ 0 ≤ nd ∧
    total_rows (data it) + nd = len sentences.
Proof.
  unfold init.
  destruct (bind_buckets h arg sentences bs) as [e|[[l bl] h']] eqn:Hbind;
    [done|].
  destruct (bind_buckets_inr _ _ _ _ _ _ _ Hbind) as [Hs Hl].
  destruct (fill_buckets astype bl inv sentences) as [e|[rows nd]] eqn:Hfill;
    [done|].
  destruct (py_max bl) as [e|key]; [done|].
  destruct (build_index (asarray <$> rows) bs) as [e|table]; [done|].
  intros [= <- <- <-]. simpl. exists nd. split; [done|].
  unfold fill_buckets in Hfill.
  apply place_all_count in Hfill as [Hsum Hnd];
    [|done|by rewrite length_replicate].
  rewrite total_rows_asarray. split; [done|].
  assert (sum_list (length <$> replicate (length bl) (@nil (list elt))) = 0%nat)
    as Hz; [|lia].
  clear. induction (length bl); [done|]. simpl. done.
Qed.

(** ** Without a [buckets] argument *)

Lemma bind_buckets_none h sentences bs :
  bind_buckets h None sentences bs
    = inr (length h, derive_buckets sentences bs,
           h ++ [derive_buckets sentences bs]).
Proof.
  unfold bind_buckets, alloc.
  rewrite py_sort_id by apply sorted_lt_le, derive_buckets_sorted.
  rewrite insert_app_r_alt by done. by rewrite Nat.sub_diag.
Qed.

(** X10. Without a [buckets] argument the constructor changes no list of
    the caller: when it ends, with an iterator or with an exception, the
    store holds one more list, the derived buckets, and the iterator built
    refers to that new list. *)
Theorem init_derived_store h sentences bs inv dn ln :
  ∃ out r,
    init astype h sentences bs inv None dn ln
      = (out, r, h ++ [derive_buckets sentences bs]) ∧
    ∀ it, r = inr it → buckets it = length h.
Proof.
  destruct (init_after_bind astype h sentences bs inv None dn ln _ _ _
              (bind_buckets_none h sentences bs)) as (out & r & Hinit & _).
  exists out, r. split; [done|]. intros it ->.
  destruct (init_inr _ _ _ _ _ _ _ _ _ _ _ Hinit) as (bl & Hb & _).
  rewrite bind_buckets_none in Hb. by injection Hb as -> _.
Qed.

(** The derived widths are lengths of sentences: [numpy] accepts every
    buffer when no sentence is longer than the largest extent and the
    padding value and all the cells can be stored. *)
Lemma within_limits_derived sentences bs inv :
  Forall (λ s, len s ≤ max_dim) sentences → storable inv = true →
  Forall (Forall (λ c, storable c = true)) sentences →
  Forall (λ s, ∀ w,
            derive_buckets sentences bs
              !! bisect_left (derive_buckets sentences bs) (len s) = Some w →
            within_limits w inv s) sentences.
Proof.
  intros Hlen Hinv Hcells. eapply Forall_impl; [exact Hcells|].
  intros s Hs w Hw. split; [|done].
  apply list_elem_of_lookup_2, elem_of_derive_buckets in Hw
    as [(s' & Hin & Hle) _].
  rewrite Forall_forall in Hlen. specialize (Hlen _ Hin). lia.
Qed.

(** A derived bucket receives the sentences of exactly its width, which
    are [bs] at least. *)
Lemma derived_bucket_count sentences bs inv b w :
  derive_buckets sentences bs !! b = Some w →
  bs ≤ Z.of_nat (alen (asarray (bucket_rows astype
                         (derive_buckets sentences bs) inv sentences b w))).
Proof.
  intros Hw.
  assert (Hcw : bs ≤ count_len sentences w).
  { apply list_elem_of_lookup_2 in Hw as Hwin.
    by apply elem_of_derive_buckets in Hwin as [_ ?]. }
  assert (alen (asarray (bucket_rows astype (derive_buckets sentences bs)
                           inv sentences b w))
          = length (filter (λ s, bisect_left (derive_buckets sentences bs)
                                    (len s) = b) sentences)) as ->.
  { unfold bucket_rows. rewrite <- (length_fmap (row_of astype w inv)).
    by destruct (row_of astype w inv <$> _). }
  etrans; [exact Hcw|]. unfold count_len, len. apply inj_le.
  apply length_filter_le. intros s' <-.
  apply bisect_left_exact; [apply derive_buckets_sorted|done].
Qed.

(** X11. Without a [buckets] argument and with a positive batch size, as
    soon as some length is shared by [batch_size] sentences, and [numpy]
    accepts the arrays (no sentence longer than the largest extent, a
    padding value and cells that the element type can take), the
    constructor builds an iterator, and every bucket of it holds at least
    [batch_size] rows: each bucket has a batch at offset 0 in the index
    table. *)
Theorem init_derived_buckets_full h sentences bs inv dn ln :
  0 < bs →
  (∃ s, s ∈ sentences ∧ bs ≤ count_len sentences (len s)) →
  Forall (λ s, len s ≤ max_dim) sentences → storable inv = true →
  Forall (Forall (λ c, storable c = true)) sentences →
  ∃ out it,
    init astype h sentences bs inv None dn ln
      = (out, inr it, h ++ [derive_buckets sentences bs]) ∧
    data it ≠ [] ∧
    Forall (λ a, bs ≤ Z.of_nat (alen a)) (data it) ∧
    ∀ i, (i < length (data it))%nat → (i, 0) ∈ idx it.
Proof.
  intros Hbs (s & Hs & Hc) Hdim Hinv Hcells.
  pose proof (bind_buckets_none h sentences bs) as Hbind.
  assert (Hin : len s ∈ derive_buckets sentences bs).
  { apply elem_of_derive_buckets. split; [|done]. exists s. unfold len.
    split; [done|lia]. }
  destruct (init_after_bind astype h sentences bs inv None dn ln _ _ _ Hbind)
    as (out & r & Hinit & [(_ & _ & _ & Hok)|(Hno & _)]);
    [|by destruct Hno; apply within_limits_derived].
  destruct Hok as [it ->]; [by intros Hnil; rewrite Hnil in Hin;
                            apply not_elem_of_nil in Hin|lia|].
  exists out, it. split; [done|].
  destruct (init_inr _ _ _ _ _ _ _ _ _ _ _ Hinit)
    as (bl & Hb & _ & _ & _ & Hdata & _ & Hidx & _).
  rewrite Hbind in Hb. injection Hb as _ <-.
  rewrite build_index_spec in Hidx by done. injection Hidx as Hidx.
  assert (Hfull : Forall (λ a : ndarray elt, bs ≤ Z.of_nat (alen a)) (data it)).
  { rewrite Hdata. apply Forall_lookup. intros b a Ha.
    apply list_lookup_imap_Some in Ha as (w & Hw & ->).
    by apply derived_bucket_count. }
  split; [|split; [done|]].
  - rewrite Hdata. intros Hnil%(f_equal length).
    rewrite length_imap in Hnil. destruct (derive_buckets sentences bs);
      [by apply not_elem_of_nil in Hin|done].
  - intros i Hi. destruct (lookup_lt_is_Some_2 _ _ Hi) as [a Ha].
    pose proof (Forall_lookup_1 _ _ _ _ Hfull Ha) as Hfa. simpl in Hfa.
    rewrite <- Hidx. unfold index_spec. apply elem_of_concat.
    eexists. split; [by apply elem_of_lookup_imap_2|].
    apply list_elem_of_fmap. exists 0. split; [done|].
    apply elem_of_multiples_upto; [done|]. split; [lia|]. apply Z.mod_0_l. lia.
Qed.

(** ** The order of the supplied buckets *)

(** X12. The order in which the caller lists the buckets does not matter:
    two supplied lists with the same elements give the same iterator, the
    same printed count and leave the same sorted list behind. *)
Theorem init_bucket_order_irrelevant h sentences bs inv l bl bl' dn ln :
  h !! l = Some bl → bl ≡ₚ bl' →
  init astype (<[l := bl']> h) sentences bs inv (Some l) dn ln
    = init astype h sentences bs inv (Some l) dn ln.
Proof.
  intros Hl Hp. pose proof (lookup_lt_Some _ _ _ Hl) as Hlt.
  assert (Hsort : py_sort bl' = py_sort bl).
  { apply (StronglySorted_unique Z.le); [apply py_sort_sorted..|].
    by rewrite !py_sort_perm. }
  unfold init, bind_buckets. rewrite Hl, list_lookup_insert_eq by done.
  destruct bl as [|b bl].
  - apply Permutation_nil in Hp as ->. by rewrite list_insert_id.
  - destruct bl' as [|b' bl']; [by apply Permutation_nil_r in Hp|].
    by rewrite Hsort, list_insert_insert_eq.
Qed.

End Storage.

Section Lifetime.
Context {elt : Type} (astype : Z → elt) (uninit : nat → nat → elt).
Context {limits : Limits}.
Implicit Types (a : ndarray elt) (data : list (ndarray elt)) (it : iter elt).

Lemma arrays_permuted_refl data : Forall2 row_permuted data data.
Proof.
  apply Forall_Forall2_diag, Forall_forall. intros a _.
  apply row_permuted_refl.
Qed.

Lemma same_contents_refl it : same_contents it it.
Proof. split; [apply arrays_permuted_refl|]. by repeat split. Qed.

Lemma same_contents_trans it1 it2 it3 :
  same_contents it1 it2 → same_contents it2 it3 → same_contents it1 it3.
Proof.
  intros (Hd & Hi & ? & ? & ? & ? & ? & ? & ? & ?)
         (Hd' & Hi' & ? & ? & ? & ? & ? & ? & ? & ?).
  split; [eapply Forall2_trans; [apply row_permuted_trans|done..]|].
  split; [by etrans|]. repeat split; congruence.
Qed.

Lemma step_same_contents h it c :
  same_contents it (step astype uninit h it c).
Proof.
  destruct c as [g_py g_np|]; simpl.
  - destruct (reset_permutes g_py g_np it)
      as (_ & ? & ? & ? & ? & ? & ? & ? & ? & ? & ?).
    by repeat split.
  - destruct (next_state astype uninit h it) as [->| ->];
      [apply same_contents_refl|].
    split; [apply arrays_permuted_refl|]. by repeat split.
Qed.

Lemma run_same_contents h it calls :
  same_contents it (run astype uninit h it calls).
Proof.
  unfold run. revert it. induction calls as [|c calls IH]; intros it.
  - apply same_contents_refl.
  - simpl. eapply same_contents_trans; [apply step_same_contents|apply IH].
Qed.

(** X13. Whatever calls of [reset()] and [next()] are made, in any order
    and number, every bucket keeps its rows and its axes, the index table
    keeps its entries, and no attribute other than the cursor changes. *)
Theorem run_keeps_contents h it calls :
  Forall2 row_permuted (data it) (data (run astype uninit h it calls)) ∧
  idx it ≡ₚ idx (run astype uninit h it calls) ∧
  batch_size (run astype uninit h it calls) = batch_size it ∧
  buckets (run astype uninit h it calls) = buckets it ∧
  default_bucket_key (run astype uninit h it calls) = default_bucket_key it ∧
  provide_data (run astype uninit h it calls) = provide_data it ∧
  provide_label (run astype uninit h it calls) = provide_label it ∧
  data_name (run astype uninit h it calls) = data_name it ∧
  label_name (run astype uninit h it calls) = label_name it ∧
  invalid_label (run astype uninit h it calls) = invalid_label it.
Proof. apply run_same_contents. Qed.

(** ** Where the rows come from *)

Lemma keyed_permuted bl data data' :
  Forall2 row_permuted data data' → keyed bl data → keyed bl data'.
Proof.
  intros Hp Hk. unfold keyed in *.
  eapply Forall2_trans; [|exact Hk|exact Hp].
  intros w a a' Hw Ha. destruct a, a'; simpl in *; try done.
  by destruct Ha as [<- _].
Qed.

Lemma sourced_permuted sentences inv data data' :
  Forall2 row_permuted data data' →
  sourced astype sentences inv data → sourced astype sentences inv data'.
Proof.
  intros Hp Hs. unfold sourced in *. apply Forall_lookup. intros i a' Ha'.
  destruct (Forall2_lookup_r _ _ _ _ _ Hp Ha') as (a & Ha & Hr).
  pose proof (Forall_lookup_1 _ _ _ _ Hs Ha) as Hsa. simpl in Hsa.
  destruct a, a'; simpl in *; try done.
  - subst. by apply Permutation_nil.
  - destruct Hr as [<- Hr]. by rewrite <- Hr.
Qed.

Lemma asarray_bucket_rows bl inv sentences b w :
  StronglySorted Z.le bl → bl !! b = Some w →
  match asarray (bucket_rows astype bl inv sentences b w) with
  | Arr1 c => c = []
  | Arr2 n rows =>
      Z.of_nat n = w ∧
      Forall (λ row, ∃ s, s ∈ sentences ∧ len s ≤ w ∧
                          row = row_of astype w inv s) rows
  end.
Proof.
  intros Hs Hb.
  assert (Hall : Forall (λ row, ∃ s, s ∈ sentences ∧ len s ≤ w ∧
                          row = row_of astype w inv s)
                   (bucket_rows astype bl inv sentences b w)).
  { unfold bucket_rows. apply Forall_fmap, Forall_forall. intros s Hin.
    apply list_elem_of_filter in Hin as [Hsb Hin]. simpl. exists s.
    split; [done|]. split; [|done].
    destruct (bisect_left_spec bl (len s) Hs) as (_ & _ & Habove).
    eapply Habove; [done|lia]. }
  destruct (bucket_rows astype bl inv sentences b w) as [|r rows]; [done|].
  simpl. split; [|done].
  apply Forall_inv in Hall as (s & _ & Hle & ->).
  rewrite length_row_of by done. unfold len in Hle. lia.
Qed.

Lemma init_keyed_sourced h sentences bs inv arg dn ln out it h1 :
  init astype h sentences bs inv arg dn ln = (out, inr it, h1) →
  ∃ bl, h1 !! buckets it = Some bl ∧ keyed bl (data it) ∧
    sourced astype sentences inv (data it).
Proof.
  intros Hinit.
  destruct (init_inr _ _ _ _ _ _ _ _ _ _ _ Hinit)
    as (bl & _ & Hs & Hl & _ & Hdata & _).
  exists bl. split; [done|]. rewrite Hdata. split.
  - apply Forall2_same_length_lookup. split; [by rewrite length_imap|].
    intros b w a Hw Ha.
    apply list_lookup_imap_Some in Ha as (w' & Hw' & ->).
    rewrite Hw in Hw'. injection Hw' as <-.
    pose proof (asarray_bucket_rows bl inv sentences b w Hs Hw) as Ha.
    destruct (asarray _); [done|]. by destruct Ha.
  - apply Forall_lookup. intros b a Ha.
    apply list_lookup_imap_Some in Ha as (w & Hw & ->).
    pose proof (asarray_bucket_rows bl inv sentences b w Hs Hw) as Ha.
    destruct (asarray _) as [c|n rows]; [done|]. destruct Ha as [<- Ha].
    done.
Qed.

Lemma py_slice_within {A} (l : list A) j bs :
  0 ≤ j → 0 < bs → j + bs ≤ Z.of_nat (length l) →
  py_slice l j (j + bs) = take (Z.to_nat bs) (drop (Z.to_nat j) l) ∧
  length (py_slice l j (j + bs)) = Z.to_nat bs.
Proof.
  intros Hj Hbs Hle. unfold py_slice, clamp_index.
  rewrite !decide_False by lia. rewrite !Z.min_l by lia.
  replace (j + bs - j) with bs by lia. split; [done|].
  rewrite length_take, length_drop. lia.
Qed.

Lemma next_emitted_slice
    h sentences bs inv arg dn ln out it0 h1 calls b it' :
  0 < bs →
  init astype h sentences bs inv arg dn ln = (out, inr it0, h1) →
  next astype uninit h1 (run astype uninit h1 it0 calls) = (Emitted b, it') →
  ∃ i j w rows bl,
    idx (run astype uninit h1 it0 calls)
      !! curr_idx (run astype uninit h1 it0 calls) = Some (i, j) ∧
    data (run astype uninit h1 it0 calls) !! i = Some (Arr2 w rows) ∧
    0 ≤ j ∧ j + bs ≤ Z.of_nat (length rows) ∧
    b_data b = Arr2 w (take (Z.to_nat bs) (drop (Z.to_nat j) rows)) ∧
    h1 !! buckets it0 = Some bl ∧ bl !! i = Some (Z.of_nat w) ∧
    bucket_key b = Z.of_nat w ∧
    b_provide_data b = [(dn, [Z.to_nat bs; w])] ∧
    b_provide_label b = [(ln, [Z.to_nat bs; w])].
Proof.
  intros Hbs Hinit Hnext.
  set (it := run astype uninit h1 it0 calls) in *.
  pose proof (run_ready astype uninit h1 bs inv it0 calls
                (init_ready _ _ _ _ _ _ _ _ _ _ _ Hinit Hbs)) as Hr.
  fold it in Hr.
  destruct Hr as (Hb & _ & _ & Hwf & _ & Hidx & _ & _).
  destruct (run_same_contents h1 it0 calls)
    as (Hd & _ & _ & Hbk & _ & _ & _ & Hdn & Hln & _). fold it in Hd, Hbk, Hdn, Hln.
  destruct (init_keyed_sourced _ _ _ _ _ _ _ _ _ _ Hinit)
    as (bl & Hl & Hkey & _).
  pose proof (keyed_permuted bl _ _ Hd Hkey) as Hkey'.
  destruct (init_inr _ _ _ _ _ _ _ _ _ _ _ Hinit)
    as (_ & _ & _ & _ & _ & _ & _ & _ & _ & _ & _ & Hdn0 & Hln0 & _).
  revert Hnext. unfold next. destruct (decide _); [done|].
  destruct (idx it !! curr_idx it) as [[i j]|] eqn:Hij; [|done].
  destruct (Hidx i j) as (a & Ha & Hj0 & Hj);
    [by eapply list_elem_of_lookup_2|].
  rewrite Ha.
  pose proof (Forall_lookup_1 _ _ _ _ Hwf Ha) as Hwa.
  destruct a as [c|w rows]; [done|]. simpl in Hwa, Hj.
  cbn [aslice]. rewrite Hb.
  destruct (py_slice_within rows j bs Hj0 Hbs Hj) as [Hslice Hlen].
  destruct (decide (w = 0%nat)) as [->|Hw].
  { unfold make_label. by rewrite decide_True. }
  rewrite make_label_closed by (done || by apply Forall_py_slice).
  rewrite Hbk, Hl. simpl.
  destruct (bl !! i) as [key|] eqn:Hkey_i; [|done].
  intros [= <- <-]. simpl.
  assert (Hkw : Z.of_nat w = key).
  { by pose proof (Forall2_lookup_lr _ _ _ _ _ _ Hkey' Hkey_i Ha). }
  exists i, j, w, rows, bl. rewrite Hslice in *. rewrite length_fmap, Hlen.
  rewrite Hdn, Hln, Hdn0, Hln0, Hkw. by repeat split.
Qed.

(** X14. A batch is [batch_size] consecutive rows of one bucket: the rows
    from the offset of the table entry at the cursor on; its key is the
    width of that bucket as the bucket list has it, which is the number of
    columns of the batch, and the shapes announced are
    [(batch_size, width)]. *)
Theorem next_batch_is_slice
    h sentences bs inv arg dn ln out it0 h1 calls b it' :
  0 < bs →
  init astype h sentences bs inv arg dn ln = (out, inr it0, h1) →
  next astype uninit h1 (run astype uninit h1 it0 calls) = (Emitted b, it') →
  ∃ i j w rows bl,
    idx (run astype uninit h1 it0 calls)
      !! curr_idx (run astype uninit h1 it0 calls) = Some (i, j) ∧
    data (run astype uninit h1 it0 calls) !! i = Some (Arr2 w rows) ∧
    0 ≤ j ∧ j + bs ≤ Z.of_nat (length rows) ∧
    b_data b = Arr2 w (take (Z.to_nat bs) (drop (Z.to_nat j) rows)) ∧
    h1 !! buckets it0 = Some bl ∧ bl !! i = Some (Z.of_nat w) ∧
    bucket_key b = Z.of_nat w ∧
    b_provide_data b = [(dn, [Z.to_nat bs; w])] ∧
    b_provide_label b = [(ln, [Z.to_nat bs; w])].
Proof. apply next_emitted_slice. Qed.

(** X15. Every row served is a sentence of the input: a batch holds, in
    each row, some sentence given to the constructor, no longer than the
    batch is wide, followed by the padding value up to that width. *)
Theorem next_rows_are_sentences
    h sentences bs inv arg dn ln out it0 h1 calls b it' :
  init astype h sentences bs inv arg dn ln = (out, inr it0, h1) →
  next astype uninit h1 (run astype uninit h1 it0 calls) = (Emitted b, it') →
  ∃ w rows,
    b_data b = Arr2 w rows ∧
    Forall (λ row, ∃ s, s ∈ sentences ∧ len s ≤ Z.of_nat w ∧
                        row = row_of astype (Z.of_nat w) inv s) rows.
Proof.
  intros Hinit Hnext.
  set (it := run astype uninit h1 it0 calls) in *.
  destruct (run_same_contents h1 it0 calls) as (Hd & _). fold it in Hd.
  destruct (init_keyed_sourced _ _ _ _ _ _ _ _ _ _ Hinit)
    as (bl & _ & _ & Hsrc).
  pose proof (sourced_permuted sentences inv _ _ Hd Hsrc) as Hsrc'.
  revert Hnext. unfold next. destruct (decide _); [done|].
  destruct (idx it !! curr_idx it) as [[i j]|]; [|done].
  destruct (data it !! i) as [a|] eqn:Ha; [|done].
  pose proof (Forall_lookup_1 _ _ _ _ Hsrc' Ha) as Hsa. simpl in Hsa.
  destruct a as [c|w rows]; [done|]. cbn [aslice].
  destruct (make_label _ _ _ _); [done|].
  destruct (_ ≫= _); [|done].
  intros [= <- <-]. simpl. exists w, (py_slice rows j (j + batch_size it)).
  split; [done|]. by apply Forall_py_slice.
Qed.

End Lifetime.

Lemma multiples_upto_NoDup bs hi : NoDup (multiples_upto bs hi).
Proof.
  apply sorted_lt_NoDup. unfold multiples_upto.
  apply sorted_lt_filter, sorted_lt_fmap_seq. intros i j Hij. lia.
Qed.

Section Epoch.
Context {elt : Type} (astype : Z → elt) (uninit : nat → nat → elt).
Context {limits : Limits}.
Implicit Types (a : ndarray elt) (data : list (ndarray elt)) (it : iter elt).

(** ** No batch twice *)

Lemma index_offset_NoDup i data bs :
  NoDup (concat (imap (λ k a, (λ j, ((i + k)%nat, j)) <$>
                   multiples_upto bs (Z.of_nat (alen a) - bs)) data)).
Proof.
  revert i. induction data as [|a data IH]; intros i; [constructor|].
  rewrite imap_cons. cbn [concat]. apply NoDup_app. split; [|split].
  - apply NoDup_fmap_2; [by intros j j' [= ]|apply multiples_upto_NoDup].
  - intros [i' j'] Hin Hin'.
    apply list_elem_of_fmap in Hin as (j & [= -> ->] & _).
    apply elem_of_concat in Hin' as (l & Hl & Hin').
    apply elem_of_lookup_imap in Hl as (k & a' & -> & _).
    apply list_elem_of_fmap in Hin' as (j'' & [= Hk _] & _). simpl in Hk. lia.
  - erewrite imap_ext; [apply (IH (S i))|].
    intros k a' _. simpl. apply list_fmap_ext. intros _ j _. f_equal. lia.
Qed.

Lemma index_spec_NoDup bs data : NoDup (index_spec bs data).
Proof. exact (index_offset_NoDup 0 data bs). Qed.

Lemma elem_of_index_spec_multiple bs data i j :
  0 < bs → (i, j) ∈ index_spec bs data → j mod bs = 0.
Proof.
  intros Hbs Hin. unfold index_spec in Hin.
  apply elem_of_concat in Hin as (l & Hl & Hin).
  apply elem_of_lookup_imap in Hl as (k & a & -> & Ha).
  apply list_elem_of_fmap in Hin as (j' & [= -> ->] & Hj).
  by apply elem_of_multiples_upto in Hj as [_ ?].
Qed.

(** X16. Within an epoch no row is served twice: at any time the index
    table holds no entry twice, and two entries for the same bucket
    designate slices of [batch_size] rows that do not overlap. *)
Theorem index_table_disjoint h sentences bs inv arg dn ln out it0 h1 calls :
  0 < bs →
  init astype h sentences bs inv arg dn ln = (out, inr it0, h1) →
  NoDup (idx (run astype uninit h1 it0 calls)) ∧
  ∀ i j j',
    (i, j) ∈ idx (run astype uninit h1 it0 calls) →
    (i, j') ∈ idx (run astype uninit h1 it0 calls) →
    j ≠ j' → j + bs ≤ j' ∨ j' + bs ≤ j.
Proof.
  intros Hbs Hinit.
  destruct (init_inr _ _ _ _ _ _ _ _ _ _ _ Hinit)
    as (_ & _ & _ & _ & _ & _ & _ & Hidx & _).
  rewrite build_index_spec in Hidx by done. injection Hidx as Hidx.
  destruct (run_same_contents astype uninit h1 it0 calls) as (_ & Hp & _).
  split; [rewrite <- Hp, <- Hidx; apply index_spec_NoDup|].
  intros i j j' Hj Hj' Hne. rewrite <- Hp, <- Hidx in Hj, Hj'.
  apply elem_of_index_spec_multiple in Hj as Hm; [|done].
  apply elem_of_index_spec_multiple in Hj' as Hm'; [|done].
  apply Z.mod_divide in Hm as [q ->]; [|lia].
  apply Z.mod_divide in Hm' as [q' ->]; [|lia].
  assert (q ≠ q') by (by intros ->). nia.
Qed.

(** ** Other batch sizes, and the end of an epoch *)

(** X17. With a negative batch size the constructor builds an iterator
    whose index table is empty: from then on every call of [next()] stops,
    also after [reset()]. *)
Theorem init_negative_batch_size
    h sentences bs inv arg dn ln out it0 h1 calls :
  bs < 0 →
  init astype h sentences bs inv arg dn ln = (out, inr it0, h1) →
  idx it0 = [] ∧
  (next astype uninit h1 (run astype uninit h1 it0 calls)).1 = Stop.
Proof.
  intros Hbs Hinit.
  destruct (init_inr _ _ _ _ _ _ _ _ _ _ _ Hinit)
    as (_ & _ & _ & _ & _ & _ & _ & Hidx & Hcur & _).
  unfold build_index in Hidx. rewrite index_from_negative in Hidx by done.
  injection Hidx as Hidx. split; [done|].
  assert (Hinv : idx (run astype uninit h1 it0 calls) = [] ∧
                 curr_idx (run astype uninit h1 it0 calls) = 0%nat).
  { unfold run. symmetry in Hidx. revert Hidx Hcur. generalize it0.
    induction calls as [|c calls IH]; intros it Hi Hc; [done|].
    simpl. apply IH.
    - destruct c as [g_py g_np|]; simpl.
      + unfold reset. rewrite Hi, shuffle_nil.
        by destruct (shuffle_all g_np (data it)).
      + by rewrite next_stop by (by rewrite Hi, Hc).
    - destruct c as [g_py g_np|]; simpl.
      + unfold reset. destruct (shuffle g_py (idx it)).
        by destruct (shuffle_all g_np (data it)).
      + by rewrite next_stop by (by rewrite Hi, Hc). }
  destruct Hinv as [Hi Hc]. by rewrite next_stop by (by rewrite Hi, Hc).
Qed.

(** X18. Once the table is consumed, [next()] stops again and again and
    leaves the iterator as it is, until [reset()] is called. *)
Theorem next_stop_sticky h it n :
  curr_idx it = length (idx it) →
  next_n astype uninit n h it = replicate n Stop ∧
  run astype uninit h it (replicate n CallNext) = it.
Proof.
  intros Hend. induction n as [|n [IHn IHr]]; [done|]. split.
  - simpl. rewrite next_stop by done. by rewrite IHn.
  - unfold run in *. simpl. by rewrite next_stop by done.
Qed.

(** ** The bucket list is shared *)

(** X19. The key of a batch is read from the bucket list when [next()] is
    called, and that list is shared with the caller: if it has been
    replaced by [bl'] since the construction, the call that would have
    emitted [b] emits the same data and label with the key that [bl'] holds
    at the position of the bucket, and raises [IndexError] when [bl'] is
    too short. *)
Theorem next_reads_shared_list h it b it1 i j bl' :
  next astype uninit h it = (Emitted b, it1) →
  idx it !! curr_idx it = Some (i, j) →
  next astype uninit (<[buckets it := bl']> h) it =
    (match bl' !! i with
     | Some key => Emitted (with_key b key)
     | None => Raised IndexError
     end, it1).
Proof.
  unfold next. intros Hnext Hij. destruct (decide _); [done|].
  rewrite Hij in *. destruct (data it !! i) as [a|]; [|done].
  destruct (make_label _ _ _ _) as [e|label]; [done|].
  destruct (h !! buckets it) as [bl|] eqn:Hl; [|done].
  rewrite list_lookup_insert_eq by (by eapply lookup_lt_Some).
  simpl in *. destruct (bl !! i); [|done].
  injection Hnext as <- <-. by destruct (bl' !! i).
Qed.

End Epoch.

Lemma multiples_upto_head bs (n : nat) :
  0 < bs → bs ≤ Z.of_nat n →
  ∃ rest, multiples_upto bs (Z.of_nat n - bs) = 0 :: rest.
Proof.
  intros Hbs Hn. rewrite <- multiples_upto_range by lia.
  assert (1 ≤ Z.of_nat n / bs) by (apply Z.div_le_lower_bound; lia).
  destruct (Z.to_nat (Z.of_nat n / bs)) as [|m] eqn:Hm; [lia|].
  cbn [seq]. rewrite fmap_cons. by eexists.
Qed.

Section Edge.
Context {elt : Type} (astype : Z → elt) (uninit : nat → nat → elt).
Context {limits : Limits}.
Implicit Types (a : ndarray elt) (data : list (ndarray elt)) (it : iter elt).

(** X20. Empty sentences and derived buckets do not go together: without
    a [buckets] argument, when [batch_size] sentences or more are empty
    and [numpy] accepts the arrays (no sentence longer than the largest
    extent, a padding value and cells that the element type can take), the
    constructor builds an iterator whose first bucket has width 0, and the
    first call of [next()] raises [IndexError] and advances the cursor. *)
Theorem init_empty_sentences_next_raises h sentences bs inv dn ln :
  0 < bs → bs ≤ count_len sentences 0 →
  Forall (λ s, len s ≤ max_dim) sentences → storable inv = true →
  Forall (Forall (λ c, storable c = true)) sentences →
  ∃ out it rows,
    init astype h sentences bs inv None dn ln
      = (out, inr it, h ++ [derive_buckets sentences bs]) ∧
    data it !! 0%nat = Some (Arr2 0 rows) ∧
    next astype uninit (h ++ [derive_buckets sentences bs]) it
      = (Raised IndexError, advance it).
Proof.
  intros Hbs Hc Hdim Hinv Hcells.
  pose proof (bind_buckets_none h sentences bs) as Hbind.
  destruct (proj1 (count_len_positive sentences 0)) as (s0 & Hs0 & Hlen0);
    [lia|].
  assert (Hin : 0 ∈ derive_buckets sentences bs).
  { apply elem_of_derive_buckets. split; [|done]. exists s0.
    split; [done|lia]. }
  pose proof (derive_buckets_sorted sentences bs) as Hsorted.
  assert (Hhead : derive_buckets sentences bs !! 0%nat = Some 0).
  { pose proof (elem_of_derive_buckets sentences bs) as Hel.
    destruct (derive_buckets sentences bs) as [|w0 rest];
      [by apply not_elem_of_nil in Hin|].
    simpl. f_equal.
    assert (0 ≤ w0) by (destruct (proj1 (Hel w0)) as [(? & ? & ?) _];
                        [left|lia]).
    apply StronglySorted_inv in Hsorted as [_ Hall].
    apply elem_of_cons in Hin as [->|Hin]; [done|].
    rewrite Forall_forall in Hall. specialize (Hall _ Hin). lia. }
  destruct (init_after_bind astype h sentences bs inv None dn ln _ _ _ Hbind)
    as (out & r & Hinit & [(_ & _ & _ & Hok)|(Hno & _)]);
    [|by destruct Hno; apply within_limits_derived].
  destruct Hok as [it ->]; [by intros Hnil; rewrite Hnil in Hin;
                            apply not_elem_of_nil in Hin|lia|].
  destruct (init_inr _ _ _ _ _ _ _ _ _ _ _ Hinit)
    as (bl & Hb & Hs & _ & _ & Hdata & _ & Hidx & Hcur & Hbs' & _).
  rewrite Hbind in Hb. injection Hb as _ <-.
  rewrite build_index_spec in Hidx by done. injection Hidx as Hidx.
  pose proof (derived_bucket_count astype sentences bs inv 0 0 Hhead) as Hcnt.
  pose proof (bucket_rows_width astype _ inv sentences 0 0 Hs Hhead) as Hwid.
  assert (Ha : ∃ rows, data it !! 0%nat = Some (Arr2 0 rows) ∧
                       bs ≤ Z.of_nat (length rows)).
  { rewrite Hdata, list_lookup_imap, Hhead. simpl.
    destruct (bucket_rows astype (derive_buckets sentences bs) inv sentences 0 0)
      as [|r rows]; [simpl in Hcnt; lia|].
    apply Forall_inv in Hwid as Hr. simpl in *. rewrite Hr. by eexists. }
  destruct Ha as (rows & Ha & Hrows).
  exists out, it, rows. split; [done|]. split; [done|].
  assert (Hfirst : ∃ rest, idx it = (0%nat, 0) :: rest).
  { rewrite <- Hidx. unfold index_spec.
    destruct (data it) as [|a data]; [done|]. simpl in Ha. injection Ha as ->.
    rewrite imap_cons. cbn [concat alen].
    destruct (multiples_upto_head bs (length rows) Hbs Hrows) as [rest ->].
    rewrite fmap_cons. by eexists. }
  destruct Hfirst as [rest Hfirst].
  unfold next. rewrite Hcur, Hfirst. rewrite decide_False by done.
  simpl. rewrite Ha. simpl. done.
Qed.

(** X21. The shapes announced at construction bound every batch:
    [provide_data] and [provide_label] are [(batch_size, width of the
    widest bucket)], and a batch has [batch_size] rows and is no wider
    than that. *)
Theorem next_within_announced_shape
    h sentences bs inv arg dn ln out it0 h1 calls b it' :
  0 < bs →
  init astype h sentences bs inv arg dn ln = (out, inr it0, h1) →
  next astype uninit h1 (run astype uninit h1 it0 calls) = (Emitted b, it') →
  provide_data it0 = [(dn, (bs, default_bucket_key it0))] ∧
  provide_label it0 = [(ln, (bs, default_bucket_key it0))] ∧
  ∃ w, shape (b_data b) = [Z.to_nat bs; w] ∧
       shape (b_label b) = [Z.to_nat bs; w] ∧
       Z.of_nat w ≤ default_bucket_key it0.
Proof.
  intros Hbs Hinit Hnext.
  destruct (init_inr _ _ _ _ _ _ _ _ _ _ _ Hinit)
    as (bl & _ & _ & Hl & _ & _ & Hmax & _ & _ & _ & _ & _ & _ & Hpd & Hpl).
  split; [done|]. split; [done|].
  destruct (next_emitted_slice astype uninit _ _ _ _ _ _ _ _ _ _ _ _ _
              Hbs Hinit Hnext)
    as (i & j & w & rows & bl' & _ & _ & Hj0 & Hj & Hd & Hl' & Hw & _).
  destruct (next_emitted astype uninit inv h1 _ b it'
              (run_shaped astype uninit inv h1 it0 calls
                 (init_shaped astype _ _ _ _ _ _ _ _ _ _ Hinit)) Hnext)
    as (w' & rows' & _ & _ & Hd' & Hlab).
  rewrite Hd in Hd'. injection Hd' as <- <-.
  rewrite Hl in Hl'. injection Hl' as <-.
  exists w. rewrite Hlab, Hd. simpl.
  rewrite length_fmap, length_take, length_drop.
  split; [f_equal; lia|]. split; [f_equal; lia|].
  destruct (py_max_spec bl _ Hmax) as [_ Hall].
  rewrite Forall_forall in Hall. apply Hall. by eapply list_elem_of_lookup_2.
Qed.

End Edge.

(** ** Concrete runs of the further properties *)

Lemma init_batch_size_zero_witness :
  ∃ out e h1,
    init (limits := int64_limits) id [] [[1; 2]; [3]] 0 (-1) None
      "data" "softmax_label" = (out, inl e, h1) ∧
    (e = ValueError ∨ e = OverflowError) ∧
    (out ≠ [] → e = ValueError).
Proof.
  apply (init_batch_size_zero (limits := int64_limits) id [] [[1; 2]; [3]]
           (-1) None "data" "softmax_label").
  left. reflexivity.
Defined.

Lemma init_supplied_succeeds_witness :
  ∃ out it,
    init (limits := int64_limits) id [[5; -2; 0]] [[1; 2]; [3]; []; [1; 2; 3;
        4; 5; 6]] 2 (-1)
      (Some 0%nat) "data" "softmax_label"
      = (out, inr it, <[0%nat := py_sort [5; -2; 0]]> [[5; -2; 0]]).
Proof.
  apply (init_supplied_succeeds (limits := int64_limits) id [[5; -2; 0]]
           [[1; 2]; [3]; []; [1; 2; 3; 4; 5; 6]] 2 (-1) 0%nat 5 [-2; 0]
           "data" "softmax_label").
  - reflexivity.
  - lia.
  - repeat (constructor; [by vm_compute|]). constructor.
  - reflexivity.
  - repeat constructor.
Defined.

Lemma init_conserves_sentences_witness :
  ∃ out it h1,
    init (limits := int64_limits) id [[5; 2]] [[1; 2]; [3]; [7; 7; 7]; [1; 2;
        3; 4; 5; 6]] 1 (-1)
      (Some 0%nat) "data" "softmax_label" = (out, inr it, h1) ∧
    ∃ nd, out = [Discarded nd] ∧ 0 ≤ nd ∧
      total_rows (data it) + nd
        = len [[1; 2]; [3]; [7; 7; 7]; [1; 2; 3; 4; 5; 6]].
Proof.
  eexists _, _, _. split; [reflexivity|].
  eapply (init_conserves_sentences (limits := int64_limits) id [[5; 2]]
            [[1; 2]; [3]; [7; 7; 7]; [1; 2; 3; 4; 5; 6]] 1 (-1) (Some 0%nat)
            "data" "softmax_label").
  reflexivity.
Defined.

Lemma init_derived_buckets_full_witness :
  ∃ out it,
    init (limits := int64_limits) id [] [[1; 2]; [3]; [4; 5]; [6]; [7; 8; 9]] 2
        (-1) None
      "data" "softmax_label"
      = (out, inr it,
         [] ++ [derive_buckets [[1; 2]; [3]; [4; 5]; [6]; [7; 8; 9]] 2]) ∧
    data it ≠ [] ∧
    Forall (λ a, 2 ≤ Z.of_nat (alen a)) (data it) ∧
    ∀ i, (i < length (data it))%nat → (i, 0) ∈ idx it.
Proof.
  apply (init_derived_buckets_full (limits := int64_limits) id []
           [[1; 2]; [3]; [4; 5]; [6]; [7; 8; 9]] 2 (-1)
           "data" "softmax_label").
  - lia.
  - exists [1; 2]. split; [left|]. vm_compute. discriminate.
  - repeat (constructor; [by vm_compute|]). constructor.
  - reflexivity.
  - repeat constructor.
Defined.

Lemma init_bucket_order_irrelevant_witness :
  init (limits := int64_limits) id (<[0%nat := [2; 5; 3]]> [[5; 2; 3]]) [[1;
      2]; [3]; [7; 7; 7]] 1 (-1)
    (Some 0%nat) "data" "softmax_label"
  = init (limits := int64_limits) id [[5; 2; 3]] [[1; 2]; [3]; [7; 7; 7]] 1 (-1)
      (Some 0%nat) "data" "softmax_label".
Proof.
  apply (init_bucket_order_irrelevant (limits := int64_limits) id [[5; 2; 3]]
      [[1; 2]; [3]; [7; 7; 7]]
           1 (-1) 0%nat [5; 2; 3] [2; 5; 3] "data" "softmax_label").
  - reflexivity.
  - apply perm_swap.
Defined.

Lemma next_batch_is_slice_witness :
  let b : batch Z :=
    {| b_data := Arr2 2 [[3; -1]; [4; 5]];
       b_label := Arr2 2 [[-1; -1]; [5; -1]];
       bucket_key := 2;
       b_provide_data := [("data", [2%nat; 2%nat])];
       b_provide_label := [("softmax_label", [2%nat; 2%nat])] |} in
  ∃ out it0 h1 it',
    init (limits := int64_limits) id [[2; 6]] [[1; 2]; [9]; [3]; [4; 5]; [6; 7;
        8]] 2 (-1)
      (Some 0%nat) "data" "softmax_label" = (out, inr it0, h1) ∧
    next id (λ _ _, 0) h1 (run id (λ _ _, 0) h1 it0 [CallNext]) = (Emitted b, it') ∧
    ∃ i j w rows bl,
      idx (run id (λ _ _, 0) h1 it0 [CallNext])
        !! curr_idx (run id (λ _ _, 0) h1 it0 [CallNext]) = Some (i, j) ∧
      data (run id (λ _ _, 0) h1 it0 [CallNext]) !! i = Some (Arr2 w rows) ∧
      0 ≤ j ∧ j + 2 ≤ Z.of_nat (length rows) ∧
      b_data b = Arr2 w (take (Z.to_nat 2) (drop (Z.to_nat j) rows)) ∧
      h1 !! buckets it0 = Some bl ∧ bl !! i = Some (Z.of_nat w) ∧
      bucket_key b = Z.of_nat w ∧
      b_provide_data b = [("data", [Z.to_nat 2; w])] ∧
      b_provide_label b = [("softmax_label", [Z.to_nat 2; w])].
Proof.
  intros b. eexists _, _, _, _. split; [reflexivity|]. split; [reflexivity|].
  eapply (next_batch_is_slice (limits := int64_limits) id (λ _ _, 0) [[2; 6]]
            [[1; 2]; [9]; [3]; [4; 5]; [6; 7; 8]] 2 (-1) (Some 0%nat)
            "data" "softmax_label" _ _ _ [CallNext] b).
  - lia.
  - reflexivity.
  - reflexivity.
Defined.

Lemma next_rows_are_sentences_witness :
  let b : batch Z :=
    {| b_data := Arr2 2 [[3; -1]; [4; 5]];
       b_label := Arr2 2 [[-1; -1]; [5; -1]];
       bucket_key := 2;
       b_provide_data := [("data", [2%nat; 2%nat])];
       b_provide_label := [("softmax_label", [2%nat; 2%nat])] |} in
  ∃ w rows,
    b_data b = Arr2 w rows ∧
    Forall (λ row, ∃ s, s ∈ [[1; 2]; [9]; [3]; [4; 5]; [6; 7; 8]] ∧
                        len s ≤ Z.of_nat w ∧
                        row = row_of id (Z.of_nat w) (-1) s) rows.
Proof.
  intros b.
  eapply (next_rows_are_sentences (limits := int64_limits) id (λ _ _, 0) [[2;
      6]]
            [[1; 2]; [9]; [3]; [4; 5]; [6; 7; 8]] 2 (-1) (Some 0%nat)
            "data" "softmax_label" _ _ _ [CallNext] b).
  - reflexivity.
  - reflexivity.
Defined.

Lemma next_within_announced_shape_witness :
  let b : batch Z :=
    {| b_data := Arr2 2 [[3; -1]; [4; 5]];
       b_label := Arr2 2 [[-1; -1]; [5; -1]];
       bucket_key := 2;
       b_provide_data := [("data", [2%nat; 2%nat])];
       b_provide_label := [("softmax_label", [2%nat; 2%nat])] |} in
  ∃ out it0 h1,
    init (limits := int64_limits) id [[2; 6]] [[1; 2]; [9]; [3]; [4; 5]; [6; 7;
        8]] 2 (-1)
      (Some 0%nat) "data" "softmax_label" = (out, inr it0, h1) ∧
    provide_data it0 = [("data", (2, default_bucket_key it0))] ∧
    provide_label it0 = [("softmax_label", (2, default_bucket_key it0))] ∧
    ∃ w, shape (b_data b) = [Z.to_nat 2; w] ∧
         shape (b_label b) = [Z.to_nat 2; w] ∧
         Z.of_nat w ≤ default_bucket_key it0.
Proof.
  intros b. eexists _, _, _. split; [reflexivity|].
  eapply (next_within_announced_shape (limits := int64_limits) id (λ _ _, 0)
      [[2; 6]]
            [[1; 2]; [9]; [3]; [4; 5]; [6; 7; 8]] 2 (-1) (Some 0%nat)
            "data" "softmax_label" _ _ _ [CallNext] b).
  - lia.
  - reflexivity.
  - reflexivity.
Defined.

Lemma index_table_disjoint_witness :
  ∃ out it0 h1,
    init (limits := int64_limits) id [[2; 6]] [[1; 2]; [9]; [3]; [4; 5]; [6; 7;
        8]] 2 (-1)
      (Some 0%nat) "data" "softmax_label" = (out, inr it0, h1) ∧
    NoDup (idx (run id (λ _ _, 0) h1 it0 [CallReset [1%nat; 0%nat] [2%nat]; CallNext])) ∧
    ∀ i j j',
      (i, j) ∈ idx (run id (λ _ _, 0) h1 it0 [CallReset [1%nat; 0%nat] [2%nat]; CallNext]) →
      (i, j') ∈ idx (run id (λ _ _, 0) h1 it0 [CallReset [1%nat; 0%nat] [2%nat]; CallNext]) →
      j ≠ j' → j + 2 ≤ j' ∨ j' + 2 ≤ j.
Proof.
  eexists _, _, _. split; [reflexivity|].
  eapply (index_table_disjoint (limits := int64_limits) id (λ _ _, 0) [[2; 6]]
            [[1; 2]; [9]; [3]; [4; 5]; [6; 7; 8]] 2 (-1) (Some 0%nat)
            "data" "softmax_label").
  - lia.
  - reflexivity.
Defined.

Lemma init_negative_batch_size_witness :
  ∃ out it0 h1,
    init (limits := int64_limits) id [] [[1; 2]; [3]] (-2) (-1) None "data"
        "softmax_label"
      = (out, inr it0, h1) ∧
    idx it0 = [] ∧
    (next id (λ _ _, 0) h1
       (run id (λ _ _, 0) h1 it0 [CallNext; CallReset [3%nat] [1%nat; 4%nat]])).1 = Stop.
Proof.
  eexists _, _, _. split; [reflexivity|].
  eapply (init_negative_batch_size (limits := int64_limits) id (λ _ _, 0) []
      [[1; 2]; [3]] (-2) (-1)
            None "data" "softmax_label").
  - lia.
  - reflexivity.
Defined.

Lemma next_stop_sticky_witness :
  let it : iter Z :=
    {| data := [Arr2 2 [[1; 2]; [3; -1]]];
       idx := [(0%nat, 0); (0%nat, 1)];
       curr_idx := 2;
       batch_size := 1;
       buckets := 0%nat;
       default_bucket_key := 2;
       provide_data := [("data", (1, 2))];
       provide_label := [("softmax_label", (1, 2))];
       data_name := "data";
       label_name := "softmax_label";
       invalid_label := -1 |} in
  next_n id (λ _ _, 0) 3 [[2]] it = replicate 3 Stop ∧
  run id (λ _ _, 0) [[2]] it (replicate 3 CallNext) = it.
Proof.
  intros it. apply (next_stop_sticky id (λ _ _, 0) [[2]] it 3). reflexivity.
Defined.

Lemma next_reads_shared_list_witness :
  let it : iter Z :=
    {| data := [Arr2 2 [[1; 2]; [3; -1]]];
       idx := [(0%nat, 0); (0%nat, 1)];
       curr_idx := 0;
       batch_size := 1;
       buckets := 0%nat;
       default_bucket_key := 2;
       provide_data := [("data", (1, 2))];
       provide_label := [("softmax_label", (1, 2))];
       data_name := "data";
       label_name := "softmax_label";
       invalid_label := -1 |} in
  let b : batch Z :=
    {| b_data := Arr2 2 [[1; 2]];
       b_label := Arr2 2 [[2; -1]];
       bucket_key := 2;
       b_provide_data := [("data", [1%nat; 2%nat])];
       b_provide_label := [("softmax_label", [1%nat; 2%nat])] |} in
  next id (λ _ _, 0) (<[buckets it := [40; 50]]> [[2]]) it =
    (match [40; 50] !! 0%nat with
     | Some key => Emitted (with_key b key)
     | None => Raised IndexError
     end, advance it).
Proof.
  intros it b.
  apply (next_reads_shared_list id (λ _ _, 0) [[2]] it b (advance it) 0%nat 0
           [40; 50]).
  - reflexivity.
  - reflexivity.
Defined.

Lemma init_empty_sentences_next_raises_witness :
  ∃ out it rows,
    init (limits := int64_limits) id [] [[]; [1; 2]; []; [3]] 2 (-1) None
        "data" "softmax_label"
      = (out, inr it, [] ++ [derive_buckets [[]; [1; 2]; []; [3]] 2]) ∧
    data it !! 0%nat = Some (Arr2 0 rows) ∧
    next id (λ _ _, 0) ([] ++ [derive_buckets [[]; [1; 2]; []; [3]] 2]) it
      = (Raised IndexError, advance it).
Proof.
  apply (init_empty_sentences_next_raises (limits := int64_limits) id
           (λ _ _, 0) [] [[]; [1; 2]; []; [3]] 2 (-1)
           "data" "softmax_label").
  - lia.
  - vm_compute. discriminate.
  - repeat (constructor; [by vm_compute|]). constructor.
  - reflexivity.
  - repeat constructor.
Defined.

End IterMore.
